(** * esdb: block reader, open stream and stream manager

    A shallow embedding of three parts of the event store:

    - [Blocks]  : the block-structured reader (package blocks, reader.go);
    - [Stream]  : the open stream file with its per-index back-pointer
                  chains (package stream, the openStream type);
    - [Cluster] : the stream manager (package cluster, the DB type).

    Machine integers are [Z] with the wrap-around written out, byte
    sequences are [list Byte.byte], Go maps are [gmap], and a Go function
    that can fail returns a sum. *)

From Stdlib Require Import ZArith List Lia Bool.
From Stdlib Require Import Strings.Byte Strings.Ascii DecimalString.
From Stdlib Require DecimalN DecimalPos.
From stdpp Require Import gmap strings list fin_maps.

Open Scope Z_scope.

(** ** Go's machine integers *)

Definition MaxInt64 : Z := 2 ^ 63 - 1.
Definition MaxUint16 : Z := 2 ^ 16 - 1.
Definition MaxUint32 : Z := 2 ^ 32 - 1.
Definition MaxUint64 : Z := 2 ^ 64 - 1.

(** Conversion to [int]/[int64]: two's complement wrap-around. *)
Definition to_int64 (x : Z) : Z := (x + 2 ^ 63) mod 2 ^ 64 - 2 ^ 63.

(** Conversion to [uint64]. *)
Definition to_uint64 (x : Z) : Z := x mod 2 ^ 64.

(** ** Outcomes of a Go call

    [Ret] is a normal return, [Panic] a run-time panic, [Fatal] the exit
    of the process through [log.Fatal], and [OutOfFuel] is the artefact
    of bounding a loop by a fuel argument; the theorems show that it does
    not occur. *)

Inductive res (A : Type) : Type :=
| Ret (a : A)
| Panic
| Fatal
| OutOfFuel.
Arguments Ret {A} a.
Arguments Panic {A}.
Arguments Fatal {A}.
Arguments OutOfFuel {A}.

#[global] Instance res_ret : MRet res := fun A a => Ret a.
#[global] Instance res_bind : MBind res := fun A B k m =>
  match m with
  | Ret a => k a
  | Panic => Panic
  | Fatal => Fatal
  | OutOfFuel => OutOfFuel
  end.

(** ** Little-endian fixed-width integers (encoding/binary) *)

Definition byte_of_Z (n : Z) : byte :=
  match Byte.of_N (Z.to_N (n mod 256)) with
  | Some b => b
  | None => x00
  end.

Definition Z_of_byte (b : byte) : Z := Z.of_N (Byte.to_N b).

Fixpoint le_encode (width : nat) (n : Z) : list byte :=
  match width with
  | O => []
  | S w => byte_of_Z n :: le_encode w (n / 256)
  end.

Fixpoint le_decode (bs : list byte) : Z :=
  match bs with
  | [] => 0
  | b :: rest => Z_of_byte b + 256 * le_decode rest
  end.


(** * Package blocks: the block reader (blocks/reader.go) *)

Module Blocks.

(** Errors the reader meets: [io.EOF], the package's [BadSeek], and the
    "negative position" error of [bytes.Reader.Seek]. *)
Inductive error : Type := EOF | BadSeek | NegativePosition.

(** *** bytes.Reader, the [io.ReadSeeker] that [NewByteReader] wraps *)

Record BytesReader : Type := mkBytesReader { s : list byte; i : nat }.

(** [Read(b)] with [len(b) = n]: [EOF] at the end of the data, otherwise
    as many bytes as fit. *)
Definition BytesReader_Read (r : BytesReader) (n : nat)
  : list byte * option error * BytesReader :=
  if (length (s r) <=? i r)%nat then ([], Some EOF, r)
  else
    let b := take n (drop (i r) (s r)) in
    (b, None, mkBytesReader (s r) (i r + length b)).

(** [Seek(offset, 0)]. *)
Definition BytesReader_Seek (r : BytesReader) (offset : Z)
  : Z * option error * BytesReader :=
  if offset <? 0 then (0, Some NegativePosition, r)
  else (offset, None, mkBytesReader (s r) (Z.to_nat offset)).

(** *** bytes.Buffer

    [unread] is the unread portion. [allocated] records whether the
    buffer owns a backing array: a fresh buffer does not (its slice is
    nil, of capacity 0), and the first non-empty write allocates one. *)

Record Buffer : Type := mkBuffer { unread : list byte; allocated : bool }.

Definition newBuffer : Buffer := mkBuffer [] false.

Definition Buffer_Len (b : Buffer) : nat := length (unread b).

Definition Buffer_Write (b : Buffer) (p : list byte) : Buffer :=
  mkBuffer (unread b ++ p)
           (allocated b || match p with [] => false | _ => true end).

(** [Read(p)] with [len(p) = n]. *)
Definition Buffer_Read (b : Buffer) (n : nat)
  : list byte * option error * Buffer :=
  match unread b with
  | [] => if (n =? 0)%nat then ([], None, b) else ([], Some EOF, b)
  | _ => (take n (unread b), None, mkBuffer (drop n (unread b)) (allocated b))
  end.

(** *** The reader *)

Record Reader : Type := mkReader {
  buffer : Buffer;
  scratch : Buffer;
  reader : BytesReader;
  blockSize : Z
}.

Definition NewReader (r : BytesReader) (blockSize : Z) : Reader :=
  mkReader newBuffer newBuffer r blockSize.

Definition NewByteReader (b : list byte) (blockSize : Z) : Reader :=
  NewReader (mkBytesReader b 0) blockSize.

(** Modelled from the spec: [headerLen] and [fixedInt] are not in the
    sources. "The header width is derived from the block size: 2 bytes if
    the block size fits in 16 bits, 4 bytes if it fits in 32, otherwise 8
    bytes." *)
Definition headerLen (blockSize : Z) : Z :=
  if blockSize <=? MaxUint16 then 2
  else if blockSize <=? MaxUint32 then 4
  else 8.

(** [parseHeader]: the header read as a little-endian unsigned integer of
    the header's width, converted to [int]. *)
Definition parseHeader (r : Reader) (head : list byte) : Z :=
  to_int64 (le_decode (take (Z.to_nat (headerLen (blockSize r))) head)).

(** [make([]byte, n)]: a zeroed slice, a panic when [n] is negative. *)
Definition make (n : Z) : res (list byte) :=
  if n <? 0 then Panic else Ret (repeat x00 (Z.to_nat n)).

(** Reading [k] bytes into a zeroed slice [p]: the bytes read followed by
    the untouched rest of [p]. *)
Definition fill (p got : list byte) : list byte :=
  got ++ drop (length got) p.

(** [parse]: take one header and the payload it declares from [scratch]
    and append the payload to [buffer]. *)
Definition parse (r : Reader) : res Reader :=
  head ← make (headerLen (blockSize r));
  let '(got, _, scratch1) := Buffer_Read (scratch r) (length head) in
  let head := fill head got in
  body ← make (parseHeader r head);
  let '(got, _, scratch2) := Buffer_Read scratch1 (length body) in
  Ret (mkReader (Buffer_Write (buffer r) got) scratch2 (reader r) (blockSize r)).

(** [fetch]: the loop [for r.buffer.Len() < length], one physical block
    per round. *)
Fixpoint fetch_loop (fuel : nat) (r : Reader) (len : Z)
  : res (option error * Reader) :=
  if Z.of_nat (Buffer_Len (buffer r)) <? len then
    match fuel with
    | O => OutOfFuel
    | S fuel' =>
        block ← make (to_int64 (headerLen (blockSize r) + blockSize r));
        let '(got, err, rd) := BytesReader_Read (reader r) (length block) in
        let r1 := mkReader (buffer r) (Buffer_Write (scratch r) got)
                           rd (blockSize r) in
        r2 ← (if headerLen (blockSize r) <? Z.of_nat (length got)
              then parse r1 else Ret r1);
        match err with
        | Some e => Ret (Some e, r2)
        | None => fetch_loop fuel' r2 len
        end
    end
  else Ret (None, r).

(** Every round that does not return reads at least one byte of the
    underlying data, so the bytes left plus one bound the rounds. *)
Definition fetch_fuel (r : Reader) : nat :=
  S (length (s (reader r)) - i (reader r)).

Definition fetch (r : Reader) (len : Z) : res (option error * Reader) :=
  fetch_loop (fetch_fuel r) r len.

(** [Read(p)] with [len(p) = n]: the bytes stored into [p], the error, and
    the reader afterwards. The error of [fetch] is dropped, as in the
    source. *)
Definition Read (r : Reader) (n : nat)
  : res (list byte * option error * Reader) :=
  '(_, r1) ← fetch r (Z.of_nat n);
  let '(got, err, buf) := Buffer_Read (buffer r1) n in
  Ret (got, err, mkReader buf (scratch r1) (reader r1) (blockSize r1)).

(** What the slice expression [r.buffer.Bytes()[:n]] yields. Go checks
    the upper bound of a slice expression against the capacity: within
    the unread bytes the result is their prefix; past the capacity it is
    a slice-bounds panic. Between the two (past the unread bytes of a
    buffer that owns a backing array) the outcome depends on the
    capacity the allocator chose, which this model leaves open as
    [PastLength]. *)
Inductive sliced : Type :=
| Within (bs : list byte)
| PastLength.

Definition slice_to (b : Buffer) (n : Z) : res sliced :=
  if n <? 0 then Panic
  else if n <=? Z.of_nat (Buffer_Len b)
       then Ret (Within (take (Z.to_nat n) (unread b)))
  else if allocated b then Ret PastLength
  else Panic.

(** [Peek(n)]. *)
Definition Peek (r : Reader) (n : Z) : res (sliced * Reader) :=
  '(_, r1) ← fetch r n;
  sl ← slice_to (buffer r1) n;
  Ret (sl, r1).

(** [Seek(offset, whence)]. *)
Definition Seek (r : Reader) (offset : Z) (whence : Z)
  : Z * option error * Reader :=
  if negb (whence =? 0) then (0, Some BadSeek, r)
  else
    let '(pos, err, rd) := BytesReader_Seek (reader r) offset in
    (pos, err, mkReader newBuffer newBuffer rd (blockSize r)).

(** [ReadBlock(offset)]. *)
Definition ReadBlock (r : Reader) (offset : Z)
  : res (list byte * option error * Reader) :=
  let '(_, _, r1) := Seek r offset 0 in
  block ← make (blockSize r1);
  Read r1 (length block).

(** [Read] repeated with a destination of [n] bytes until it reports
    [EOF], collecting what each call delivered. *)
Fixpoint read_all_loop (fuel : nat) (r : Reader) (n : nat) : res (list byte) :=
  match fuel with
  | O => OutOfFuel
  | S fuel' =>
      '(got, err, r1) ← Read r n;
      match err with
      | Some _ => Ret got
      | None => rest ← read_all_loop fuel' r1 n; Ret (got ++ rest)
      end
  end.

Definition read_all (r : Reader) (n : nat) : res (list byte) :=
  read_all_loop (S (length (s (reader r)) + Buffer_Len (buffer r))) r n.

(** [ReadByte]: the first unread byte, or the zero byte of the fresh
    slice when nothing was read. *)
Definition ReadByte (r : Reader) : res (byte * option error * Reader) :=
  '(_, r1) ← fetch r 1;
  b ← make 1;
  let '(got, err, buf) := Buffer_Read (buffer r1) (length b) in
  Ret (nth 0 (fill b got) x00, err,
       mkReader buf (scratch r1) (reader r1) (blockSize r1)).

(** [ReadByte] repeated until it reports an error, collecting the bytes
    it delivered before. *)
Fixpoint read_bytes_loop (fuel : nat) (r : Reader) : res (list byte) :=
  match fuel with
  | O => OutOfFuel
  | S fuel' =>
      '(c, err, r1) ← ReadByte r;
      match err with
      | Some _ => Ret []
      | None => rest ← read_bytes_loop fuel' r1; Ret (c :: rest)
      end
  end.

Definition read_bytes (r : Reader) : res (list byte) :=
  read_bytes_loop (S (length (s (reader r)) + Buffer_Len (buffer r))) r.

(** *** The block layout

    Modelled from the spec: the writer is not in the sources. "A block is
    header(payload_len) || payload || padding where payload_len <=
    blockSize and header_width + blockSize is the physical block width." *)

Definition header (blockSize : Z) (n : nat) : list byte :=
  le_encode (Z.to_nat (headerLen blockSize)) (Z.of_nat n).

Definition block (blockSize : Z) (payload : list byte) : list byte :=
  header blockSize (length payload) ++ payload
    ++ repeat x00 (Z.to_nat blockSize - length payload).

Definition blocks (blockSize : Z) (payloads : list (list byte)) : list byte :=
  concat (map (block blockSize) payloads).

(** Well-formed payloads: each of at most [blockSize] bytes. *)
Definition well_formed (blockSize : Z) (payloads : list (list byte)) : Prop :=
  Forall (fun p => Z.of_nat (length p) <= blockSize) payloads.

(** Every block but the last carries a full payload. *)
Fixpoint nonfinal_full (blockSize : Z) (payloads : list (list byte)) : Prop :=
  match payloads with
  | [] => True
  | p :: rest =>
      (rest <> [] -> Z.of_nat (length p) = blockSize)
      /\ nonfinal_full blockSize rest
  end.

End Blocks.

(** * Package stream: the open stream (the openStream type) *)

Module Stream.

Inductive error : Type :=
| EOF
| CORRUPTED_EVENT
| CORRUPTED_HEADER
| WRITING_TO_CLOSED_STREAM
| InvalidArgument
| FileTooLarge.

(** *** The underlying [io.ReadWriteSeeker]: a file with a position *)

Record File : Type := mkFile { content : list byte; pos : Z }.

(** [Seek(offset, 0)]: a negative offset is refused. *)
Definition File_Seek (f : File) (offset : Z) : Z * option error * File :=
  if offset <? 0 then (0, Some InvalidArgument, f)
  else (offset, None, mkFile (content f) offset).

(** [Write(p)]: the bytes replace or extend the content at the position
    (a gap is filled with zeros) and the position advances. A write that
    would pass the largest file offset fails; the model takes a failed
    write to store nothing. *)
Definition File_Write (f : File) (p : list byte) : Z * option error * File :=
  if MaxInt64 <? pos f + Z.of_nat (length p) then (0, Some FileTooLarge, f)
  else
    let n := Z.to_nat (pos f) in
    let c := content f in
    (Z.of_nat (length p), None,
     mkFile (take n c ++ repeat x00 (n - length c) ++ p ++ drop (n + length p) c)
            (pos f + Z.of_nat (length p))).

(** The bytes from the position on. *)
Definition File_rest (f : File) : list byte :=
  drop (Z.to_nat (pos f)) (content f).

(** *** The event codec

    Modelled from the spec: [newEvent], [Event.push] and [pullEvent] of
    package stream and the uvarint helpers of package binary are not in
    the sources. "length: unsigned varint, equal to the byte length of
    everything following in this event; the payload begins with the
    count of indexes (uvarint) and then count pairs of (index-name-length
    uvarint, index-name bytes, back-offset uvarint); data: raw payload
    bytes." A zero length is the end-of-events sentinel. *)

Record Event : Type := mkEvent { Data : list byte; offsets : gmap string Z }.

Definition newEvent (data : list byte) (offsets : gmap string Z) : Event :=
  mkEvent data offsets.

(** The loop of [binary.PutUvarint]: seven bits a byte, low group first,
    the high bit set on every byte but the last. Ten bytes hold a
    [uint64]. *)
Fixpoint uvarint_loop (fuel : nat) (x : Z) : list byte :=
  match fuel with
  | O => []
  | S fuel' =>
      if x <? 128 then [byte_of_Z x]
      else byte_of_Z (x mod 128 + 128) :: uvarint_loop fuel' (x / 128)
  end.

Definition MaxVarintLen64 : nat := 10.

Definition uvarint (x : Z) : list byte :=
  uvarint_loop MaxVarintLen64 (to_uint64 x).

(** [binary.ReadUvarint]: at most [n] bytes, the tenth at most 1; the
    value and the bytes that follow, or nothing on a short or overlong
    input. *)
Fixpoint read_uvarint_loop (n : nat) (bs : list byte) : option (Z * list byte) :=
  match n, bs with
  | O, _ => None
  | _, [] => None
  | S n', b :: rest =>
      if Z_of_byte b <? 128 then
        if (n' =? 0)%nat && (1 <? Z_of_byte b) then None
        else Some (Z_of_byte b, rest)
      else
        match read_uvarint_loop n' rest with
        | Some (v, rest') => Some (Z_of_byte b - 128 + 128 * v, rest')
        | None => None
        end
  end.

Definition read_uvarint (bs : list byte) : option (Z * list byte) :=
  read_uvarint_loop MaxVarintLen64 bs.

Definition push_index (entry : string * Z) : list byte :=
  let name := String.list_byte_of_string entry.1 in
  uvarint (Z.of_nat (length name)) ++ name ++ uvarint entry.2.

Definition push_body (e : Event) : list byte :=
  let entries := map_to_list (offsets e) in
  uvarint (Z.of_nat (length entries)) ++ concat (map push_index entries) ++ Data e.

(** [e.push(buf)]: the bytes appended to [buf]. *)
Definition push (e : Event) : list byte :=
  uvarint (Z.of_nat (length (push_body e))) ++ push_body e.

Fixpoint pull_indexes (count : nat) (bs : list byte)
  : option (list (string * Z) * list byte) :=
  match count with
  | O => Some ([], bs)
  | S count' =>
      '(len, bs1) ← read_uvarint bs;
      if Z.of_nat (length bs1) <? len then None
      else
        let name := String.string_of_list_byte (take (Z.to_nat len) bs1) in
        '(off, bs2) ← read_uvarint (drop (Z.to_nat len) bs1);
        '(entries, bs3) ← pull_indexes count' bs2;
        Some ((name, to_int64 off) :: entries, bs3)
  end.

Definition pull_body (bs : list byte) : option Event :=
  '(count, bs1) ← read_uvarint bs;
  (* every entry takes at least two bytes *)
  if Z.of_nat (length bs1) <? count then None
  else
    '(entries, data) ← pull_indexes (Z.to_nat count) bs1;
    Some (mkEvent data (list_to_map (reverse entries))).

(** [pullEvent(stream)]: the event at the position, [EOF] at the end of
    the file or at the sentinel, [CORRUPTED_EVENT] on a torn or malformed
    record. *)
Definition pullEvent (f : File) : (Event + error) * File :=
  match File_rest f with
  | [] => (inr EOF, f)
  | _ =>
      match read_uvarint (File_rest f) with
      | None => (inr CORRUPTED_EVENT, f)
      | Some (len, bs) =>
          if len =? 0 then (inr EOF, f)
          else if Z.of_nat (length bs) <? len then (inr CORRUPTED_EVENT, f)
          else
            match pull_body (take (Z.to_nat len) bs) with
            | None => (inr CORRUPTED_EVENT, f)
            | Some e =>
                (inl e,
                 mkFile (content f)
                        (Z.of_nat (length (content f)) - Z.of_nat (length bs) + len))
            end
      end
  end.

(** *** openStream *)

Record openStream : Type := mkOpenStream {
  stream : File;
  tails : gmap string Z;
  closed : bool;
  offset : Z;
  length : Z
}.

Definition with_stream (s : openStream) (f : File) : openStream :=
  mkOpenStream f (tails s) (closed s) (offset s) (length s).

(** A scanner is a Go closure: its captured variables are the state [St],
    and a call yields the new state and the boolean it returns. *)
Definition Scanner (St : Type) : Type := St -> Event -> St * bool.

(** [createOpenStream(stream)]; [MAGIC_HEADER] is a constant of the
    package that is not in the sources, taken as a parameter. *)
Definition createOpenStream (MAGIC_HEADER : list byte) (f : File)
  : openStream + error :=
  let '(_, err, f1) := File_Seek f 0 in
  match err with
  | Some e => inr e
  | None =>
      let '(offset, err, f2) := File_Write f1 MAGIC_HEADER in
      match err with
      | Some e => inr e
      | None => inl (mkOpenStream f2 ∅ false (to_int64 offset) 0)
      end
  end.

(** [New(path)] on a path where no file exists: the stream over the
    fresh, empty file. *)
Definition New (MAGIC_HEADER : list byte) : openStream + error :=
  createOpenStream MAGIC_HEADER (mkFile [] 0).

Definition Closed (s : openStream) : bool := closed s.

(** [s.tails[index]], 0 for a label without tail. *)
Definition tail_of (s : openStream) (index : string) : Z :=
  default 0 (tails s !! index).

(** [e.offsets[index]], 0 for a label the event does not carry. *)
Definition next_of (e : Event) (index : string) : Z :=
  default 0 (offsets e !! index).

(** [Write(data, indexes)]: the bytes written, the error, and the stream
    afterwards. *)
Definition Write (s : openStream) (data : list byte) (indexes : list string)
  : Z * option error * openStream :=
  if Closed s then (0, Some WRITING_TO_CLOSED_STREAM, s)
  else
    let '(_, err, f1) := File_Seek (stream s) (offset s) in
    match err with
    | Some e => (0, Some e, with_stream s f1)
    | None =>
        let offsets :=
          foldl (fun m index => <[index := tail_of s index]> m) ∅ indexes in
        let event := newEvent data offsets in
        let buf := push event in
        let '(written, err, f2) := File_Write f1 buf in
        match err with
        | Some e => (0, Some e, with_stream s f2)
        | None =>
            let tails' :=
              foldl (fun m index => <[index := offset s]> m) (tails s) indexes in
            (written, None,
             mkOpenStream f2 tails' (closed s)
                          (to_int64 (offset s + written))
                          (to_int64 (length s + 1)))
        end
    end.

(** The loop of [ScanIndex]: [for off > 0]. The value the scanner
    returns is dropped, as in the source. *)
Fixpoint ScanIndex_loop {St} (fuel : nat) (f : File) (index : string)
    (scanner : Scanner St) (st : St) (off : Z)
  : res (option error * St * File) :=
  if 0 <? off then
    match fuel with
    | O => OutOfFuel
    | S fuel' =>
        let '(_, _, f1) := File_Seek f off in
        match pullEvent f1 with
        | (inl event, f2) =>
            let '(st1, _) := scanner st event in
            ScanIndex_loop fuel' f2 index scanner st1 (next_of event index)
        | (inr e, f2) => Ret (Some e, st, f2)
        end
    end
  else Ret (None, st, f).

(** [ScanIndex(index, scanner)], the loop bounded by [fuel] rounds. *)
Definition ScanIndex {St} (fuel : nat) (s : openStream) (index : string)
    (scanner : Scanner St) (st : St)
  : res (option error * St * openStream) :=
  '(err, st1, f) ← ScanIndex_loop fuel (stream s) index scanner st (tail_of s index);
  Ret (err, st1, with_stream s f).

(** The loop of [Iterate]: [for err == nil]. *)
Fixpoint Iterate_loop {St} (fuel : nat) (f : File) (scanner : Scanner St) (st : St)
  : res (option error * St * File) :=
  match fuel with
  | O => OutOfFuel
  | S fuel' =>
      match pullEvent f with
      | (inl event, f1) =>
          let '(st1, _) := scanner st event in
          Iterate_loop fuel' f1 scanner st1
      | (inr EOF, f1) => Ret (None, st, f1)
      | (inr e, f1) => Ret (Some e, st, f1)
      end
  end.

(** [Iterate(scanner)]. *)
Definition Iterate {St} (MAGIC_HEADER : list byte) (fuel : nat) (s : openStream)
    (scanner : Scanner St) (st : St)
  : res (option error * St * openStream) :=
  let '(_, _, f) := File_Seek (stream s) (Z.of_nat (List.length MAGIC_HEADER)) in
  '(err, st1, f1) ← Iterate_loop fuel f scanner st;
  Ret (err, st1, with_stream s f1).

(** A scanner wrapped so that it also records the events it is given,
    latest first. *)
Definition recording {St} (scanner : Scanner St) : Scanner (St * list Event) :=
  fun st event =>
    let '(st1, continue) := scanner st.1 event in
    ((st1, event :: st.2), continue).

(** The scanner with the same effect that never asks to stop. *)
Definition never_stopping {St} (scanner : Scanner St) : Scanner St :=
  fun st event => ((scanner st event).1, true).

(** The events [evs] are a whole back-pointer chain of [index] from the
    offset [off]: every hop starts at a positive offset and leads to a
    strictly smaller one, and the chain ends at an offset that is not
    positive. *)
Fixpoint chain_decreasing (index : string) (off : Z) (evs : list Event) : Prop :=
  match evs with
  | [] => off <= 0
  | e :: evs' =>
      0 < off /\ next_of e index < off
      /\ chain_decreasing index (next_of e index) evs'
  end.

(** The events [evs] are what following the chain of [index] from the
    offset [off] meets: every hop starts at a positive offset, and after
    the last event the offset is not positive. *)
Fixpoint chain_whole (index : string) (off : Z) (evs : list Event) : Prop :=
  match evs with
  | [] => off <= 0
  | e :: evs' => 0 < off /\ chain_whole index (next_of e index) evs'
  end.

(** The scanner's state after it was given the events [evs] in order. *)
Definition deliver {St} (scanner : Scanner St) (st : St) (evs : list Event) : St :=
  foldl (fun st e => (scanner st e).1) st evs.

(** Streams built by [New] and a sequence of [Write] calls. *)
Inductive built (MAGIC_HEADER : list byte) : openStream -> Prop :=
| built_New s :
    New MAGIC_HEADER = inl s -> built MAGIC_HEADER s
| built_Write s data indexes r s' :
    built MAGIC_HEADER s ->
    Write s data indexes = (r, s') ->
    built MAGIC_HEADER s'.

(** A small stream: two events, "a" under the index u:1 and "b" under the
    indexes u:1 and t:x, and a scanner that asks to stop at once. *)
Definition example_header : list byte := ["E"; "S"; "D"; "B"]%byte.

Definition example_stream0 : openStream :=
  mkOpenStream (mkFile example_header 4) ∅ false 4 0.

Definition example_stream1 : openStream :=
  (Write example_stream0 ["a"]%byte ["u:1"%string]).2.

Definition example_stream2 : openStream :=
  (Write example_stream1 ["b"]%byte ["u:1"%string; "t:x"%string]).2.

Definition stop_now : Scanner unit := fun st _ => (st, false).

(** *** Reopening a file (newOpenStream and scan) *)

(** Equality of two byte strings, as [string(a) != string(b)] tests it. *)
Fixpoint bytes_eqb (a b : list byte) : bool :=
  match a, b with
  | [], [] => true
  | x :: a', y :: b' => Byte.eqb x y && bytes_eqb a' b'
  | _, _ => false
  end.

(** Modelled from the spec: [Event.length] is not in the sources. "the
    logical byte length (length-prefix-width + length)": the number of
    bytes [push] wrote. *)
Definition Event_length (e : Event) : Z := Z.of_nat (List.length (push e)).

(** The loop of [scan]: [for event, err = pullEvent(stream); err == nil;
    ...]. The tail of every index the event carries becomes the event's
    offset. Every round consumes at least one byte of the file. *)
Fixpoint scan_loop (fuel : nat) (f : File) (tails : gmap string Z)
    (offset length : Z)
  : res (gmap string Z * Z * Z * error * File) :=
  match fuel with
  | O => OutOfFuel
  | S fuel' =>
      match pullEvent f with
      | (inl event, f1) =>
          scan_loop fuel' f1
                    (((fun _ => offset) <$> offsets event) ∪ tails)
                    (to_int64 (offset + Event_length event))
                    (to_int64 (length + 1))
      | (inr e, f1) => Ret (tails, offset, length, e, f1)
      end
  end.

(** Modelled from the spec: [binary.ReadBytes] is not in the sources.
    "read and verify the magic header": the next [n] bytes of the file,
    fewer at its end, and the file with the position behind them. *)
Definition ReadBytes (f : File) (n : Z) : list byte * File :=
  let bs := take (Z.to_nat n) (File_rest f) in
  (bs, mkFile (content f) (pos f + Z.of_nat (List.length bs))).

(** [scan(stream)]: the tails, the offset, the length and the error. *)
Definition scan (MAGIC_HEADER : list byte) (f : File)
  : res (gmap string Z * Z * Z * option error * File) :=
  let '(header, f1) := ReadBytes f (Z.of_nat (List.length MAGIC_HEADER)) in
  if negb (bytes_eqb header MAGIC_HEADER)
  then Ret (∅, 0, 0, Some CORRUPTED_HEADER, f1)
  else
    '(tails, offset, length, e, f2) ←
      scan_loop (S (List.length (content f))) f1 ∅
                (to_int64 (0 + Z.of_nat (List.length header))) 0;
    Ret (tails, offset, length,
         match e with
         | EOF | CORRUPTED_EVENT => None
         | _ => Some e
         end, f2).

(** [newOpenStream(stream)]: the stream is returned with the error. *)
Definition newOpenStream (MAGIC_HEADER : list byte) (f : File)
  : res (option openStream * option error) :=
  let '(_, err, f1) := File_Seek f 0 in
  match err with
  | Some e => Ret (None, Some e)
  | None =>
      '(tails, offset, length, err, f2) ← scan MAGIC_HEADER f1;
      Ret (Some (mkOpenStream f2 tails false offset length), err)
  end.

(** A sequence of [Write] calls, each with its data and its index
    labels; nothing when one of them fails. *)
Fixpoint write_all (s : openStream) (ws : list (list byte * list string))
  : option openStream :=
  match ws with
  | [] => Some s
  | (data, indexes) :: ws' =>
      match Write s data indexes with
      | (_, None, s') => write_all s' ws'
      | (_, Some _, _) => None
      end
  end.

(** The writes that carried [index], newest first. *)
Definition carrying (index : string) (ws : list (list byte * list string))
  : list (list byte * list string) :=
  reverse (filter (fun w => index ∈ w.2) ws).

End Stream.

(** * Package cluster: the stream manager (the DB type) *)

Module Cluster.

Inductive error : Type :=
| NoSuchFile                    (* "no such file or directory" *)
| FileExists
| RecoveryFailed
| StreamError (e : Stream.error).

(** ** strconv and fmt *)

(** [fmt.Sprint] of a [uint64] and of an [int64]. *)
Definition Sprint_uint64 (n : N) : string :=
  NilZero.string_of_uint (N.to_uint n).

Definition Sprint_int64 (z : Z) : string :=
  NilZero.string_of_int (Z.to_int z).

(** [strconv.ParseUint(s, 10, 64)] with the error dropped: 0 on a syntax
    error, the largest value on a range error. *)
Definition ParseUint (s : string) : N :=
  match s with
  | EmptyString => 0%N
  | _ =>
      match NilEmpty.uint_of_string s with
      | None => 0%N
      | Some d =>
          let n := N.of_uint d in
          if (Z.to_N MaxUint64 <? n)%N then Z.to_N MaxUint64 else n
      end
  end.

Definition parse_digits (s : string) : option Z :=
  match s with
  | EmptyString => None
  | _ => (fun d => Z.of_N (N.of_uint d)) <$> NilEmpty.uint_of_string s
  end.

(** [strconv.ParseInt(s, 10, 64)] with the error dropped. *)
Definition ParseInt (s : string) : Z :=
  match s with
  | EmptyString => 0
  | String c rest =>
      if Ascii.eqb c "-"%char then
        match parse_digits rest with
        | None => 0
        | Some n => if 2 ^ 63 <? n then - 2 ^ 63 else - n
        end
      else
        match parse_digits (if Ascii.eqb c "+"%char then rest else s) with
        | None => 0
        | Some n => if MaxInt64 <? n then MaxInt64 else n
        end
  end.

(** [strings.SplitN(s, ":", 2)]: the text before the first colon and the
    text after it, or nothing when there is no colon. *)
Fixpoint split_colon (s : string) : option (string * string) :=
  match s with
  | EmptyString => None
  | String c rest =>
      if Ascii.eqb c ":"%char then Some (EmptyString, rest)
      else '(a, b) ← split_colon rest; Some (String c a, b)
  end.

(** [buildContinuation]. *)
Definition buildContinuation (commit : N) (offset : Z) : string :=
  if (0 <? commit)%N
  then Sprint_uint64 commit +:+ ":" +:+ Sprint_int64 offset
  else "".

(** ** The stream package as the DB uses it

    Modelled from the spec: the DB calls a later version of package
    stream than the one in the sources ([Write] with an index map,
    [ScanIndex] and [Iterate] with a start offset and a scanner that can
    stop them, [First], [Offset], [Event.Next], [Serialize]). The file
    layout and the tails are those of [Stream.openStream]; a closed
    stream keeps its tails (in the file they are the trailing table). *)

(** Modelled from the spec: "MAGIC_HEADER ("esdb\0stream" or equivalent
    fixed string)". *)
Definition MAGIC_HEADER : list byte :=
  ["e"; "s"; "d"; "b"; "000"; "s"; "t"; "r"; "e"; "a"; "m"]%byte.

(** "the core treats it as an opaque label": name and value joined by a
    colon. *)
Definition label (name value : string) : string := name +:+ ":" +:+ value.

Definition labels (indexes : gmap string string) : list string :=
  (fun entry => label entry.1 entry.2) <$> map_to_list indexes.

(** [e.Next(name, value)]. *)
Definition Next (e : Stream.Event) (name value : string) : Z :=
  Stream.next_of e (label name value).

(** [s.Write(body, indexes)]. *)
Definition Stream_Write (s : Stream.openStream) (body : list byte)
    (indexes : gmap string string)
  : Z * option Stream.error * Stream.openStream :=
  Stream.Write s body (labels indexes).

(** [stream.Serialize(body, indexes, offsets)] with no offsets: the bytes
    of the event as [Write] would store it in an empty stream. *)
Definition Serialize (body : list byte) (indexes : gmap string string)
  : list byte :=
  Stream.push (Stream.newEvent body
    (foldl (fun m index => <[index := 0]> m) ∅ (labels indexes))).

(** [s.Close()]: "write the 32-bit zero sentinel ... mark the file
    closed". The trailing table and the footer are not modelled; the
    tails stay in the record. *)
Definition Stream_Close (s : Stream.openStream)
  : option Stream.error * Stream.openStream :=
  if Stream.closed s then (None, s)
  else
    let '(_, err, f1) := Stream.File_Seek (Stream.stream s) (Stream.offset s) in
    match err with
    | Some e => (Some e, Stream.with_stream s f1)
    | None =>
        let '(_, err, f2) := Stream.File_Write f1 (le_encode 4 0) in
        match err with
        | Some e => (Some e, Stream.with_stream s f2)
        | None =>
            (None,
             Stream.mkOpenStream f2 (Stream.tails s) true
                                 (Stream.offset s) (Stream.length s))
        end
    end.

(** [s.First(name, value)]: "the tail (most recent) offset for an index
    label". *)
Definition Stream_First (s : Stream.openStream) (name value : string)
  : Z * option Stream.error :=
  (Stream.tail_of s (label name value), None).


(** The loop of [s.ScanIndex(name, value, offset, scanner)]: "While
    offset > 0: read the event at offset, pass it to the scanner. The
    event carries its own back-pointer; that becomes the next offset.
    Stop when the scanner returns stop or when offset reaches 0." *)
Fixpoint Stream_ScanIndex_loop {St} (fuel : nat) (f : Stream.File) (index : string)
    (scanner : Stream.Scanner St) (st : St) (off : Z)
  : res (option Stream.error * St * Stream.File) :=
  if 0 <? off then
    match fuel with
    | O => OutOfFuel
    | S fuel' =>
        let '(_, _, f1) := Stream.File_Seek f off in
        match Stream.pullEvent f1 with
        | (inl event, f2) =>
            let '(st1, continue) := scanner st event in
            if continue
            then Stream_ScanIndex_loop fuel' f2 index scanner st1
                                       (Stream.next_of event index)
            else Ret (None, st1, f2)
        | (inr e, f2) => Ret (Some e, st, f2)
        end
    end
  else Ret (None, st, f).

(** "If from_offset == 0: if the file is open, start at the tail; if
    closed, load the tail from the footer." *)
Definition Stream_ScanIndex {St} (fuel : nat) (s : Stream.openStream)
    (name value : string) (offset : Z) (scanner : Stream.Scanner St) (st : St)
  : res (option Stream.error * St * Stream.openStream) :=
  let start :=
    if offset =? 0 then Stream.tail_of s (label name value) else offset in
  '(err, st1, f) ←
    Stream_ScanIndex_loop fuel (Stream.stream s) (label name value) scanner st start;
  Ret (err, st1, Stream.with_stream s f).

(** The loop of [s.Iterate(offset, scanner)]: "if the scanner returns
    stop, halt and return ... the offset immediately past it. If decode
    yields the sentinel or EOF, return offset 0 to signal file
    exhausted." *)
Fixpoint Stream_Iterate_loop {St} (fuel : nat) (f : Stream.File)
    (scanner : Stream.Scanner St) (st : St)
  : res (Z * option Stream.error * St * Stream.File) :=
  match fuel with
  | O => OutOfFuel
  | S fuel' =>
      match Stream.pullEvent f with
      | (inl event, f1) =>
          let '(st1, continue) := scanner st event in
          if continue then Stream_Iterate_loop fuel' f1 scanner st1
          else Ret (Stream.pos f1, None, st1, f1)
      | (inr Stream.EOF, f1) => Ret (0, None, st, f1)
      | (inr e, f1) => Ret (0, Some e, st, f1)
      end
  end.

(** "Iteration starts at the caller's offset (or at the magic-header
    length for a fresh read)." Every round that does not return consumes
    at least one byte of the file, so its size bounds the rounds. *)
Definition Stream_Iterate {St} (s : Stream.openStream) (offset : Z)
    (scanner : Stream.Scanner St) (st : St)
  : res (Z * option Stream.error * St * Stream.openStream) :=
  let start := if offset =? 0 then Z.of_nat (length MAGIC_HEADER) else offset in
  let '(_, _, f) := Stream.File_Seek (Stream.stream s) start in
  '(next, err, st1, f1) ←
    Stream_Iterate_loop (S (length (Stream.content f))) f scanner st;
  Ret (next, err, st1, Stream.with_stream s f1).

(** ** The DB

    A [stream.Stream] value is a handle on a file. Handles are inode
    numbers: [inodes] gives the stream behind each, [files] the inode of
    events.<commit>.stream and [tmpfiles] that of events.<commit>.tmpstream
    in the directory, so that a stream closed through one handle is seen
    closed through the path. [peers] is what [RecoverStream] can fetch,
    [snapshots] the requests [TakeSnapshotFrom(index, term)] sent to the
    consensus layer. The timers are [NilTimer] and run their argument. *)

Definition handle : Type := nat.

Record DB : Type := mkDB {
  closed : list N;
  current : N;
  MostRecent : Z;
  RotateThreshold : Z;
  SnapshotBuffer : N;
  stream : option handle;
  streams : gmap N (option handle);
  mockoffset : Z;
  inodes : gmap nat Stream.openStream;
  files : gmap N handle;
  tmpfiles : gmap N handle;
  peers : gmap N Stream.openStream;
  snapshots : list (N * N)
}.

Definition DEFAULT_ROTATE_THRESHOLD : Z := 536870912.
Definition DEFAULT_SNAPSHOT_BUFFER : N := 500.

Definition set_closed (db : DB) (v : list N) : DB :=
  mkDB v (current db) (MostRecent db) (RotateThreshold db) (SnapshotBuffer db)
       (stream db) (streams db) (mockoffset db) (inodes db) (files db)
       (tmpfiles db) (peers db) (snapshots db).

Definition set_current (db : DB) (v : N) : DB :=
  mkDB (closed db) v (MostRecent db) (RotateThreshold db) (SnapshotBuffer db)
       (stream db) (streams db) (mockoffset db) (inodes db) (files db)
       (tmpfiles db) (peers db) (snapshots db).

Definition set_MostRecent (db : DB) (v : Z) : DB :=
  mkDB (closed db) (current db) v (RotateThreshold db) (SnapshotBuffer db)
       (stream db) (streams db) (mockoffset db) (inodes db) (files db)
       (tmpfiles db) (peers db) (snapshots db).

Definition set_stream (db : DB) (v : option handle) : DB :=
  mkDB (closed db) (current db) (MostRecent db) (RotateThreshold db)
       (SnapshotBuffer db) v (streams db) (mockoffset db) (inodes db)
       (files db) (tmpfiles db) (peers db) (snapshots db).

Definition set_streams (db : DB) (v : gmap N (option handle)) : DB :=
  mkDB (closed db) (current db) (MostRecent db) (RotateThreshold db)
       (SnapshotBuffer db) (stream db) v (mockoffset db) (inodes db)
       (files db) (tmpfiles db) (peers db) (snapshots db).

Definition set_mockoffset (db : DB) (v : Z) : DB :=
  mkDB (closed db) (current db) (MostRecent db) (RotateThreshold db)
       (SnapshotBuffer db) (stream db) (streams db) v (inodes db)
       (files db) (tmpfiles db) (peers db) (snapshots db).

Definition set_inodes (db : DB) (v : gmap nat Stream.openStream) : DB :=
  mkDB (closed db) (current db) (MostRecent db) (RotateThreshold db)
       (SnapshotBuffer db) (stream db) (streams db) (mockoffset db) v
       (files db) (tmpfiles db) (peers db) (snapshots db).

Definition set_files (db : DB) (v : gmap N handle) : DB :=
  mkDB (closed db) (current db) (MostRecent db) (RotateThreshold db)
       (SnapshotBuffer db) (stream db) (streams db) (mockoffset db) (inodes db)
       v (tmpfiles db) (peers db) (snapshots db).

Definition set_tmpfiles (db : DB) (v : gmap N handle) : DB :=
  mkDB (closed db) (current db) (MostRecent db) (RotateThreshold db)
       (SnapshotBuffer db) (stream db) (streams db) (mockoffset db) (inodes db)
       (files db) v (peers db) (snapshots db).

Definition set_snapshots (db : DB) (v : list (N * N)) : DB :=
  mkDB (closed db) (current db) (MostRecent db) (RotateThreshold db)
       (SnapshotBuffer db) (stream db) (streams db) (mockoffset db) (inodes db)
       (files db) (tmpfiles db) (peers db) v.

(** A handle that no file or handle uses yet. *)
Definition new_handle (db : DB) : handle := fresh (dom (inodes db)).

(** The stream behind a handle; a handle without one does not occur in
    Go, and its use is a panic here. *)
Definition deref (db : DB) (h : handle) : res Stream.openStream :=
  match inodes db !! h with
  | Some s => Ret s
  | None => Panic
  end.

Definition store (db : DB) (h : handle) (s : Stream.openStream) : DB :=
  set_inodes db (<[h := s]> (inodes db)).

(** [os.Remove(db.path(commit))]; the caller tolerates a missing file. *)
Definition Remove (db : DB) (commit : N) : DB :=
  set_files db (delete commit (files db)).

(** [stream.New(db.path(commit))]: the file must not exist. *)
Definition stream_New (db : DB) (commit : N) : (handle + error) * DB :=
  match files db !! commit with
  | Some _ => (inr FileExists, db)
  | None =>
      match Stream.New MAGIC_HEADER with
      | inl s =>
          let h := new_handle db in
          (inl h, set_files (store db h s) (<[commit := h]> (files db)))
      | inr e => (inr (StreamError e), db)
      end
  end.

(** [stream.Open(db.path(commit))]. *)
Definition stream_Open (db : DB) (commit : N) : handle + error :=
  match files db !! commit with
  | Some h => inl h
  | None => inr NoSuchFile
  end.

(** [RecoverStream(db.raft, db.dir, name)]: the collaborator fetches the
    file from a peer, puts it in the directory and opens it. *)
Definition RecoverStream (db : DB) (commit : N) : (handle + error) * DB :=
  match peers db !! commit with
  | Some s =>
      let h := new_handle db in
      (inl h, set_files (store db h s) (<[commit := h]> (files db)))
  | None => (inr RecoveryFailed, db)
  end.

(** [s.Closed()] through a handle. *)
Definition handle_Closed (db : DB) (h : handle) : res bool :=
  s ← deref db h; Ret (Stream.Closed s).

(** [db.streams[commit]], nil when absent. *)
Definition cached (db : DB) (commit : N) : option handle :=
  default None (streams db !! commit).

(** [addClosed]. *)
Definition addClosed (db : DB) (commit : N) : DB :=
  if existsb (N.eqb commit) (closed db) then db
  else set_closed db (closed db ++ [commit]).

(** [setCurrent]. *)
Definition setCurrent (db : DB) (commit : N) : res DB :=
  let db := set_mockoffset (set_current db commit) 10 in
  let db := Remove db commit in
  match stream_New db commit with
  | (inl h, db) => Ret (set_stream db (Some h))
  | (inr _, _) => Fatal
  end.

(** [snapshot]: the request leaves for the consensus layer. *)
Definition snapshot (db : DB) (index term : N) : DB :=
  let index :=
    if (SnapshotBuffer db <? index)%N then (index - SnapshotBuffer db)%N
    else 0%N in
  set_snapshots db (snapshots db ++ [(index, term)]).

(** [prev]. *)
Definition prev (db : DB) (commit : N) : N :=
  foldl (fun result c =>
           if (c <? commit)%N && (result <? c)%N then c else result)
        0%N (closed db).

(** [next]. *)
Definition next (db : DB) (commit : N) : N :=
  let result :=
    foldl (fun result c =>
             if (commit <? c)%N && (c <? result)%N then c else result)
          (Z.to_N MaxUint64) (closed db) in
  let result :=
    if (commit <? current db)%N && (current db <? result)%N
    then current db else result in
  if (result =? Z.to_N MaxUint64)%N then 0%N else result.

(** [retrieveStream]. *)
Definition retrieveStream (db : DB) (commit : N) (fetchMissing : bool)
  : res (option handle * option error * DB) :=
  if (current db =? commit)%N && bool_decide (is_Some (stream db))
  then Ret (stream db, None, db)
  else
    match cached db commit with
    | Some h => Ret (Some h, None, db)
    | None =>
        let '(s, err) :=
          match stream_Open db commit with
          | inl h => (Some h, None)
          | inr e => (None, Some e)
          end in
        let missing :=
          match err with Some NoSuchFile => true | _ => false end in
        '(s, missing) ←
          (match s with
           | Some h =>
               c ← handle_Closed db h;
               Ret (if c : bool then (s, missing) else (None, true))
           | None => Ret (None, missing)
           end : res (option handle * bool));
        let '(s, err, db) :=
          if missing && fetchMissing then
            match RecoverStream db commit with
            | (inl h, db) => (Some h, None, db)
            | (inr e, db) => (None, Some e, db)
            end
          else (s, err, db) in
        match err with
        | None =>
            let db := set_streams db (<[commit := s]> (streams db)) in
            Ret (cached db commit, None, db)
        | Some e => Ret (None, Some e, db)
        end
    end.

(** [forgetStream]. *)
Definition forgetStream (db : DB) (commit : N) : DB :=
  set_streams db (delete commit (streams db)).


(** [Write]. *)
Definition Write (db : DB) (commit : N) (body : list byte)
    (indexes : gmap string string) (timestamp : Z) : res (option error * DB) :=
  if (commit <=? current db)%N then Ret (None, db)
  else
    match stream db with
    | None =>
        let bytes := Serialize body indexes in
        Ret (None, set_mockoffset db
                     (to_int64 (mockoffset db + Z.of_nat (length bytes))))
    | Some h =>
        s ← deref db h;
        let '(_, err, s1) := Stream_Write s body indexes in
        match err with
        | Some _ => Fatal
        | None =>
            let db := store db h s1 in
            Ret (None,
                 if MostRecent db <? timestamp
                 then set_MostRecent db timestamp else db)
        end
    end.

(** [Rotate]. *)
Definition Rotate (db : DB) (commit term : N) : res (option error * DB) :=
  '(s, err, db) ← retrieveStream db commit false;
  match err with
  | Some NoSuchFile | None =>
      is_closed ←
        (match s with
         | Some h => handle_Closed db h
         | None => Ret false
         end : res bool);
      if (is_closed : bool) then
        let db := addClosed db commit in
        let db := set_stream db None in
        let db := set_mockoffset db 10 in
        Ret (None, set_current db commit)
      else
        db ←
          (match stream db with
           | Some h =>
               s0 ← deref db h;
               let '(err, s1) := Stream_Close s0 in
               match err with
               | Some _ => Fatal
               | None =>
                   let db := store db h s1 in
                   let db := addClosed db (current db) in
                   Ret (snapshot db commit term)
               end
           | None => Ret db
           end : res DB);
        db ← setCurrent db commit;
        Ret (None, db)
  | Some _ => Fatal
  end.

(** [NewDb(path)], on a directory and a set of peers. *)
Definition NewDb (inodes : gmap nat Stream.openStream)
    (files tmpfiles : gmap N handle) (peers : gmap N Stream.openStream)
  : res DB :=
  let db := mkDB [] 0 0 DEFAULT_ROTATE_THRESHOLD DEFAULT_SNAPSHOT_BUFFER
                 None ∅ 0 inodes files tmpfiles peers [] in
  '(_, db) ← Rotate db 1 0; Ret db.

(** [Continuation]. *)
Definition Continuation (db : DB) (name value : string) : res string :=
  let fallback := buildContinuation (prev db (Z.to_N MaxUint64)) 0 in
  match stream db with
  | Some h =>
      s ← deref db h;
      let '(offset, err) := Stream_First s name value in
      if bool_decide (err = None) && (0 <? offset)
      then Ret (buildContinuation (current db) offset)
      else Ret fallback
  | None => Ret fallback
  end.

(** [parseContinuation]. *)
Definition parseContinuation (db : DB) (continuation : string) (reverse : bool)
  : N * Z :=
  let commit :=
    match closed db with
    | c :: _ => if reverse then current db else c
    | [] => current db
    end in
  match continuation with
  | EmptyString => (commit, 0)
  | _ =>
      match split_colon continuation with
      | Some (a, b) => (ParseUint a, ParseInt b)
      | None => (commit, 0)
      end
  end.

(** The closure [Scan] hands to [ScanIndex]: its captured variables are
    [offset], [stopped] and the state of the caller's scanner. *)
Definition Scan_callback {St} (name value : string) (scanner : Stream.Scanner St)
  : Stream.Scanner (Z * bool * St) :=
  fun '(_, _, st) e =>
    let offset := Next e name value in
    let '(st1, continue) := scanner st e in
    ((offset, negb continue, st1), continue).

(** The loop of [Scan]: [for !stopped && commit > 0]. *)
Fixpoint Scan_loop {St} (fuel : nat) (db : DB) (name value : string)
    (scanner : Stream.Scanner St) (st : St) (stopped : bool) (commit : N)
    (offset : Z)
  : res (option error * bool * N * Z * St * DB) :=
  if negb stopped && (0 <? commit)%N then
    match fuel with
    | O => OutOfFuel
    | S fuel' =>
        '(s, err, db) ← retrieveStream db commit true;
        match err, s with
        | Some e, _ => Ret (Some e, stopped, commit, offset, st, db)
        | None, None => Panic
        | None, Some h =>
            s0 ← deref db h;
            '(err, (offset, stopped, st), s1) ←
              Stream_ScanIndex fuel s0 name value offset
                (Scan_callback name value scanner) (offset, stopped, st);
            let db := store db h s1 in
            match err with
            | Some e => Ret (Some (StreamError e), stopped, commit, offset, st, db)
            | None =>
                if negb stopped
                then Scan_loop fuel' db name value scanner st stopped
                               (prev db commit) 0
                else Scan_loop fuel' db name value scanner st stopped
                               commit offset
            end
        end
    end
  else Ret (None, stopped, commit, offset, st, db).

(** [Scan]: the cursor, the error, the state of the caller's scanner and
    the DB afterwards. *)
Definition Scan {St} (fuel : nat) (db : DB) (name value continuation : string)
    (scanner : Stream.Scanner St) (st : St)
  : res (string * option error * St * DB) :=
  let '(commit, offset) := parseContinuation db continuation true in
  '(err, stopped, commit, offset, st, db) ←
    Scan_loop fuel db name value scanner st false commit offset;
  match err with
  | Some e => Ret (""%string, Some e, st, db)
  | None =>
      let commit :=
        if stopped && (offset =? 0) then prev db commit else commit in
      Ret (buildContinuation commit 0, None, st, db)
  end.

(** The closure [Iterate] hands to the stream. *)
Definition Iterate_callback {St} (scanner : Stream.Scanner St)
  : Stream.Scanner (bool * St) :=
  fun '(_, st) e =>
    let '(st1, continue) := scanner st e in
    ((negb continue, st1), continue).

(** The loop of [Iterate]. *)
Fixpoint Iterate_loop {St} (fuel : nat) (db : DB) (scanner : Stream.Scanner St)
    (st : St) (stopped : bool) (commit : N) (offset : Z)
  : res (option error * bool * N * Z * St * DB) :=
  if negb stopped && (0 <? commit)%N then
    match fuel with
    | O => OutOfFuel
    | S fuel' =>
        '(s, err, db) ← retrieveStream db commit true;
        match err, s with
        | Some e, _ => Ret (Some e, stopped, commit, offset, st, db)
        | None, None => Panic
        | None, Some h =>
            s0 ← deref db h;
            '(offset, err, (stopped, st), s1) ←
              Stream_Iterate s0 offset (Iterate_callback scanner) (stopped, st);
            let db := store db h s1 in
            match err with
            | Some e => Ret (Some (StreamError e), stopped, commit, offset, st, db)
            | None =>
                if negb stopped
                then Iterate_loop fuel' db scanner st stopped (next db commit) 0
                else Iterate_loop fuel' db scanner st stopped commit offset
            end
        end
    end
  else Ret (None, stopped, commit, offset, st, db).

(** [Iterate]. *)
Definition Iterate {St} (fuel : nat) (db : DB) (continuation : string)
    (scanner : Stream.Scanner St) (st : St)
  : res (string * option error * St * DB) :=
  let '(commit, offset) := parseContinuation db continuation false in
  '(err, stopped, commit, offset, st, db) ←
    Iterate_loop fuel db scanner st false commit offset;
  match err with
  | Some e => Ret (""%string, Some e, st, db)
  | None => Ret (buildContinuation commit offset, None, st, db)
  end.

(** [Compress]. *)
Definition Compress (db : DB) (start stop : N) : DB :=
  let keep c := (c <=? start)%N || (stop <? c)%N in
  let newclosed := filter (fun c => keep c = true) (closed db) in
  let db :=
    foldl (fun db c => if keep c then db else forgetStream db c) db (closed db) in
  let db := forgetStream db start in
  let db :=
    match tmpfiles db !! start with
    | Some h =>
        set_tmpfiles (set_files db (<[start := h]> (files db)))
                     (delete start (tmpfiles db))
    | None => db
    end in
  set_closed db newclosed.

(** Modelled from the spec: the helpers of package binary are not in the
    sources. "Snapshot blob: int64 current | int64 mostRecent | uvarint n
    | n x int64 closed-commit", little-endian. A value cut short by the
    end of the buffer reads as 0. *)
Definition WriteInt64 (x : Z) : list byte := le_encode 8 (to_uint64 x).

Definition ReadInt64 (buf : list byte) : Z * list byte :=
  if (length buf <? 8)%nat then (0, [])
  else (to_int64 (le_decode (take 8 buf)), drop 8 buf).

Definition ReadUvarint (buf : list byte) : Z * list byte :=
  match Stream.read_uvarint buf with
  | Some (v, rest) => (v, rest)
  | None => (0, [])
  end.

(** [Save]. *)
Definition Save (db : DB) : list byte :=
  WriteInt64 (Z.of_N (current db)) ++ WriteInt64 (MostRecent db)
    ++ Stream.uvarint (Z.of_nat (length (closed db)))
    ++ concat (map (fun commit => WriteInt64 (Z.of_N commit)) (closed db)).

(** The loop of [Recovery]: [for i := 0; i < count; i++]. *)
Fixpoint Recovery_loop (count : nat) (db : DB) (buf : list byte) : DB :=
  match count with
  | O => db
  | S count' =>
      let '(commit, buf) := ReadInt64 buf in
      Recovery_loop count' (addClosed db (Z.to_N (to_uint64 commit))) buf
  end.

(** [Recovery]. *)
Definition Recovery (db : DB) (b : list byte) : res (option error * DB) :=
  let '(commit, buf) := ReadInt64 b in
  db ← setCurrent db (Z.to_N (to_uint64 commit));
  let '(recent, buf) := ReadInt64 buf in
  let db := set_MostRecent db recent in
  let '(count, buf) := ReadUvarint buf in
  Ret (None, Recovery_loop (Z.to_nat (to_int64 count)) db buf).

(** The scanner of the reader command's handler: [count += 1; events =
    append(events, e.Data); return count < limit]. *)
Definition collect_until (limit : nat) : Stream.Scanner (list (list byte)) :=
  fun events e =>
    (events ++ [Stream.Data e], (length events + 1 <? limit)%nat).

(** The scanner that collects every event. *)
Definition collect : Stream.Scanner (list (list byte)) :=
  fun events e => (events ++ [Stream.Data e], true).

(** The index map of an event carrying the single index [name]=[value]. *)
Definition index1 (name value : string) : gmap string string :=
  {[ name := value ]}.

(** Example states. [db_fresh] is [NewDb] on an empty directory;
    [db_three] holds the events "a", "b" and "c" under the index u=1 in
    the stream of commit 1; [db_rotated] is [db_fresh] after
    [Rotate(2, 0)]. *)
Definition db_zero : DB :=
  mkDB [] 0 0 DEFAULT_ROTATE_THRESHOLD DEFAULT_SNAPSHOT_BUFFER
       None ∅ 0 ∅ ∅ ∅ ∅ [].

Definition db_after (r : res (option error * DB)) : DB :=
  match r with
  | Ret (_, db) => db
  | _ => db_zero
  end.

Definition db_fresh : DB := db_after (Rotate db_zero 1 0).

Definition db_three : DB :=
  let db := db_after (Write db_fresh 2 ["a"]%byte (index1 "u" "1") 100) in
  let db := db_after (Write db 3 ["b"]%byte (index1 "u" "1") 200) in
  db_after (Write db 4 ["c"]%byte (index1 "u" "1") 150).

Definition db_rotated : DB := db_after (Rotate db_fresh 2 0).

(** A scanner that never asks to stop. *)
Definition never_stops {St} (scanner : Stream.Scanner St) : Prop :=
  forall st e, (scanner st e).2 = true.

(** Every handle the DB holds or the directory names has a stream
    behind it. *)
Definition handles_valid (db : DB) : Prop :=
  (forall h, stream db = Some h -> is_Some (inodes db !! h))
  /\ (forall c h, streams db !! c = Some (Some h) -> is_Some (inodes db !! h))
  /\ (forall c h, files db !! c = Some h -> is_Some (inodes db !! h)).

(** A snapshot as [Save] writes it, of a state whose commits are
    [uint64] values and whose closed commits all precede its current
    commit. *)
Definition snapshot_in_order (snap : DB) : Prop :=
  (current snap <= Z.to_N MaxUint64)%N
  /\ (forall c, c ∈ closed snap -> (c < current snap)%N)
  /\ Z.of_nat (length (closed snap)) <= MaxInt64.

(** The states the consensus layer drives the DB through when it starts
    from [NewDb] on an empty directory and applies its log in commit
    order: any write, any compression, a rotation to a commit above
    [current], and the recovery of a snapshot that is not behind
    [current]. *)
Inductive in_order : DB -> Prop :=
| in_order_NewDb peers db :
    NewDb ∅ ∅ ∅ peers = Ret db -> in_order db
| in_order_Write db commit body indexes timestamp err db' :
    in_order db ->
    Write db commit body indexes timestamp = Ret (err, db') ->
    in_order db'
| in_order_Rotate db commit term err db' :
    in_order db ->
    (current db < commit)%N ->
    Rotate db commit term = Ret (err, db') ->
    in_order db'
| in_order_Compress db start stop :
    in_order db -> in_order (Compress db start stop)
| in_order_Recovery db snap err db' :
    in_order db ->
    snapshot_in_order snap ->
    (current db <= current snap)%N ->
    Recovery db (Save snap) = Ret (err, db') ->
    in_order db'.

(** The current stream, when there is one, is open. *)
Definition stream_is_open (db : DB) : Prop :=
  forall h s,
    stream db = Some h -> inodes db !! h = Some s -> Stream.closed s = false.

End Cluster.

(** * Theorems *)

(** ** Machine integers and fixed-width encoding *)

Lemma to_int64_id x : - 2 ^ 63 <= x <= MaxInt64 -> to_int64 x = x.
Proof.
  unfold to_int64, MaxInt64. intros H.
  rewrite Z.mod_small by lia. lia.
Qed.

Lemma to_int64_range x : - 2 ^ 63 <= to_int64 x <= MaxInt64.
Proof.
  unfold to_int64, MaxInt64.
  pose proof (Z.mod_pos_bound (x + 2 ^ 63) (2 ^ 64) ltac:(lia)). lia.
Qed.

Lemma Z_of_byte_range b : 0 <= Z_of_byte b < 256.
Proof.
  unfold Z_of_byte. pose proof (Byte.to_N_bounded b). lia.
Qed.

Lemma Z_of_byte_of_Z n : Z_of_byte (byte_of_Z n) = n mod 256.
Proof.
  unfold byte_of_Z, Z_of_byte.
  pose proof (Z.mod_pos_bound n 256 ltac:(lia)) as Hb.
  destruct (Byte.of_N (Z.to_N (n mod 256))) as [b|] eqn:E.
  - apply Byte.to_of_N in E. rewrite E. lia.
  - apply Byte.of_N_None_iff in E. lia.
Qed.

Lemma length_le_encode w n : length (le_encode w n) = w.
Proof. revert n. induction w; intros; simpl; auto. Qed.

Lemma le_decode_encode w n :
  0 <= n < 256 ^ Z.of_nat w -> le_decode (le_encode w n) = n.
Proof.
  revert n. induction w as [|w IH]; intros n Hn.
  - simpl in *. lia.
  - cbn [le_encode le_decode]. rewrite Z_of_byte_of_Z.
    rewrite IH.
    + pose proof (Z.div_mod n 256 ltac:(lia)). lia.
    + rewrite Nat2Z.inj_succ, Z.pow_succ_r in Hn by lia.
      split; [apply Z.div_pos; lia | apply Z.div_lt_upper_bound; lia].
Qed.

(** ** The block reader *)

Module BlocksTheory.
Import Blocks.

Lemma headerLen_cases bs :
  headerLen bs = 2 \/ headerLen bs = 4 \/ headerLen bs = 8.
Proof.
  unfold headerLen. repeat case_match; auto.
Qed.

Lemma headerLen_pos bs : 0 < headerLen bs.
Proof. destruct (headerLen_cases bs) as [H|[H|H]]; rewrite H; lia. Qed.

(** A payload length that respects the block size fits the header. *)
Lemma header_fits bs n :
  0 <= n <= bs -> bs <= MaxInt64 ->
  0 <= n < 256 ^ Z.of_nat (Z.to_nat (headerLen bs)).
Proof.
  intros Hn Hbs. unfold headerLen, MaxUint16, MaxUint32, MaxInt64 in *.
  repeat case_match; try lia;
    match goal with
    | |- context [Z.to_nat ?k] => change (Z.of_nat (Z.to_nat k)) with k
    end; lia.
Qed.

Lemma length_header bs n : length (header bs n) = Z.to_nat (headerLen bs).
Proof. apply length_le_encode. Qed.

Lemma length_block bs (p : list byte) :
  0 <= bs -> Z.of_nat (length p) <= bs ->
  length (block bs p) = (Z.to_nat (headerLen bs) + Z.to_nat bs)%nat.
Proof.
  intros Hbs Hp. unfold block.
  rewrite !length_app, length_header, repeat_length. lia.
Qed.

Lemma parseHeader_header bs r (p : list byte) :
  blockSize r = bs ->
  Z.of_nat (length p) <= bs -> bs <= MaxInt64 ->
  parseHeader r (header bs (length p)) = Z.of_nat (length p).
Proof.
  intros Hsz Hp Hbs. unfold parseHeader. rewrite Hsz.
  rewrite take_ge by (rewrite length_header; lia).
  unfold header. rewrite le_decode_encode by (apply header_fits; lia).
  apply to_int64_id. unfold MaxInt64 in *. lia.
Qed.

(** The reader between two physical blocks: [buf] is buffered and unread,
    the underlying reader stands at the first block of [rest], and no
    stray bytes wait in [scratch] while blocks remain. *)
Definition at_boundary (bs : Z) (r : Reader) (buf : list byte)
    (rest : list (list byte)) : Prop :=
  blockSize r = bs /\ unread (buffer r) = buf /\
  (exists pre, reader r = mkBytesReader (pre ++ blocks bs rest) (length pre)) /\
  (rest <> [] -> unread (scratch r) = []).

Lemma make_nonneg n : 0 <= n -> make n = Ret (repeat x00 (Z.to_nat n)).
Proof. intros H. unfold make. destruct (Z.ltb_spec n 0); [lia|done]. Qed.

Lemma Buffer_Read_nonempty b n :
  unread b <> [] ->
  Buffer_Read b n = (take n (unread b), None, mkBuffer (drop n (unread b)) (allocated b)).
Proof. unfold Buffer_Read. destruct (unread b); done. Qed.

Lemma parse_block bs r (p : list byte) :
  0 < bs <= MaxInt64 - 8 ->
  blockSize r = bs ->
  Z.of_nat (length p) <= bs ->
  unread (scratch r) = block bs p ->
  exists sc, parse r = Ret (mkReader (Buffer_Write (buffer r) p) sc (reader r) bs)
             /\ unread sc = repeat x00 (Z.to_nat bs - length p).
Proof.
  intros Hbs Hsz Hp Hscr.
  pose proof (headerLen_pos bs) as Hhl.
  unfold parse. rewrite Hsz, make_nonneg by lia. cbn [mbind res_bind].
  rewrite repeat_length.
  rewrite Buffer_Read_nonempty.
  2:{ rewrite Hscr. intros E. apply (f_equal length) in E.
      rewrite length_block in E by lia. simpl in E. lia. }
  rewrite Hscr. unfold block at 1 2.
  rewrite take_app_length', drop_app_length' by (by rewrite length_header).
  unfold fill. rewrite length_header, drop_ge by (rewrite repeat_length; lia).
  rewrite app_nil_r.
  rewrite (parseHeader_header bs) by (unfold MaxInt64 in *; lia).
  rewrite make_nonneg by lia. cbn [mbind res_bind].
  rewrite repeat_length, Nat2Z.id.
  unfold Buffer_Read. cbn [unread allocated].
  destruct (p ++ repeat x00 (Z.to_nat bs - length p)) as [|b l] eqn:E.
  - apply app_eq_nil in E as [-> E]. cbn [length] in *.
    simpl. eexists. split; [reflexivity|]. cbn [unread]. done.
  - rewrite <- E. rewrite take_app_length, drop_app_length.
    eexists. split; [reflexivity|]. done.
Qed.
Lemma fetch_round bs r buf (p : list byte) rest f len :
  0 < bs <= MaxInt64 - 8 ->
  at_boundary bs r buf (p :: rest) ->
  Z.of_nat (length p) <= bs ->
  (rest <> [] -> Z.of_nat (length p) = bs) ->
  Z.of_nat (length buf) < len ->
  exists r2, fetch_loop (S f) r len = fetch_loop f r2 len
             /\ at_boundary bs r2 (buf ++ p) rest.
Proof.
  intros Hbs (Hsz & Hbuf & (pre & Hrd) & Hscr) Hp Hfull Hlen.
  specialize (Hscr ltac:(done)).
  pose proof (headerLen_pos bs) as Hhl.
  pose proof (headerLen_cases bs) as Hhc.
  cbn [fetch_loop]. unfold Buffer_Len. rewrite Hbuf.
  destruct (Z.ltb_spec (Z.of_nat (length buf)) len) as [_|]; [|lia].
  rewrite Hsz.
  rewrite to_int64_id by (unfold MaxInt64 in *; lia).
  rewrite make_nonneg by lia. cbn [mbind res_bind].
  rewrite repeat_length.
  assert (Hread : BytesReader_Read (reader r) (Z.to_nat (headerLen bs + bs))
          = (block bs p, None,
             mkBytesReader ((pre ++ block bs p) ++ blocks bs rest)
                           (length (pre ++ block bs p)))).
  { rewrite Hrd. unfold BytesReader_Read. cbn [s i].
    pose proof (length_block bs p ltac:(lia) Hp) as Hlb.
    unfold blocks. cbn [map concat]. fold (blocks bs rest).
    rewrite !length_app.
    destruct (Nat.leb_spec (length pre + (length (block bs p) + length (blocks bs rest))) (length pre)); [lia|].
    rewrite drop_app_length.
    replace (Z.to_nat (headerLen bs + bs)) with (length (block bs p)) by lia.
    rewrite take_app_length. rewrite <- app_assoc. reflexivity. }
  rewrite Hread.
  rewrite length_block by lia.
  destruct (Z.ltb_spec (headerLen bs)
              (Z.of_nat (Z.to_nat (headerLen bs) + Z.to_nat bs))) as [_|]; [|lia].
  edestruct (parse_block bs) as (sc & -> & Hsc); [exact Hbs| | exact Hp | |].
  - reflexivity.
  - cbn [scratch Buffer_Write unread]. rewrite Hscr. reflexivity.
  - cbn [mbind res_bind buffer reader]. eexists. split; [reflexivity|].
    unfold at_boundary. cbn [blockSize buffer scratch reader Buffer_Write unread].
    rewrite Hbuf. repeat split.
    + by exists (pre ++ block bs p).
    + intros Hne. rewrite Hsc. specialize (Hfull Hne).
      replace (Z.to_nat bs - length p)%nat with 0%nat by lia. done.
Qed.

(** [fetch] from a block boundary buffers whole payloads until enough
    bytes are buffered or the blocks run out. *)
Lemma fetch_loop_boundary bs len rest : forall fuel r buf,
  0 < bs <= MaxInt64 - 8 ->
  at_boundary bs r buf rest ->
  well_formed bs rest -> nonfinal_full bs rest ->
  (length rest < fuel)%nat ->
  exists e r2 j,
    fetch_loop fuel r len = Ret (e, r2)
    /\ at_boundary bs r2 (buf ++ concat (take j rest)) (drop j rest)
    /\ (drop j rest = [] \/ len <= Z.of_nat (length (buf ++ concat (take j rest)))).
Proof.
  induction rest as [|p rest IH]; intros fuel r buf Hbs Hat Hwf Hnf Hfuel.
  - destruct fuel as [|fuel]; [simpl in Hfuel; lia|].
    destruct Hat as (Hsz & Hbuf & (pre & Hrd) & Hscr).
    cbn [fetch_loop]. unfold Buffer_Len. rewrite Hbuf.
    destruct (Z.ltb_spec (Z.of_nat (length buf)) len) as [Hlt|Hge].
    + rewrite Hsz, to_int64_id
        by (pose proof (headerLen_cases bs); unfold MaxInt64 in *; lia).
      rewrite make_nonneg by (pose proof (headerLen_pos bs); lia).
      cbn [mbind res_bind]. rewrite Hrd. unfold BytesReader_Read. cbn [s i blocks map concat].
      rewrite app_nil_r. rewrite Nat.leb_refl. cbn [length].
      destruct (Z.ltb_spec (headerLen bs) (Z.of_nat 0)) as [Hc|_];
        [pose proof (headerLen_pos bs); lia|].
      cbn [mbind res_bind]. eexists _, _, 0%nat. split; [reflexivity|].
      cbn [take drop concat]. rewrite app_nil_r. split; [|by left].
      repeat split; cbn [blockSize buffer reader scratch]; try done.
      exists pre. by rewrite app_nil_r.
    + eexists _, _, 0%nat. split; [reflexivity|].
      cbn [take drop concat]. rewrite app_nil_r. split; [|by left].
      repeat split; try done. by exists pre.
  - destruct fuel as [|fuel]; [simpl in Hfuel; lia|].
    apply Forall_cons in Hwf as [Hp Hwf]. destruct Hnf as [Hfull Hnf].
    destruct (Z.ltb_spec (Z.of_nat (length buf)) len) as [Hlt|Hge].
    + destruct (fetch_round bs r buf p rest fuel len Hbs Hat Hp Hfull Hlt)
        as (r2 & -> & Hat2).
      destruct (IH fuel r2 (buf ++ p) Hbs Hat2 Hwf Hnf ltac:(simpl in Hfuel; lia))
        as (e & r3 & j & Hf & Hat3 & Hdone).
      exists e, r3, (S j). cbn [take drop concat].
      rewrite app_assoc. done.
    + exists None, r, 0%nat. cbn [take drop concat]. rewrite app_nil_r.
      split; [|split; [done|by right]].
      cbn [fetch_loop]. unfold Buffer_Len.
      destruct Hat as (Hsz & Hbuf & _). rewrite Hbuf.
      destruct (Z.ltb_spec (Z.of_nat (length buf)) len); [lia|done].
Qed.

Lemma length_blocks_ge bs (ps : list (list byte)) :
  0 <= bs -> well_formed bs ps ->
  (length ps <= length (blocks bs ps))%nat
  /\ (length (concat ps) <= length (blocks bs ps))%nat.
Proof.
  intros Hbs. induction 1 as [|p ps Hp Hwf IH]; [simpl; lia|].
  unfold blocks in *. cbn [map concat]. rewrite !length_app.
  pose proof (length_block bs p Hbs Hp). pose proof (headerLen_pos bs).
  cbn [length]. lia.
Qed.

(** One [Read] from a block boundary. *)
Lemma Read_boundary bs n r buf rest :
  0 < bs <= MaxInt64 - 8 -> (0 < n)%nat ->
  at_boundary bs r buf rest ->
  well_formed bs rest -> nonfinal_full bs rest ->
  exists err r2 j,
    let buf' := buf ++ concat (take j rest) in
    Read r n = Ret (take n buf', err, r2)
    /\ at_boundary bs r2 (drop n buf') (drop j rest)
    /\ (buf' = [] -> drop j rest = [] /\ err = Some EOF)
    /\ (buf' <> [] -> err = None).
Proof.
  intros Hbs Hn Hat Hwf Hnf.
  destruct (fetch_loop_boundary bs (Z.of_nat n) rest (fetch_fuel r) r buf Hbs Hat Hwf Hnf)
    as (e & r2 & j & Hf & Hat2 & Hdone).
  { unfold fetch_fuel. destruct Hat as (_ & _ & (pre & ->) & _). cbn [s i].
    rewrite length_app. pose proof (length_blocks_ge bs rest ltac:(lia) Hwf). lia. }
  unfold Read, fetch. rewrite Hf. cbn [mbind res_bind].
  destruct Hat2 as (Hsz & Hbuf & Hrd & Hscr).
  set (buf' := buf ++ concat (take j rest)) in *.
  unfold Buffer_Read. rewrite Hbuf.
  destruct buf' as [|b l] eqn:E.
  - destruct (Nat.eqb_spec n 0); [lia|].
    exists (Some EOF), (mkReader (buffer r2) (scratch r2) (reader r2) (blockSize r2)), j.
    cbn zeta. fold buf'. rewrite E, take_nil, drop_nil.
    split; [done|]. split; [by repeat split|]. split; [|done].
    intros _. split; [|done]. destruct Hdone as [|Hlen]; [done|]. simpl in Hlen. lia.
  - eexists None, _, j. cbn zeta. fold buf'. rewrite E.
    split; [done|]. split; [by repeat split|]. split; done.
Qed.

Lemma read_all_loop_boundary bs n : forall fuel r buf rest,
  0 < bs <= MaxInt64 - 8 -> (0 < n)%nat ->
  at_boundary bs r buf rest ->
  well_formed bs rest -> nonfinal_full bs rest ->
  (length buf + length (concat rest) < fuel)%nat ->
  read_all_loop fuel r n = Ret (buf ++ concat rest).
Proof.
  induction fuel as [|fuel IH]; intros r buf rest Hbs Hn Hat Hwf Hnf Hfuel; [lia|].
  destruct (Read_boundary bs n r buf rest Hbs Hn Hat Hwf Hnf)
    as (err & r2 & j & HR & Hat2 & Hnil & Hcons).
  cbn zeta in *. cbn [read_all_loop]. rewrite HR. cbn [mbind res_bind].
  assert (Hsplit : concat rest = concat (take j rest) ++ concat (drop j rest))
    by (by rewrite <- concat_app, take_drop).
  destruct (buf ++ concat (take j rest)) as [|b l] eqn:E.
  - destruct (Hnil eq_refl) as [Hd ->]. rewrite take_nil.
    apply app_eq_nil in E as [-> E]. rewrite Hsplit, E, Hd. done.
  - rewrite (Hcons ltac:(done)).
    rewrite (IH r2 _ _ Hbs Hn Hat2).
    + cbn [mbind res_bind]. f_equal.
      rewrite app_assoc, take_drop, Hsplit, app_assoc, E. done.
    + by apply Forall_drop.
    + clear -Hnf. revert j. induction rest as [|p rest IHr]; intros [|j]; try done.
      cbn [drop]. apply IHr. by destruct Hnf.
    + rewrite Hsplit, length_app in Hfuel.
      assert (length (b :: l) = length buf + length (concat (take j rest)))%nat
        by (by rewrite <- E, length_app).
      rewrite length_drop. simpl in *. lia.
Qed.

(** C6, as amended: when every block but the last carries a full payload
    of [blockSize] bytes, reading through [Read] until [EOF], with a
    destination of any positive size, yields exactly the concatenation
    of the payloads, in order. *)
Theorem Read_yields_payloads_of_full_blocks bs n (payloads : list (list byte)) :
  0 < bs <= MaxInt64 - 8 -> (0 < n)%nat ->
  well_formed bs payloads -> nonfinal_full bs payloads ->
  read_all (NewByteReader (blocks bs payloads) bs) n = Ret (concat payloads).
Proof.
  intros Hbs Hn Hwf Hnf. unfold read_all.
  rewrite (read_all_loop_boundary bs n _ _ [] payloads); try done.
  - repeat split; try done. by exists [].
  - cbn [NewByteReader NewReader reader buffer s Buffer_Len newBuffer unread length].
    pose proof (length_blocks_ge bs payloads ltac:(lia) Hwf). lia.
Qed.

Lemma Read_yields_payloads_of_full_blocks_witness :
  well_formed 4 [["b"; "c"; "d"; "e"]; ["a"]]%byte
  /\ nonfinal_full 4 [["b"; "c"; "d"; "e"]; ["a"]]%byte
  /\ read_all (NewByteReader (blocks 4 [["b"; "c"; "d"; "e"]; ["a"]]%byte) 4) 3
     = Ret ["b"; "c"; "d"; "e"; "a"]%byte.
Proof.
  assert (Hwf : well_formed 4 [["b"; "c"; "d"; "e"]; ["a"]]%byte)
    by (repeat constructor; simpl; lia).
  assert (Hnf : nonfinal_full 4 [["b"; "c"; "d"; "e"]; ["a"]]%byte)
    by (simpl; repeat split; intros; congruence).
  split; [exact Hwf|]. split; [exact Hnf|].
  apply (Read_yields_payloads_of_full_blocks 4 3 _ ltac:(unfold MaxInt64; lia)
           ltac:(lia) Hwf Hnf).
Defined.

(** C6, as stated, fails: a first block with the one-byte payload "a",
    padded to the block width of 4, followed by a block with payload
    "bcde". The padding of the first block stays in [scratch], the next
    header is read from it as 0, and [Read] delivers "a" only. *)
Lemma Read_short_nonfinal_block_loses_payload :
  well_formed 4 [["a"]; ["b"; "c"; "d"; "e"]]%byte
  /\ read_all (NewByteReader (blocks 4 [["a"]; ["b"; "c"; "d"; "e"]]%byte) 4) 4
     = Ret ["a"]%byte
  /\ read_all (NewByteReader (blocks 4 [["a"]; ["b"; "c"; "d"; "e"]]%byte) 4) 4
     <> Ret (concat [["a"]; ["b"; "c"; "d"; "e"]]%byte).
Proof.
  split; [repeat constructor; simpl; lia|].
  split; [reflexivity|]. vm_compute. discriminate.
Qed.

(** [Peek] has no error result, and a slice it returns from the unread
    bytes is never short. *)
Lemma Peek_never_short r n bs r' :
  Peek r n = Ret (Within bs, r') -> Z.of_nat (length bs) = n.
Proof.
  unfold Peek. destruct (fetch r n) as [[e r1]| | |]; cbn [mbind res_bind]; try done.
  unfold slice_to.
  destruct (Z.ltb_spec n 0); [done|].
  destruct (Z.leb_spec n (Z.of_nat (Buffer_Len (buffer r1)))).
  - cbn [mbind res_bind]. intros [= <- _]. unfold Buffer_Len in *.
    rewrite length_take. lia.
  - destruct (allocated (buffer r1)); cbn [mbind res_bind]; done.
Qed.

(** On an empty underlying stream every [Peek] of a positive size panics. *)
Lemma Peek_empty_stream_panics bs n :
  0 <= bs <= MaxInt64 - 8 -> 0 < n -> Peek (NewByteReader [] bs) n = Panic.
Proof.
  intros Hbs Hn. unfold Peek, fetch, fetch_fuel.
  cbn [NewByteReader NewReader reader s i length Nat.sub fetch_loop buffer
       Buffer_Len newBuffer unread blockSize].
  destruct (Z.ltb_spec (Z.of_nat 0) n) as [_|]; [|simpl in *; lia].
  rewrite to_int64_id
    by (pose proof (headerLen_cases bs); unfold MaxInt64 in *; lia).
  rewrite make_nonneg by (pose proof (headerLen_pos bs); lia).
  cbn [mbind res_bind]. unfold BytesReader_Read. cbn [s i length Nat.leb].
  destruct (Z.ltb_spec (headerLen bs) (Z.of_nat 0)) as [|_];
    [pose proof (headerLen_pos bs); simpl in *; lia|].
  cbn [mbind res_bind buffer]. unfold slice_to, Buffer_Len, newBuffer.
  cbn [unread length allocated].
  destruct (Z.ltb_spec n 0); [lia|].
  destruct (Z.leb_spec n (Z.of_nat 0)); [simpl in *; lia|]. done.
Qed.

(** C10: [Peek(n)] with fewer than [n] payload bytes left panics on the
    slice bound: on an empty file, [Peek(1)] finds nothing to buffer,
    slices the nil buffer to one byte and panics. And when [Peek] does
    return a slice of the unread bytes, the slice has exactly [n] bytes:
    there is never a short slice, and [Peek] has no error result. *)
Theorem Peek_past_end_panics :
  (exists data n,
      Z.of_nat (length data) < n /\ Peek (NewByteReader data 4) n = Panic)
  /\ (forall r n bs r', Peek r n = Ret (Within bs, r') -> Z.of_nat (length bs) = n).
Proof.
  split.
  - exists [], 1. split; [simpl; lia|reflexivity].
  - apply Peek_never_short.
Qed.

(** *** Arbitrary input *)

Lemma le_decode_bound (bs : list byte) : 0 <= le_decode bs < 256 ^ Z.of_nat (length bs).
Proof.
  induction bs as [|b bs IH]; [simpl; lia|].
  cbn [le_decode length]. pose proof (Z_of_byte_range b).
  rewrite Nat2Z.inj_succ, Z.pow_succ_r by lia. lia.
Qed.

Lemma parseHeader_nonneg r head :
  0 <= blockSize r <= MaxUint32 -> 0 <= parseHeader r head.
Proof.
  intros Hbs. unfold parseHeader.
  set (hd := take _ head).
  pose proof (le_decode_bound hd) as Hb.
  assert (length hd <= 4)%nat.
  { assert (headerLen (blockSize r) <= 4).
    { unfold headerLen. destruct (blockSize r <=? MaxUint16); [lia|].
      destruct (Z.leb_spec (blockSize r) MaxUint32); lia. }
    subst hd. rewrite length_take. lia. }
  assert (256 ^ Z.of_nat (length hd) <= 256 ^ 4)
    by (apply Z.pow_le_mono_r; lia).
  rewrite to_int64_id; [lia|]. unfold MaxInt64. lia.
Qed.

(** [parse] with a header of two or four bytes never panics, and leaves
    the underlying reader alone. *)
Lemma parse_total r :
  0 <= blockSize r <= MaxUint32 ->
  exists r', parse r = Ret r' /\ reader r' = reader r /\ blockSize r' = blockSize r.
Proof.
  intros Hbs. unfold parse.
  rewrite make_nonneg by (pose proof (headerLen_pos (blockSize r)); lia).
  cbn [mbind res_bind].
  destruct (Buffer_Read (scratch r) _) as [[got e] scratch1].
  rewrite make_nonneg by (by apply parseHeader_nonneg).
  cbn [mbind res_bind].
  destruct (Buffer_Read scratch1 _) as [[got2 e2] scratch2]. eauto.
Qed.

Lemma fetch_loop_total len : forall fuel r,
  0 <= blockSize r <= MaxUint32 ->
  (length (s (reader r)) - i (reader r) < fuel)%nat ->
  exists err r', fetch_loop fuel r len = Ret (err, r')
                 /\ blockSize r' = blockSize r.
Proof.
  induction fuel as [|fuel IH]; intros r Hbs Hfuel; [lia|].
  cbn [fetch_loop]. destruct (_ <? len); [|eauto].
  assert (Hhl : 0 < headerLen (blockSize r) <= 8).
  { pose proof (headerLen_cases (blockSize r)). lia. }
  rewrite to_int64_id by (unfold MaxInt64, MaxUint32 in *; lia).
  rewrite make_nonneg by lia. cbn [mbind res_bind]. rewrite repeat_length.
  unfold BytesReader_Read.
  destruct (Nat.leb_spec (length (s (reader r))) (i (reader r))) as [Hend|Hmore].
  - (* at the end of the data *)
    cbn [length]. destruct (Z.ltb_spec (headerLen (blockSize r)) (Z.of_nat 0));
      [simpl in *; lia|].
    cbn [mbind res_bind]. eauto.
  - set (got := take _ (drop _ _)).
    assert (Hgot : (0 < length got)%nat).
    { subst got. rewrite length_take, length_drop. lia. }
    set (r1 := mkReader _ _ _ _).
    assert (Hr2 : exists r2,
               (if headerLen (blockSize r) <? Z.of_nat (length got)
                then parse r1 else Ret r1) = Ret r2
               /\ reader r2 = reader r1 /\ blockSize r2 = blockSize r).
    { destruct (_ <? _); [|by exists r1].
      destruct (parse_total r1 Hbs) as (r2 & ? & ? & ?). eauto. }
    destruct Hr2 as (r2 & -> & Hrd & Hsz). cbn [mbind res_bind].
    destruct (IH r2) as (err & r' & -> & Hsz').
    + by rewrite Hsz.
    + rewrite Hrd. subst r1. cbn [reader s i]. lia.
    + exists err, r'. split; [done|congruence].
Qed.

(** X9: with a block size that fits 32 bits, [Read] returns on every
    file, well-formed or not: it neither panics nor loops, and it
    delivers at most the bytes asked for. *)
Theorem Read_returns_on_any_file r n :
  0 <= blockSize r <= MaxUint32 ->
  exists got err r',
    Read r n = Ret (got, err, r')
    /\ (length got <= n)%nat
    /\ blockSize r' = blockSize r.
Proof.
  intros Hbs. unfold Read, fetch, fetch_fuel.
  destruct (fetch_loop_total (Z.of_nat n) (S (length (s (reader r)) - i (reader r)))
              r Hbs ltac:(lia)) as (err & r1 & -> & Hsz).
  cbn [mbind res_bind]. unfold Buffer_Read.
  destruct (unread (buffer r1)) as [|b l] eqn:E.
  - destruct (n =? 0)%nat; eexists _, _, _; (split; [done|]); simpl; split; [lia|done|lia|done].
  - eexists _, _, _. split; [done|]. split; [|done].
    rewrite length_take. lia.
Qed.

Lemma Read_returns_on_any_file_witness :
  exists got err r',
    Read (NewByteReader ["255"; "255"; "a"]%byte 4) 3 = Ret (got, err, r')
    /\ (length got <= 3)%nat
    /\ blockSize r' = 4.
Proof.
  apply (Read_returns_on_any_file (NewByteReader ["255"; "255"; "a"]%byte 4) 3).
  vm_compute. split; discriminate.
Defined.

(** *** Peek, Seek and ReadBlock *)

Lemma fetch_enough_buffered r len :
  len <= Z.of_nat (Buffer_Len (buffer r)) -> fetch r len = Ret (None, r).
Proof.
  intros H. unfold fetch, fetch_fuel. cbn [fetch_loop].
  by destruct (Z.ltb_spec (Z.of_nat (Buffer_Len (buffer r))) len); [lia|].
Qed.

(** X10: [Peek] does not consume: the bytes [Peek(n)] returned are the
    bytes the next [Read] of [n] bytes delivers, without error. *)
Theorem Read_after_Peek_returns_the_peeked_bytes r n bs r1 :
  0 < n ->
  Peek r n = Ret (Within bs, r1) ->
  exists r2, Read r1 (Z.to_nat n) = Ret (bs, None, r2)
             /\ unread (buffer r1) = bs ++ unread (buffer r2).
Proof.
  intros Hn. unfold Peek.
  destruct (fetch r n) as [[e r0]| | |]; cbn [mbind res_bind]; try done.
  unfold slice_to. destruct (Z.ltb_spec n 0); [done|].
  destruct (Z.leb_spec n (Z.of_nat (Buffer_Len (buffer r0)))) as [Hlen|].
  2:{ destruct (allocated (buffer r0)); cbn [mbind res_bind]; done. }
  cbn [mbind res_bind]. intros [= <- <-].
  unfold Read. rewrite fetch_enough_buffered by lia. cbn [mbind res_bind].
  unfold Buffer_Read, Buffer_Len in *.
  destruct (unread (buffer r0)) as [|b l] eqn:E; [simpl in Hlen; lia|].
  eexists. split; [reflexivity|]. cbn [buffer unread].
  by rewrite take_drop.
Qed.

Lemma Read_after_Peek_returns_the_peeked_bytes_witness :
  exists bs r1 r2,
    Peek (NewByteReader (blocks 4 [["b"; "c"; "d"; "e"]; ["a"]]%byte) 4) 3
      = Ret (Within bs, r1)
    /\ Read r1 3 = Ret (bs, None, r2)
    /\ unread (buffer r1) = bs ++ unread (buffer r2).
Proof.
  assert (HP : exists bs r1,
             Peek (NewByteReader (blocks 4 [["b"; "c"; "d"; "e"]; ["a"]]%byte) 4) 3
             = Ret (Within bs, r1)) by (eexists _, _; vm_compute; reflexivity).
  destruct HP as (bs & r1 & HP).
  destruct (Read_after_Peek_returns_the_peeked_bytes _ 3 bs r1 ltac:(lia) HP)
    as (r2 & HR & Hu).
  exists bs, r1, r2. split; [exact HP|]. split; [exact HR|exact Hu].
Defined.

Lemma nonfinal_full_app_r bs (ps1 ps2 : list (list byte)) :
  nonfinal_full bs (ps1 ++ ps2) -> nonfinal_full bs ps2.
Proof.
  induction ps1 as [|p ps1 IH]; [done|]. cbn [app nonfinal_full].
  intros [_ H]. by apply IH.
Qed.

Lemma blocks_app bs (ps1 ps2 : list (list byte)) :
  blocks bs (ps1 ++ ps2) = blocks bs ps1 ++ blocks bs ps2.
Proof. unfold blocks. by rewrite map_app, concat_app. Qed.

Lemma Seek_boundary bs r (ps1 ps2 : list (list byte)) :
  blockSize r = bs ->
  s (reader r) = blocks bs (ps1 ++ ps2) ->
  exists r1,
    Seek r (Z.of_nat (length (blocks bs ps1))) 0
    = (Z.of_nat (length (blocks bs ps1)), None, r1)
    /\ at_boundary bs r1 [] ps2
    /\ s (reader r1) = s (reader r).
Proof.
  intros Hsz Hs. unfold Seek, BytesReader_Seek. cbn [Z.eqb negb].
  destruct (Z.ltb_spec (Z.of_nat (length (blocks bs ps1))) 0); [lia|].
  eexists. split; [reflexivity|]. split; [|done].
  unfold at_boundary. cbn [blockSize buffer scratch reader newBuffer unread].
  repeat split; try done.
  exists (blocks bs ps1). by rewrite Hs, Nat2Z.id, blocks_app.
Qed.

(** X11: [Seek] to the start of a block drops what was buffered, and
    reading then yields the payloads from that block on, whatever the
    reader held or had read before. *)
Theorem Seek_then_Read_yields_the_blocks_from_there bs r n
    (ps1 ps2 : list (list byte)) :
  0 < bs <= MaxInt64 - 8 -> (0 < n)%nat ->
  blockSize r = bs ->
  s (reader r) = blocks bs (ps1 ++ ps2) ->
  well_formed bs (ps1 ++ ps2) -> nonfinal_full bs (ps1 ++ ps2) ->
  exists r1,
    Seek r (Z.of_nat (length (blocks bs ps1))) 0
    = (Z.of_nat (length (blocks bs ps1)), None, r1)
    /\ read_all r1 n = Ret (concat ps2).
Proof.
  intros Hbs Hn Hsz Hs Hwf Hnf.
  destruct (Seek_boundary bs r ps1 ps2 Hsz Hs) as (r1 & HS & Hat & Hs1).
  exists r1. split; [exact HS|].
  apply Forall_app in Hwf as [_ Hwf2]. apply nonfinal_full_app_r in Hnf.
  unfold read_all.
  rewrite (read_all_loop_boundary bs n _ r1 [] ps2); try done.
  destruct Hat as (_ & Hbuf & _). unfold Buffer_Len.
  rewrite Hbuf, Hs1, Hs, blocks_app, length_app.
  pose proof (length_blocks_ge bs ps2 ltac:(lia) Hwf2). simpl. lia.
Qed.

Lemma Seek_then_Read_yields_the_blocks_from_there_witness :
  exists r0 r1,
    Read (NewByteReader (blocks 4 [["b"; "c"; "d"; "e"]; ["a"]]%byte) 4) 2
      = Ret (["b"; "c"]%byte, None, r0)
    /\ Seek r0 6 0 = (6, None, r1)
    /\ read_all r1 3 = Ret ["a"]%byte.
Proof.
  assert (HR : exists r0,
             Read (NewByteReader (blocks 4 [["b"; "c"; "d"; "e"]; ["a"]]%byte) 4) 2
             = Ret (["b"; "c"]%byte, None, r0)
             /\ blockSize r0 = 4
             /\ s (reader r0) = blocks 4 ([["b"; "c"; "d"; "e"]] ++ [["a"]])%byte)
    by (eexists; split; [vm_compute; reflexivity|split; reflexivity]).
  destruct HR as (r0 & HR & Hsz & Hs).
  assert (Hwf : well_formed 4 ([["b"; "c"; "d"; "e"]] ++ [["a"]])%byte)
    by (repeat constructor; simpl; lia).
  assert (Hnf : nonfinal_full 4 ([["b"; "c"; "d"; "e"]] ++ [["a"]])%byte)
    by (simpl; repeat split; intros; congruence).
  destruct (Seek_then_Read_yields_the_blocks_from_there 4 r0 3
              [["b"; "c"; "d"; "e"]]%byte [["a"]]%byte
              ltac:(unfold MaxInt64; lia) ltac:(lia) Hsz Hs Hwf Hnf)
    as (r1 & HS & Hall).
  exists r0, r1. split; [exact HR|]. split; [exact HS|exact Hall].
Defined.

(** X12: [ReadBlock] at the start of a block returns that block's
    payload and nothing of the next block; an empty last block reads as
    [EOF]. *)
Theorem ReadBlock_returns_the_payload_of_the_block bs r
    (ps1 : list (list byte)) (p : list byte) (ps2 : list (list byte)) :
  0 < bs <= MaxInt64 - 8 ->
  blockSize r = bs ->
  s (reader r) = blocks bs (ps1 ++ p :: ps2) ->
  well_formed bs (ps1 ++ p :: ps2) -> nonfinal_full bs (ps1 ++ p :: ps2) ->
  exists r',
    ReadBlock r (Z.of_nat (length (blocks bs ps1)))
    = Ret (p, match p with [] => Some EOF | _ => None end, r').
Proof.
  intros Hbs Hsz Hs Hwf Hnf.
  destruct (Seek_boundary bs r ps1 (p :: ps2) Hsz Hs) as (r1 & HS & Hat & Hs1).
  unfold ReadBlock. rewrite HS.
  pose proof Hat as (Hsz1 & _).
  rewrite Hsz1, make_nonneg by lia. cbn [mbind res_bind]. rewrite repeat_length.
  apply Forall_app in Hwf as [_ Hwf2]. apply nonfinal_full_app_r in Hnf.
  pose proof Hwf2 as [Hp _]%Forall_cons. pose proof Hnf as [Hfull _].
  destruct (fetch_loop_boundary bs bs (p :: ps2) (fetch_fuel r1) r1 [] Hbs Hat Hwf2 Hnf)
    as (e & r2 & j & Hf & Hat2 & Hdone).
  { unfold fetch_fuel. destruct Hat as (_ & _ & (pre & ->) & _). cbn [s i].
    rewrite length_app. pose proof (length_blocks_ge bs (p :: ps2) ltac:(lia) Hwf2).
    lia. }
  unfold Read, fetch. rewrite Z2Nat.id by lia. rewrite Hf. cbn [mbind res_bind].
  destruct Hat2 as (_ & Hbuf & _). unfold Buffer_Read. rewrite Hbuf.
  cbn [app] in *.
  assert (Htake : take (Z.to_nat bs) (concat (take j (p :: ps2))) = p
                  /\ (p = [] -> concat (take j (p :: ps2)) = [])).
  { destruct j as [|j].
    - destruct Hdone as [Hd|Hd]; [done|]. simpl in Hd. lia.
    - cbn [take concat]. destruct ps2 as [|q ps2].
      + rewrite take_nil. cbn [concat]. rewrite app_nil_r.
        split; [apply take_ge; lia|done].
      + specialize (Hfull ltac:(done)). split.
        * apply take_app_length'. lia.
        * intros ->. simpl in Hfull. lia. }
  destruct Htake as [Htake Hnil].
  destruct (concat (take j (p :: ps2))) as [|b l] eqn:E.
  - rewrite take_nil in Htake. subst p.
    destruct (Nat.eqb_spec (Z.to_nat bs) 0); [lia|]. eauto.
  - rewrite Htake. destruct p as [|b' p']; [by specialize (Hnil eq_refl)|]. eauto.
Qed.

Lemma ReadBlock_returns_the_payload_of_the_block_witness :
  exists r',
    ReadBlock (NewByteReader (blocks 4 [["b"; "c"; "d"; "e"]; ["a"]]%byte) 4) 6
    = Ret (["a"]%byte, None, r').
Proof.
  assert (Hwf : well_formed 4 ([["b"; "c"; "d"; "e"]] ++ [["a"]])%byte)
    by (repeat constructor; simpl; lia).
  assert (Hnf : nonfinal_full 4 ([["b"; "c"; "d"; "e"]] ++ [["a"]])%byte)
    by (simpl; repeat split; intros; congruence).
  exact (ReadBlock_returns_the_payload_of_the_block 4
           (NewByteReader (blocks 4 [["b"; "c"; "d"; "e"]; ["a"]]%byte) 4)
           [["b"; "c"; "d"; "e"]]%byte ["a"]%byte []
           ltac:(unfold MaxInt64; lia) eq_refl eq_refl Hwf Hnf).
Defined.

(** *** ReadByte *)

Lemma ReadByte_Read r :
  ReadByte r
  = ('(got, err, r1) ← Read r 1; Ret (nth 0 (fill [x00] got) x00, err, r1)).
Proof.
  unfold ReadByte, Read. change (Z.of_nat 1) with 1.
  destruct (fetch r 1) as [[e r1]| | |]; cbn [mbind res_bind]; try done.
  change (make 1) with (Ret [x00]). cbn [mbind res_bind length].
  by destruct (Buffer_Read (buffer r1) 1) as [[got err] buf].
Qed.

Lemma read_bytes_loop_boundary bs : forall fuel r buf rest,
  0 < bs <= MaxInt64 - 8 ->
  at_boundary bs r buf rest ->
  well_formed bs rest -> nonfinal_full bs rest ->
  (length buf + length (concat rest) < fuel)%nat ->
  read_bytes_loop fuel r = Ret (buf ++ concat rest).
Proof.
  induction fuel as [|fuel IH]; intros r buf rest Hbs Hat Hwf Hnf Hfuel; [lia|].
  destruct (Read_boundary bs 1 r buf rest Hbs ltac:(lia) Hat Hwf Hnf)
    as (err & r2 & j & HR & Hat2 & Hnil & Hcons).
  cbn zeta in *. cbn [read_bytes_loop]. rewrite ReadByte_Read, HR. cbn [mbind res_bind].
  assert (Hsplit : concat rest = concat (take j rest) ++ concat (drop j rest))
    by (by rewrite <- concat_app, take_drop).
  destruct (buf ++ concat (take j rest)) as [|b l] eqn:E.
  - destruct (Hnil eq_refl) as [Hd ->].
    apply app_eq_nil in E as [-> E]. rewrite Hsplit, E, Hd. done.
  - rewrite (Hcons ltac:(done)). cbn [take fill app drop nth length].
    rewrite (IH r2 _ _ Hbs Hat2).
    + cbn [mbind res_bind]. f_equal.
      rewrite Hsplit, app_assoc, E. done.
    + by apply Forall_drop.
    + clear -Hnf. revert j. induction rest as [|p rest IHr]; intros [|j]; try done.
      cbn [drop]. apply IHr. by destruct Hnf.
    + rewrite Hsplit, length_app in Hfuel. rewrite length_drop.
      assert (length (b :: l) = length buf + length (concat (take j rest)))%nat
        by (by rewrite <- E, length_app).
      simpl in *. lia.
Qed.

(** X21: when every block but the last carries a full payload,
    [ReadByte] called until it reports an error delivers the bytes of
    the payloads one by one, in order; on a reader with no data it
    returns the zero byte with [EOF]. *)
Theorem ReadByte_yields_the_payload_bytes_in_order bs (payloads : list (list byte)) :
  0 < bs <= MaxInt64 - 8 ->
  well_formed bs payloads -> nonfinal_full bs payloads ->
  read_bytes (NewByteReader (blocks bs payloads) bs) = Ret (concat payloads)
  /\ exists r', ReadByte (NewByteReader [] bs) = Ret (x00, Some EOF, r').
Proof.
  intros Hbs Hwf Hnf. split.
  - unfold read_bytes.
    rewrite (read_bytes_loop_boundary bs _ _ [] payloads); try done.
    + repeat split; try done. by exists [].
    + cbn [NewByteReader NewReader reader buffer s Buffer_Len newBuffer unread length].
      pose proof (length_blocks_ge bs payloads ltac:(lia) Hwf). lia.
  - assert (Hat : at_boundary bs (NewByteReader [] bs) [] []).
    { repeat split; try done. by exists []. }
    destruct (Read_boundary bs 1 (NewByteReader [] bs) [] [] Hbs ltac:(lia) Hat
                (Forall_nil_2 _) I)
      as (err & r2 & j & HR & _ & Hnil & _).
    cbn zeta in *. rewrite take_nil in HR, Hnil. cbn [concat app] in *.
    destruct (Hnil eq_refl) as [_ ->].
    rewrite ReadByte_Read, HR. cbn [mbind res_bind]. by eexists.
Qed.

Lemma ReadByte_yields_the_payload_bytes_in_order_witness :
  read_bytes (NewByteReader (blocks 4 [["b"; "c"; "d"; "e"]; ["a"]]%byte) 4)
    = Ret (concat [["b"; "c"; "d"; "e"]; ["a"]]%byte)
  /\ exists r', ReadByte (NewByteReader [] 4) = Ret (x00, Some EOF, r').
Proof.
  apply (ReadByte_yields_the_payload_bytes_in_order 4 [["b"; "c"; "d"; "e"]; ["a"]]%byte).
  - unfold MaxInt64. lia.
  - repeat constructor; simpl; lia.
  - simpl. repeat split; intros; congruence.
Defined.

End BlocksTheory.

(** ** The open stream *)

Module StreamTheory.
Import Stream.

(** *** The codec round trip *)

Lemma Z_of_byte_of_Z_small n : 0 <= n < 256 -> Z_of_byte (byte_of_Z n) = n.
Proof. intros. rewrite Z_of_byte_of_Z. apply Z.mod_small. lia. Qed.

Lemma uvarint_loop_nonempty fuel x : fuel <> O -> uvarint_loop fuel x <> [].
Proof. destruct fuel; [done|]. intros _. simpl. by case_match. Qed.

Lemma uvarint_nonempty x : uvarint x <> [].
Proof. by apply uvarint_loop_nonempty. Qed.

Lemma read_uvarint_loop_encode n : forall x rest,
  0 <= x < 2 * 128 ^ (Z.of_nat n - 1) -> (0 < n)%nat ->
  read_uvarint_loop n (uvarint_loop n x ++ rest) = Some (x, rest).
Proof.
  induction n as [|n IH]; intros x rest Hx Hn; [lia|].
  cbn [uvarint_loop]. destruct (Z.ltb_spec x 128) as [Hlt|Hge].
  - cbn [app read_uvarint_loop]. rewrite Z_of_byte_of_Z_small by lia.
    destruct (Z.ltb_spec x 128); [|lia].
    destruct (Nat.eqb_spec n 0%nat) as [->|Hn0]; [|done].
    simpl in Hx. destruct (Z.ltb_spec 1 x); [lia|done].
  - cbn [app read_uvarint_loop].
    pose proof (Z.mod_pos_bound x 128 ltac:(lia)).
    rewrite Z_of_byte_of_Z_small by lia.
    destruct (Z.ltb_spec (x mod 128 + 128) 128); [lia|].
    destruct (Nat.eq_dec n 0%nat) as [->|Hn0]; [simpl in Hx; lia|].
    rewrite IH.
    + f_equal. f_equal. pose proof (Z.div_mod x 128 ltac:(lia)). lia.
    + replace (Z.of_nat (S n) - 1) with (Z.succ (Z.of_nat n - 1)) in Hx by lia.
      rewrite Z.pow_succ_r in Hx by lia.
      split; [apply Z.div_pos; lia|apply Z.div_lt_upper_bound; lia].
    + lia.
Qed.

Lemma read_uvarint_uvarint x rest :
  0 <= x < 2 ^ 64 -> read_uvarint (uvarint x ++ rest) = Some (x, rest).
Proof.
  intros Hx. unfold read_uvarint, uvarint, to_uint64.
  rewrite Z.mod_small by lia.
  apply read_uvarint_loop_encode; [|unfold MaxVarintLen64; lia].
  unfold MaxVarintLen64. change (2 * 128 ^ (Z.of_nat 10 - 1)) with (2 ^ 64). lia.
Qed.

(** What the codec can represent: back-offsets are non-negative [int64]
    values and the record length fits the length prefix. *)
Definition entry_ok (entry : string * Z) : Prop :=
  0 <= entry.2 <= MaxInt64
  /\ Z.of_nat (List.length (String.list_byte_of_string entry.1)) < 2 ^ 64.

Definition encodable (e : Event) : Prop :=
  Z.of_nat (List.length (push_body e)) <= MaxInt64
  /\ (forall index off, offsets e !! index = Some off -> 0 <= off <= MaxInt64).

Lemma pull_indexes_push (l : list (string * Z)) rest :
  Forall entry_ok l ->
  pull_indexes (List.length l) (concat (map push_index l) ++ rest) = Some (l, rest).
Proof.
  induction 1 as [|[name off] l [Hoff Hname] Hl IH]; [done|].
  cbn [List.length map concat pull_indexes]. unfold push_index at 1. cbn [fst snd] in *.
  rewrite <- !app_assoc, read_uvarint_uvarint by lia.
  cbn [mbind option_bind].
  destruct (Z.ltb_spec
    (Z.of_nat (List.length (String.list_byte_of_string name ++ uvarint off
                       ++ concat (map push_index l) ++ rest)))
    (Z.of_nat (List.length (String.list_byte_of_string name)))) as [Hc|_].
  { rewrite length_app in Hc. lia. }
  rewrite Nat2Z.id, take_app_length, drop_app_length.
  rewrite read_uvarint_uvarint by (unfold MaxInt64 in *; lia).
  cbn [mbind option_bind]. rewrite IH. cbn [mbind option_bind].
  rewrite String.string_of_list_byte_of_string, to_int64_id
    by (unfold MaxInt64 in *; lia).
  done.
Qed.

Lemma length_push_indexes (l : list (string * Z)) :
  (List.length l <= List.length (concat (map push_index l)))%nat.
Proof.
  induction l as [|entry l IH]; [done|].
  cbn [map concat List.length]. rewrite length_app.
  assert (List.length (push_index entry) <> 0)%nat; [|lia].
  unfold push_index. rewrite length_app.
  pose proof (uvarint_nonempty (Z.of_nat (List.length (String.list_byte_of_string entry.1)))).
  destruct (uvarint _); simpl; [done|lia].
Qed.

Lemma length_push_index_name (l : list (string * Z)) entry :
  entry ∈ l ->
  (List.length (String.list_byte_of_string entry.1) <= List.length (concat (map push_index l)))%nat.
Proof.
  induction 1 as [entry l|entry entry' l _ IH].
  - cbn [map concat]. unfold push_index at 1. rewrite !length_app. lia.
  - cbn [map concat]. rewrite length_app. lia.
Qed.

Lemma pull_body_push e : encodable e -> pull_body (push_body e) = Some e.
Proof.
  intros [Hlen Hoff]. unfold pull_body, push_body in *.
  set (entries := map_to_list (offsets e)) in *.
  rewrite !length_app in Hlen.
  pose proof (length_push_indexes entries) as Hcount.
  rewrite read_uvarint_uvarint by (unfold MaxInt64 in *; lia).
  cbn [mbind option_bind]. rewrite length_app.
  match goal with |- context [?a <? ?b] => destruct (Z.ltb_spec a b) as [Hc|_] end;
    [lia|].
  rewrite Nat2Z.id, pull_indexes_push.
  - cbn [mbind option_bind]. destruct e as [data offs]. cbn [offsets Data] in *.
    f_equal. f_equal. subst entries.
    rewrite <- (list_to_map_to_list offs) at 2.
    apply list_to_map_proper; [|apply reverse_Permutation].
    rewrite fmap_reverse, reverse_Permutation. apply NoDup_fst_map_to_list.
  - apply Forall_forall. intros [name off] Hin. split; cbn [fst snd].
    + apply (Hoff name). by apply elem_of_map_to_list.
    + pose proof (length_push_index_name entries _ Hin). cbn [fst] in *.
      unfold MaxInt64 in *. lia.
Qed.

Lemma push_body_nonempty e : push_body e <> [].
Proof.
  unfold push_body.
  pose proof (uvarint_nonempty (Z.of_nat (List.length (map_to_list (offsets e))))).
  by destruct (uvarint _).
Qed.

(** An intact record at the position is decoded to the event written. *)
Lemma pullEvent_push f e rest :
  File_rest f = push e ++ rest -> encodable e ->
  exists f', pullEvent f = (inl e, f').
Proof.
  intros Hrest He. unfold pullEvent. rewrite Hrest.
  pose proof (push_body_nonempty e) as Hne.
  destruct (push e ++ rest) as [|b l] eqn:E.
  { unfold push in E. pose proof (uvarint_nonempty (Z.of_nat (List.length (push_body e)))).
    by destruct (uvarint _). }
  rewrite <- E. unfold push. rewrite <- app_assoc.
  rewrite read_uvarint_uvarint by (destruct He; unfold MaxInt64 in *; lia).
  destruct (Z.eqb_spec (Z.of_nat (List.length (push_body e))) 0) as [H0|_].
  { destruct (push_body e); simpl in *; [done|lia]. }
  match goal with |- context [?a <? ?b] => destruct (Z.ltb_spec a b) as [Hc|_] end;
    [rewrite length_app in Hc; lia|].
  rewrite Nat2Z.id, take_app_length, pull_body_push by done.
  by eexists.
Qed.

(** *** Write *)

Lemma lookup_foldl_insert {A} (g : string -> A) (l : list string) : forall (m : gmap string A) k,
  foldl (fun m i => <[i := g i]> m) m l !! k
  = if decide (k ∈ l) then Some (g k) else m !! k.
Proof.
  induction l as [|i l IH]; intros m k; [done|].
  cbn [foldl]. rewrite IH.
  destruct (decide (k ∈ l)) as [Hin|Hnin].
  - rewrite decide_True by (by right). done.
  - destruct (decide (k = i)) as [->|Hne].
    + rewrite decide_True by (by left). by rewrite lookup_insert_eq.
    + rewrite decide_False by (intros [?|?]%elem_of_cons; done).
      by rewrite lookup_insert_ne.
Qed.

(** The successful path of [Write], spelled out. *)
Lemma Write_success s data indexes written s' :
  Write s data indexes = (written, None, s') ->
  let e := newEvent data (foldl (fun m index => <[index := tail_of s index]> m) ∅ indexes) in
  closed s = false /\ 0 <= offset s
  /\ offset s + Z.of_nat (List.length (push e)) <= MaxInt64
  /\ written = Z.of_nat (List.length (push e))
  /\ s' = mkOpenStream
            (mkFile (take (Z.to_nat (offset s)) (content (stream s))
                     ++ repeat x00 (Z.to_nat (offset s) - List.length (content (stream s)))
                     ++ push e
                     ++ drop (Z.to_nat (offset s) + List.length (push e)) (content (stream s)))
                    (offset s + Z.of_nat (List.length (push e))))
            (foldl (fun m index => <[index := offset s]> m) (tails s) indexes)
            false
            (to_int64 (offset s + written))
            (to_int64 (length s + 1)).
Proof.
  unfold Write, Closed. destruct (closed s) eqn:Hc; [done|].
  unfold File_Seek. destruct (Z.ltb_spec (offset s) 0) as [|Hoff]; [done|].
  unfold File_Write. cbn [pos content].
  match goal with |- context [MaxInt64 <? ?b] => destruct (Z.ltb_spec MaxInt64 b) as [|Hmax] end;
    [done|].
  intros [= <- <-]. cbn zeta. by repeat split.
Qed.

(** C7: after a successful [Write] on a stream whose write position was
    [offset s], the tail of every supplied index is that old offset, the
    offset has advanced by the bytes written, and the length has grown
    by one. [length] is a Go [int] below its maximum. *)
Theorem Write_sets_tails_then_advances s data indexes written s' :
  - 2 ^ 63 <= length s < MaxInt64 ->
  Write s data indexes = (written, None, s') ->
  (forall index, index ∈ indexes -> tails s' !! index = Some (offset s))
  /\ offset s' = offset s + written
  /\ length s' = length s + 1.
Proof.
  intros Hlen HW. apply Write_success in HW as (Hc & Hoff & Hmax & -> & ->).
  cbn [tails offset length]. split; [|split].
  - intros index Hin. rewrite (lookup_foldl_insert (fun _ => offset s)).
    by rewrite decide_True.
  - apply to_int64_id. unfold MaxInt64 in *. lia.
  - apply to_int64_id. unfold MaxInt64 in *. lia.
Qed.

(** *** The back-pointer chains of a built stream *)

(** From the offset [t], the chain of [index] in the content [c] takes
    [n] hops: every hop finds an intact record and leads to a strictly
    smaller offset. *)
Inductive chain (c : list byte) (index : string) : Z -> nat -> Prop :=
| chain_end t : t <= 0 -> chain c index t 0
| chain_hop t e rest n :
    0 < t ->
    drop (Z.to_nat t) c = push e ++ rest ->
    encodable e ->
    next_of e index < t ->
    chain c index (next_of e index) n ->
    chain c index t (S n).

Lemma push_nonempty e : push e <> [].
Proof.
  unfold push. pose proof (uvarint_nonempty (Z.of_nat (List.length (push_body e)))).
  by destruct (uvarint _).
Qed.

Lemma chain_app c more index t n :
  chain c index t n -> chain (c ++ more) index t n.
Proof.
  induction 1 as [t Ht|t e rest n Ht Hdrop He Hlt _ IH]; [by constructor|].
  apply (chain_hop _ _ t e (rest ++ more)); try done.
  assert (Z.to_nat t < List.length c)%nat as Hin.
  { destruct (Nat.lt_ge_cases (Z.to_nat t) (List.length c)) as [|Hge]; [done|].
    rewrite drop_ge in Hdrop by done. symmetry in Hdrop.
    apply app_eq_nil in Hdrop as [Hp _]. by apply push_nonempty in Hp. }
  rewrite drop_app_le by lia. rewrite Hdrop. by rewrite <- app_assoc.
Qed.

Lemma chain_more c index t n m :
  chain c index t n -> (n <= m)%nat -> exists n', chain c index t n' /\ (n' <= m)%nat.
Proof. eauto. Qed.

(** What every built stream satisfies. *)
Definition stream_inv (s : openStream) : Prop :=
  closed s = false
  /\ offset s = Z.of_nat (List.length (content (stream s)))
  /\ offset s <= MaxInt64
  /\ 0 <= length s <= offset s
  /\ (forall index, 0 <= tail_of s index
                    /\ (tail_of s index = 0 \/ tail_of s index < offset s))
  /\ (forall index, exists n, chain (content (stream s)) index (tail_of s index) n
                              /\ Z.of_nat n <= length s).

Lemma New_inv hdr s : New hdr = inl s -> stream_inv s.
Proof.
  unfold New, createOpenStream, File_Seek, File_Write. cbn [pos content].
  destruct (Z.ltb_spec 0 0); [lia|]. cbn [pos].
  destruct (Z.ltb_spec MaxInt64 (0 + Z.of_nat (List.length hdr))) as [|Hmax]; [done|].
  intros [= <-]. unfold stream_inv, tail_of. cbn [closed offset stream content tails length].
  rewrite to_int64_id by (unfold MaxInt64 in *; lia).
  rewrite drop_nil, app_nil_r.
  repeat split; try lia.
  - rewrite lookup_empty. simpl. lia.
  - rewrite lookup_empty. by left.
  - exists 0%nat. rewrite lookup_empty. split; [by constructor|lia].
Qed.

Lemma tail_of_foldl s (indexes : list string) v index :
  default 0 (foldl (fun m i => <[i := v]> m) (tails s) indexes !! index)
  = if decide (index ∈ indexes) then v else tail_of s index.
Proof.
  rewrite (lookup_foldl_insert (fun _ => v)). by case_decide.
Qed.

Lemma Write_inv s data indexes r s' :
  stream_inv s -> Write s data indexes = (r, s') -> stream_inv s'.
Proof.
  intros Hinv HW. destruct r as [written [e|]].
  - (* a failed write leaves everything but the position *)
    revert HW. unfold Write, Closed. destruct (closed s); [by intros [= _ _ <-]|].
    unfold File_Seek. destruct (offset s <? 0); [by intros [= _ _ <-]|].
    unfold File_Write. cbn [pos content].
    match goal with |- context [MaxInt64 <? ?b] => destruct (MaxInt64 <? b) end; [|done].
    intros [= _ _ <-]. exact Hinv.
  - apply Write_success in HW as (_ & Hoff0 & Hmax & -> & ->).
    destruct Hinv as (Hc & Hoff & Hofm & Hlen & Htl & Hch).
    set (e := newEvent data _) in *.
    set (c := content (stream s)) in *.
    assert (He : encodable e).
    { split.
      - unfold push in Hmax. rewrite length_app in Hmax. lia.
      - intros index off. subst e. cbn [offsets newEvent].
        rewrite (lookup_foldl_insert (tail_of s)). case_decide; [|done].
        intros [= <-]. destruct (Htl index) as [? [->|?]]; lia. }
    assert (Hn : forall index, next_of e index =
                   if decide (index ∈ indexes) then tail_of s index else 0).
    { intros index. unfold next_of. subst e.
      cbn [offsets newEvent]. rewrite (lookup_foldl_insert (tail_of s)).
      by case_decide. }
    pose proof (push_nonempty e) as Hpne.
    assert (0 < List.length (push e))%nat as Hplen
      by (destruct (push e); simpl; [done|lia]).
    assert (Hcontent :
      take (Z.to_nat (offset s)) c ++ repeat x00 (Z.to_nat (offset s) - List.length c)
        ++ push e ++ drop (Z.to_nat (offset s) + List.length (push e)) c
      = c ++ push e).
    { rewrite Hoff, Nat2Z.id, take_ge, drop_ge by lia.
      rewrite Nat.sub_diag. cbn [repeat app]. by rewrite app_nil_r. }
    unfold stream_inv, tail_of.
    cbn [closed offset stream content tails length].
    rewrite Hcontent, !to_int64_id by (unfold MaxInt64 in *; lia).
    rewrite length_app. split; [done|]. split; [lia|]. split; [lia|]. split; [lia|].
    split.
    + intros index. rewrite tail_of_foldl. specialize (Htl index).
      case_decide; lia.
    + intros index. rewrite tail_of_foldl.
      destruct (Hch index) as (n & Hchain & Hn_le).
      destruct (decide (index ∈ indexes)) as [Hin|Hnin].
      * destruct (Z.le_gt_cases (offset s) 0) as [Hz|Hpos].
        { exists 0%nat. split; [by constructor|lia]. }
        exists (S n). split; [|lia].
        apply (chain_hop _ _ _ e []); try done.
        -- rewrite Hoff, Nat2Z.id, drop_app_length. by rewrite app_nil_r.
        -- rewrite Hn, decide_True by done. destruct (Htl index) as [? [->|?]]; lia.
        -- rewrite Hn, decide_True by done. by apply chain_app.
      * exists n. split; [by apply chain_app|lia].
Qed.

Lemma built_inv hdr s : built hdr s -> stream_inv s.
Proof.
  induction 1 as [s HN|s data indexes r s' _ IH HW]; [by eapply New_inv|].
  by eapply Write_inv.
Qed.


Lemma pullEvent_content f : content (pullEvent f).2 = content f.
Proof.
  unfold pullEvent. repeat case_match; done.
Qed.

Lemma read_uvarint_loop_shorter n : forall bs v rest,
  read_uvarint_loop n bs = Some (v, rest) ->
  (List.length rest < List.length bs)%nat /\ 0 <= v.
Proof.
  induction n as [|n IH]; intros bs v rest; [done|].
  destruct bs as [|b bs]; [done|]. cbn [read_uvarint_loop].
  pose proof (Z_of_byte_range b).
  destruct (Z_of_byte b <? 128) eqn:E.
  - destruct (_ && _); [done|]. intros [= <- <-]. simpl. lia.
  - destruct (read_uvarint_loop n bs) as [[v' rest']|] eqn:E'; [|done].
    intros [= <- <-]. apply IH in E' as [? ?]. apply Z.ltb_ge in E. simpl. lia.
Qed.

(** A decoded event moves the position forward. *)
Lemma pullEvent_progress f e f1 :
  pullEvent f = (inl e, f1) ->
  content f1 = content f
  /\ (List.length (File_rest f1) < List.length (File_rest f))%nat.
Proof.
  unfold pullEvent. destruct (File_rest f) as [|b rest] eqn:Hrest; [done|].
  rewrite <- Hrest at 1.
  destruct (read_uvarint (File_rest f)) as [[len bs]|] eqn:Hread; [|done].
  apply read_uvarint_loop_shorter in Hread as [Hshort Hlen].
  destruct (Z.eqb_spec len 0); [done|].
  destruct (Z.ltb_spec (Z.of_nat (List.length bs)) len); [done|].
  destruct (pull_body _); [|done].
  intros [= _ <-]. cbn [content]. split; [done|].
  unfold File_rest at 1. cbn [content pos].
  assert (List.length (File_rest f) <= List.length (content f))%nat
    by (unfold File_rest; rewrite length_drop; lia).
  rewrite length_drop. rewrite <- Hrest. lia.
Qed.

(** [ScanIndex] follows a chain to its end, whatever the scanner returns. *)
Lemma ScanIndex_loop_chain c index t n :
  chain c index t n ->
  forall fuel f St (sc : Scanner St) st,
    content f = c -> (n <= fuel)%nat ->
    exists evs f',
      ScanIndex_loop fuel f index sc st t = Ret (None, deliver sc st evs, f')
      /\ content f' = c
      /\ List.length evs = n
      /\ chain_decreasing index t evs.
Proof.
  induction 1 as [t Ht|t e rest n Ht Hdrop He Hlt _ IH];
    intros fuel f St sc st Hc Hfuel.
  - exists [], f. destruct fuel; cbn [ScanIndex_loop];
      (destruct (Z.ltb_spec 0 t); [lia|done]).
  - destruct fuel as [|fuel]; [lia|]. cbn [ScanIndex_loop].
    destruct (Z.ltb_spec 0 t); [|lia].
    unfold File_Seek. destruct (Z.ltb_spec t 0); [lia|].
    destruct (pullEvent_push (mkFile (content f) t) e rest) as [f1 Hpull];
      [by rewrite <- Hc in Hdrop|done|].
    pose proof (pullEvent_content (mkFile (content f) t)) as Hc1.
    rewrite Hpull in *. cbn [snd content] in Hc1.
    destruct (sc st e) as [st1 b] eqn:Hsc.
    destruct (IH fuel f1 St sc st1 ltac:(congruence) ltac:(lia))
      as (evs & f' & -> & Hc' & Hlen & Hdec).
    exists (e :: evs), f'. unfold deliver. cbn [foldl List.length chain_decreasing].
    rewrite Hsc. cbn [fst]. repeat split; try done. by rewrite Hlen.
Qed.

(** C8: in a stream built by [New] and any sequence of [Write] calls, the
    back-pointer chain of every index is strictly decreasing in offset and
    ends at 0 after at most [length] hops: [ScanIndex] with [length]
    rounds of fuel or more returns, without error, having delivered the
    events [evs] of the whole chain. *)
Theorem ScanIndex_terminates_within_length hdr s index St (sc : Scanner St) st fuel :
  built hdr s ->
  (Z.to_nat (length s) <= fuel)%nat ->
  exists evs s',
    ScanIndex fuel s index sc st = Ret (None, deliver sc st evs, s')
    /\ tails s' = tails s /\ offset s' = offset s /\ length s' = length s
    /\ Z.of_nat (List.length evs) <= length s
    /\ chain_decreasing index (tail_of s index) evs.
Proof.
  intros Hb Hfuel. apply built_inv in Hb as (_ & _ & _ & Hlen & _ & Hch).
  destruct (Hch index) as (n & Hchain & Hn).
  destruct (ScanIndex_loop_chain _ _ _ _ Hchain fuel (stream s) St sc st eq_refl
              ltac:(lia)) as (evs & f' & Hloop & _ & Hl & Hdec).
  exists evs, (with_stream s f'). unfold ScanIndex. rewrite Hloop.
  cbn [mbind res_bind]. repeat split; try done. lia.
Qed.

Lemma built_example : built example_header example_stream2.
Proof.
  assert (H0 : built example_header example_stream0) by (by apply built_New).
  assert (H1 : built example_header example_stream1).
  { eapply (built_Write _ example_stream0 ["a"]%byte ["u:1"%string]
              (Write example_stream0 ["a"]%byte ["u:1"%string]).1); [exact H0|].
    unfold example_stream1. by destruct (Write _ _ _). }
  eapply (built_Write _ example_stream1 ["b"]%byte ["u:1"%string; "t:x"%string]
            (Write example_stream1 ["b"]%byte ["u:1"%string; "t:x"%string]).1);
    [exact H1|].
  unfold example_stream2. by destruct (Write _ _ _).
Qed.

Lemma ScanIndex_terminates_within_length_witness :
  built example_header example_stream2
  /\ (Z.to_nat (length example_stream2) <= 2)%nat
  /\ exists evs s',
       ScanIndex 2 example_stream2 "u:1" stop_now tt
       = Ret (None, deliver stop_now tt evs, s')
       /\ tails s' = tails example_stream2
       /\ offset s' = offset example_stream2
       /\ length s' = length example_stream2
       /\ Z.of_nat (List.length evs) <= length example_stream2
       /\ chain_decreasing "u:1" (tail_of example_stream2 "u:1") evs.
Proof.
  assert (Hle : (Z.to_nat (length example_stream2) <= 2)%nat) by (vm_compute; lia).
  split; [exact built_example|]. split; [exact Hle|].
  exact (ScanIndex_terminates_within_length example_header example_stream2 "u:1"
           unit stop_now tt 2 built_example Hle).
Defined.

Lemma Write_sets_tails_then_advances_witness :
  - 2 ^ 63 <= length example_stream0 < MaxInt64
  /\ Write example_stream0 ["a"]%byte ["u:1"%string] = (8, None, example_stream1)
  /\ (forall index, index ∈ ["u:1"%string] ->
        tails example_stream1 !! index = Some (offset example_stream0))
  /\ offset example_stream1 = offset example_stream0 + 8
  /\ length example_stream1 = length example_stream0 + 1.
Proof.
  assert (Hlen : - 2 ^ 63 <= length example_stream0 < MaxInt64)
    by (vm_compute; split; congruence).
  assert (HW : Write example_stream0 ["a"]%byte ["u:1"%string]
               = (8, None, example_stream1)) by reflexivity.
  split; [exact Hlen|]. split; [exact HW|].
  exact (Write_sets_tails_then_advances example_stream0 ["a"]%byte ["u:1"%string]
           8 example_stream1 Hlen HW).
Defined.

(** *** The scanner's answer *)

Lemma ScanIndex_loop_never_stopping {St} (sc : Scanner St) index : forall fuel f st off,
  ScanIndex_loop fuel f index sc st off
  = ScanIndex_loop fuel f index (never_stopping sc) st off.
Proof.
  induction fuel as [|fuel IH]; intros f st off; cbn [ScanIndex_loop]; [done|].
  destruct (0 <? off); [|done].
  destruct (File_Seek f off) as [[? ?] f1].
  destruct (pullEvent f1) as [[event|e] f2]; [|done].
  unfold never_stopping at 1. destruct (sc st event) as [st1 b]. cbn [fst].
  apply IH.
Qed.

Lemma ScanIndex_loop_whole {St} (sc : Scanner St) index : forall fuel f st log0 off st' log f',
  ScanIndex_loop fuel f index (recording sc) (st, log0) off = Ret (None, (st', log), f') ->
  exists evs, log = reverse evs ++ log0 /\ chain_whole index off evs.
Proof.
  induction fuel as [|fuel IH]; intros f st log0 off st' log f'; cbn [ScanIndex_loop].
  - destruct (Z.ltb_spec 0 off); [done|]. intros [= <- <- <-]. by exists [].
  - destruct (Z.ltb_spec 0 off); [|intros [= <- <- <-]; by exists []].
    destruct (File_Seek f off) as [[? ?] f1].
    destruct (pullEvent f1) as [[event|e] f2]; [|done].
    unfold recording at 1. cbn [fst snd]. destruct (sc st event) as [st1 b].
    intros (evs & -> & Hw)%IH. exists (event :: evs).
    rewrite reverse_cons, <- app_assoc. done.
Qed.

(** C3, as amended: [ScanIndex] drops the value the scanner returns: it
    behaves as with the scanner that never asks to stop, and when it
    returns without error the events delivered are the whole chain, down
    to an offset that is not positive. *)
Theorem ScanIndex_stops_only_at_chain_end St fuel s index (sc : Scanner St) st :
  ScanIndex fuel s index sc st = ScanIndex fuel s index (never_stopping sc) st
  /\ (forall st' log s',
        ScanIndex fuel s index (recording sc) (st, []) = Ret (None, (st', log), s') ->
        chain_whole index (tail_of s index) (reverse log)).
Proof.
  split.
  - unfold ScanIndex. by rewrite ScanIndex_loop_never_stopping.
  - intros st' log s'. unfold ScanIndex.
    destruct (ScanIndex_loop _ _ _ _ _ _) as [[[err st1] f]| | |] eqn:E;
      cbn [mbind res_bind]; try done.
    intros [= -> -> <-]. apply ScanIndex_loop_whole in E as (evs & -> & Hw).
    by rewrite app_nil_r, reverse_involutive.
Qed.

(** C3, as stated, fails: on the stream holding "a" and then "b" under
    the index u:1, a scanner that asks to stop at every event is still
    given both events. *)
Lemma ScanIndex_delivers_after_stop :
  (forall e, (stop_now tt e).2 = false)
  /\ exists log s',
       ScanIndex 2 example_stream2 "u:1" (recording stop_now) (tt, [])
       = Ret (None, (tt, log), s')
       /\ map Data (reverse log) = [["b"]; ["a"]]%byte.
Proof.
  split; [done|]. eexists _, _. split; [vm_compute; reflexivity|]. reflexivity.
Qed.

(** *** Histories of writes *)

Lemma drop_suffix {A} (l a b : list A) n :
  drop n l = a ++ b -> drop (List.length l - List.length b) l = b.
Proof.
  intros H. rewrite <- (take_drop n l) at 2. rewrite H.
  assert (List.length l = List.length (take n l) + List.length a + List.length b)%nat as ->.
  { rewrite <- (take_drop n l) at 1. rewrite H, !length_app. lia. }
  rewrite app_assoc.
  replace (List.length (take n l) + List.length a + List.length b - List.length b)%nat
    with (List.length (take n l ++ a)) by (rewrite length_app; lia).
  by rewrite drop_app_length.
Qed.

(** An intact record is decoded, and the position is then behind it. *)
Lemma pullEvent_push_rest f e rest :
  File_rest f = push e ++ rest -> encodable e ->
  exists f', pullEvent f = (inl e, f') /\ content f' = content f /\ File_rest f' = rest.
Proof.
  intros Hrest He. unfold pullEvent. rewrite Hrest.
  pose proof (push_body_nonempty e) as Hne.
  destruct (push e ++ rest) as [|b l] eqn:E.
  { unfold push in E. pose proof (uvarint_nonempty (Z.of_nat (List.length (push_body e)))).
    by destruct (uvarint _). }
  rewrite <- E in *. clear E b l. unfold push. rewrite <- app_assoc.
  rewrite read_uvarint_uvarint by (destruct He; unfold MaxInt64 in *; lia).
  destruct (Z.eqb_spec (Z.of_nat (List.length (push_body e))) 0) as [H0|_].
  { destruct (push_body e); simpl in *; [done|lia]. }
  match goal with |- context [?a <? ?b] => destruct (Z.ltb_spec a b) as [Hc|_] end;
    [rewrite length_app in Hc; lia|].
  rewrite Nat2Z.id, take_app_length, pull_body_push by done.
  eexists. split; [done|]. split; [done|].
  unfold File_rest in *. cbn [content pos].
  assert (List.length (drop (Z.to_nat (pos f)) (content f))
          <= List.length (content f))%nat as Hle by (rewrite length_drop; lia).
  rewrite Hrest in Hle. unfold push in Hle. rewrite !length_app in Hle.
  rewrite length_app.
  replace (Z.to_nat _) with (List.length (content f) - List.length rest)%nat by lia.
  by eapply drop_suffix.
Qed.

(** The event a write stores. *)
Definition event_of (s : openStream) (w : list byte * list string) : Event :=
  newEvent w.1 (foldl (fun m index => <[index := tail_of s index]> m) ∅ w.2).

(** A successful write on a stream that satisfies the invariant. *)
Lemma Write_step s data indexes written s' :
  stream_inv s -> Write s data indexes = (written, None, s') ->
  let e := event_of s (data, indexes) in
  encodable e
  /\ written = Z.of_nat (List.length (push e))
  /\ content (stream s') = content (stream s) ++ push e
  /\ tails s' = foldl (fun m index => <[index := offset s]> m) (tails s) indexes
  /\ offset s' = offset s + Z.of_nat (List.length (push e))
  /\ length s' = length s + 1
  /\ closed s' = false.
Proof.
  intros Hinv HW. apply Write_success in HW as (_ & Hoff0 & Hmax & -> & ->).
  destruct Hinv as (Hc & Hoff & Hofm & Hlen & Htl & Hch).
  cbn zeta. unfold event_of. cbn [fst snd].
  set (e := newEvent data _) in *.
  cbn [closed offset stream content tails length].
  rewrite !to_int64_id by (unfold MaxInt64 in *; lia).
  assert (Hcontent :
    take (Z.to_nat (offset s)) (content (stream s))
      ++ repeat x00 (Z.to_nat (offset s) - List.length (content (stream s)))
      ++ push e ++ drop (Z.to_nat (offset s) + List.length (push e)) (content (stream s))
    = content (stream s) ++ push e).
  { rewrite Hoff, Nat2Z.id, take_ge, drop_ge by lia.
    rewrite Nat.sub_diag. cbn [repeat app]. by rewrite app_nil_r. }
  rewrite Hcontent. repeat split; try done.
  - unfold push in Hmax. rewrite length_app in Hmax. lia.
  - subst e. cbn [offsets newEvent] in H.
    rewrite (lookup_foldl_insert (tail_of s)) in H. case_decide; [|done].
    injection H as <-. destruct (Htl index) as [? [->|?]]; lia.
  - subst e. cbn [offsets newEvent] in H.
    rewrite (lookup_foldl_insert (tail_of s)) in H. case_decide; [|done].
    injection H as <-. destruct (Htl index) as [? [->|?]]; lia.
  - apply to_int64_id. pose proof (push_nonempty e).
    destruct (push e); [done|]. simpl in Hmax. unfold MaxInt64 in *. lia.
Qed.

(** A failed write leaves the stream as it was, the position apart. *)
Lemma Write_failure s data indexes written e s' :
  Write s data indexes = (written, Some e, s') ->
  written = 0 /\ content (stream s') = content (stream s) /\ tails s' = tails s
  /\ closed s' = closed s /\ offset s' = offset s /\ length s' = length s.
Proof.
  unfold Write, Closed. destruct (closed s) eqn:Hc; [by intros [= <- _ <-]|].
  unfold File_Seek. destruct (offset s <? 0); [by intros [= <- _ <-]|].
  unfold File_Write. cbn [pos content].
  match goal with |- context [MaxInt64 <? ?b] => destruct (MaxInt64 <? b) end; [|done].
  by intros [= <- _ <-].
Qed.

(** A stream with the events it holds and the writes that stored them,
    oldest first. *)
Inductive hist (hdr : list byte) : openStream -> list Event -> list (list byte * list string) -> Prop :=
| hist_New s : New hdr = inl s -> hist hdr s [] []
| hist_Write s evs ws data indexes written s' :
    hist hdr s evs ws ->
    Write s data indexes = (written, None, s') ->
    hist hdr s' (evs ++ [event_of s (data, indexes)]) (ws ++ [(data, indexes)]).

Lemma write_all_hist hdr : forall ws s1 evs1 ws1 s,
  hist hdr s1 evs1 ws1 -> write_all s1 ws = Some s ->
  exists evs, hist hdr s evs (ws1 ++ ws).
Proof.
  induction ws as [|[data indexes] ws IH]; intros s1 evs1 ws1 s H1 HW.
  - injection HW as <-. rewrite app_nil_r. by eexists.
  - cbn [write_all] in HW.
    destruct (Write s1 data indexes) as [[written [e|]] s2] eqn:E; [done|].
    destruct (IH s2 _ _ s (hist_Write _ _ _ _ _ _ _ _ H1 E) HW) as [evs Hh].
    exists evs. by rewrite <- app_assoc in Hh.
Qed.

Lemma New_write_all_hist hdr s0 ws s :
  New hdr = inl s0 -> write_all s0 ws = Some s -> exists evs, hist hdr s evs ws.
Proof. intros HN HW. by apply (write_all_hist hdr ws s0 [] [] s (hist_New _ _ HN)). Qed.

Lemma hist_built hdr s evs ws : hist hdr s evs ws -> built hdr s.
Proof.
  induction 1 as [s HN|s evs ws data indexes written s' _ IH HW];
    [by apply built_New|by eapply built_Write].
Qed.

Lemma New_content hdr s :
  New hdr = inl s -> content (stream s) = hdr /\ tails s = ∅
  /\ offset s = Z.of_nat (List.length hdr) /\ length s = 0.
Proof.
  unfold New, createOpenStream, File_Seek, File_Write. cbn [pos content].
  destruct (Z.ltb_spec 0 0); [lia|]. cbn [pos].
  destruct (Z.ltb_spec MaxInt64 (0 + Z.of_nat (List.length hdr))) as [|Hmax]; [done|].
  intros [= <-]. cbn [stream content tails offset length].
  rewrite to_int64_id by (unfold MaxInt64 in *; lia).
  by rewrite drop_nil, app_nil_r.
Qed.

(** The file of a stream is its header and the records of its events. *)
Lemma hist_content hdr s evs ws :
  hist hdr s evs ws ->
  content (stream s) = hdr ++ concat (map push evs)
  /\ Forall encodable evs
  /\ length s = Z.of_nat (List.length evs).
Proof.
  induction 1 as [s HN|s evs ws data indexes written s' Hh (IHc & IHe & IHl) HW].
  - apply New_content in HN as (-> & _ & _ & ->). by rewrite app_nil_r.
  - apply Write_step in HW as (He & _ & -> & _ & _ & -> & _);
      [|by eapply built_inv, hist_built].
    rewrite IHc, map_app, concat_app, length_app. cbn [map concat List.length].
    rewrite app_nil_r, app_assoc. split; [done|]. split; [|lia].
    apply Forall_app. by split; [|apply Forall_singleton].
Qed.

(** Every event holds the data of its write under the labels of that
    write. *)
Definition stores (e : Event) (w : list byte * list string) : Prop :=
  Data e = w.1 /\ forall index, is_Some (offsets e !! index) <-> index ∈ w.2.

Lemma event_of_stores s w : stores (event_of s w) w.
Proof.
  split; [done|]. intros index. unfold event_of. cbn [offsets newEvent].
  rewrite (lookup_foldl_insert (tail_of s)). case_decide.
  - split; [done|by eexists].
  - rewrite lookup_empty. split; [by intros [? ?]|done].
Qed.

Lemma hist_stores hdr s evs ws : hist hdr s evs ws -> Forall2 stores evs ws.
Proof.
  induction 1 as [s HN|s evs ws data indexes written s' Hh IH HW]; [constructor|].
  apply Forall2_app; [done|]. repeat constructor; apply event_of_stores.
Qed.

(** *** Iterate *)

Lemma length_concat_push (evs : list Event) :
  (List.length evs <= List.length (concat (map push evs)))%nat.
Proof.
  induction evs as [|e evs IH]; [done|]. cbn [map concat List.length].
  rewrite length_app. pose proof (push_nonempty e).
  destruct (push e); [done|]. simpl. lia.
Qed.

Lemma pullEvent_end f : File_rest f = [] -> pullEvent f = (inr EOF, f).
Proof. intros H. unfold pullEvent. by rewrite H. Qed.

Lemma Iterate_loop_events {St} (sc : Scanner St) : forall evs fuel f st,
  File_rest f = concat (map push evs) -> Forall encodable evs ->
  (List.length evs < fuel)%nat ->
  exists f', Iterate_loop fuel f sc st = Ret (None, deliver sc st evs, f')
             /\ content f' = content f.
Proof.
  induction evs as [|e evs IH]; intros fuel f st Hrest Henc Hfuel.
  - destruct fuel as [|fuel]; [lia|]. cbn [Iterate_loop].
    rewrite pullEvent_end by done. by exists f.
  - destruct fuel as [|fuel]; [simpl in Hfuel; lia|]. cbn [Iterate_loop].
    apply Forall_cons in Henc as [He Henc].
    destruct (pullEvent_push_rest f e (concat (map push evs)) Hrest He)
      as (f1 & -> & Hc1 & Hrest1).
    destruct (sc st e) as [st1 b] eqn:Hsc.
    destruct (IH fuel f1 st1 Hrest1 Henc ltac:(simpl in Hfuel; lia)) as (f' & -> & Hc').
    exists f'. unfold deliver. cbn [foldl]. rewrite Hsc. split; [done|congruence].
Qed.

(** X14: after [New] and any sequence of successful writes, [Iterate]
    with more rounds of fuel than writes returns without error, having
    given the scanner one event for every write, oldest first: the event
    holds the data of the write and carries exactly its index labels.
    The stream's tails, offset and length are as before. *)
Theorem Iterate_delivers_the_writes_in_order hdr s0 ws s St (sc : Scanner St) st fuel :
  New hdr = inl s0 ->
  write_all s0 ws = Some s ->
  (List.length ws < fuel)%nat ->
  exists evs s',
    Iterate hdr fuel s sc st = Ret (None, deliver sc st evs, s')
    /\ Forall2 (fun e w => Data e = w.1
                  /\ forall index, is_Some (offsets e !! index) <-> index ∈ w.2) evs ws
    /\ tails s' = tails s /\ offset s' = offset s /\ length s' = length s
    /\ content (stream s') = content (stream s).
Proof.
  intros HN HW Hfuel. destruct (New_write_all_hist _ _ _ _ HN HW) as [evs Hh].
  pose proof (hist_content _ _ _ _ Hh) as (Hc & Henc & _).
  pose proof (hist_stores _ _ _ _ Hh) as Hst.
  pose proof (Forall2_length _ _ _ Hst) as Hlen.
  unfold Iterate, File_Seek.
  destruct (Z.ltb_spec (Z.of_nat (List.length hdr)) 0); [lia|].
  destruct (Iterate_loop_events sc evs fuel
              (mkFile (content (stream s)) (Z.of_nat (List.length hdr))) st)
    as (f' & -> & Hc'); [|done|lia|].
  { unfold File_rest. cbn [content pos]. by rewrite Hc, Nat2Z.id, drop_app_length. }
  exists evs, (with_stream s f'). cbn [mbind res_bind]. by repeat split.
Qed.

Lemma Iterate_delivers_the_writes_in_order_witness :
  exists evs s',
    Iterate example_header 3 example_stream2 (recording stop_now) (tt, []) =
      Ret (None, deliver (recording stop_now) (tt, []) evs, s')
    /\ Forall2 (fun e w => Data e = w.1
                  /\ forall index, is_Some (offsets e !! index) <-> index ∈ w.2) evs
         [(["a"]%byte, ["u:1"%string]); (["b"]%byte, ["u:1"%string; "t:x"%string])]
    /\ tails s' = tails example_stream2 /\ offset s' = offset example_stream2
    /\ length s' = length example_stream2
    /\ content (stream s') = content (stream example_stream2).
Proof.
  apply (Iterate_delivers_the_writes_in_order example_header example_stream0
           [(["a"]%byte, ["u:1"%string]); (["b"]%byte, ["u:1"%string; "t:x"%string])]
           example_stream2 _ (recording stop_now) (tt, []) 3%nat).
  - vm_compute. reflexivity.
  - vm_compute. reflexivity.
  - simpl. lia.
Defined.

(** *** Write *)

(** X13: a [Write] on a stream built by [New] and earlier writes only
    appends: the bytes already in the file stay as they are, the file
    grows by the number of bytes reported, and the tail of every index
    label that was not supplied is unchanged. A [Write] that returns an
    error reports 0 bytes and leaves the file, the tails, the offset and
    the length as they were. *)
Theorem Write_appends_or_changes_nothing hdr s data indexes written err s' :
  built hdr s ->
  Write s data indexes = (written, err, s') ->
  take (List.length (content (stream s))) (content (stream s')) = content (stream s)
  /\ Z.of_nat (List.length (content (stream s')))
     = Z.of_nat (List.length (content (stream s))) + written
  /\ (forall index, index ∉ indexes -> tails s' !! index = tails s !! index)
  /\ (err <> None ->
      written = 0 /\ content (stream s') = content (stream s) /\ tails s' = tails s
      /\ offset s' = offset s /\ length s' = length s).
Proof.
  intros Hb HW. destruct err as [e|].
  - apply Write_failure in HW as (-> & -> & -> & _ & -> & ->).
    rewrite firstn_all. repeat split; try done. lia.
  - apply Write_step in HW as (_ & -> & -> & -> & _); [|by eapply built_inv].
    rewrite take_app_length, length_app. repeat split; try done; [lia|].
    intros index Hnin. rewrite (lookup_foldl_insert (fun _ => offset s)).
    by rewrite decide_False.
Qed.

Lemma Write_appends_or_changes_nothing_witness :
  take (List.length (content (stream example_stream1))) (content (stream example_stream2))
    = content (stream example_stream1)
  /\ Z.of_nat (List.length (content (stream example_stream2)))
     = Z.of_nat (List.length (content (stream example_stream1))) + 13
  /\ (forall index, index ∉ ["u:1"%string; "t:x"%string] ->
      tails example_stream2 !! index = tails example_stream1 !! index)
  /\ (@None error <> None ->
      13 = 0 /\ content (stream example_stream2) = content (stream example_stream1)
      /\ tails example_stream2 = tails example_stream1
      /\ offset example_stream2 = offset example_stream1
      /\ length example_stream2 = length example_stream1).
Proof.
  apply (Write_appends_or_changes_nothing example_header example_stream1
           ["b"]%byte ["u:1"%string; "t:x"%string] 13 None example_stream2).
  - apply (built_Write _ example_stream0 ["a"]%byte ["u:1"%string]
             (Write example_stream0 ["a"]%byte ["u:1"%string]).1 example_stream1).
    + apply built_New. vm_compute. reflexivity.
    + vm_compute. reflexivity.
  - vm_compute. reflexivity.
Defined.

(** *** ScanIndex *)

(** The events that following the chain of [index] from the offset [t]
    meets in the content [c]. *)
Inductive chain_of (c : list byte) (index : string) : Z -> list Event -> Prop :=
| chain_of_end t : t <= 0 -> chain_of c index t []
| chain_of_hop t e rest evs :
    0 < t ->
    drop (Z.to_nat t) c = push e ++ rest ->
    encodable e ->
    chain_of c index (next_of e index) evs ->
    chain_of c index t (e :: evs).

Lemma chain_of_app c more index t evs :
  chain_of c index t evs -> chain_of (c ++ more) index t evs.
Proof.
  induction 1 as [t Ht|t e rest evs Ht Hdrop He _ IH]; [by constructor|].
  apply (chain_of_hop _ _ t e (rest ++ more)); try done.
  assert (Z.to_nat t < List.length c)%nat as Hin.
  { destruct (Nat.lt_ge_cases (Z.to_nat t) (List.length c)) as [|Hge]; [done|].
    rewrite drop_ge in Hdrop by done. symmetry in Hdrop.
    apply app_eq_nil in Hdrop as [Hp _]. by apply push_nonempty in Hp. }
  rewrite drop_app_le by lia. rewrite Hdrop. by rewrite <- app_assoc.
Qed.

Definition carries (index : string) (e : Event) : Prop := is_Some (offsets e !! index).

#[local] Instance carries_dec index e : Decision (carries index e).
Proof. unfold carries. apply _. Defined.

(** Under a header that is not empty, the chain of every index holds
    the events that carry it, newest first. *)
Lemma hist_chain hdr s evs ws index :
  hdr <> [] -> hist hdr s evs ws ->
  chain_of (content (stream s)) index (tail_of s index)
           (reverse (filter (carries index) evs)).
Proof.
  intros Hhdr. induction 1 as [s HN|s evs ws data indexes written s' Hh IH HW].
  - apply New_content in HN as (_ & Ht & _). constructor.
    unfold tail_of. by rewrite Ht, lookup_empty.
  - pose proof (built_inv _ _ (hist_built _ _ _ _ Hh)) as Hinv.
    pose proof (hist_content _ _ _ _ Hh) as (Hc & _ & _).
    pose proof (event_of_stores s (data, indexes)) as [_ Hcar].
    apply Write_step in HW as (He & _ & Hc' & Ht' & _); [|done].
    destruct Hinv as (_ & Hoff & _ & _ & Htl & _).
    rewrite Hc'. unfold tail_of. rewrite Ht', tail_of_foldl.
    rewrite filter_app, reverse_app.
    destruct (decide (index ∈ indexes)) as [Hin|Hnin].
    + rewrite filter_cons_True by (by apply Hcar).
      rewrite filter_nil. cbn [reverse app]. rewrite reverse_singleton. cbn [app].
      apply (chain_of_hop _ _ _ _ []).
      * rewrite Hoff, Hc, length_app. destruct hdr; [done|]. simpl. lia.
      * by rewrite Hoff, Nat2Z.id, drop_app_length, app_nil_r.
      * done.
      * replace (next_of _ index) with (tail_of s index); [by apply chain_of_app|].
        unfold next_of, event_of. cbn [offsets newEvent snd].
        rewrite (lookup_foldl_insert (tail_of s)). by rewrite decide_True.
    + rewrite filter_cons_False by (by rewrite <- Hcar in Hnin).
      rewrite filter_nil. cbn [reverse app]. by apply chain_of_app.
Qed.

Lemma ScanIndex_loop_chain_of c index t evs :
  chain_of c index t evs ->
  forall fuel f St (sc : Scanner St) st,
    content f = c -> (List.length evs <= fuel)%nat ->
    exists f',
      ScanIndex_loop fuel f index sc st t = Ret (None, deliver sc st evs, f')
      /\ content f' = c.
Proof.
  induction 1 as [t Ht|t e rest evs Ht Hdrop He _ IH];
    intros fuel f St sc st Hc Hfuel.
  - exists f. destruct fuel; cbn [ScanIndex_loop];
      (destruct (Z.ltb_spec 0 t); [lia|done]).
  - destruct fuel as [|fuel]; [simpl in Hfuel; lia|]. cbn [ScanIndex_loop].
    destruct (Z.ltb_spec 0 t); [|lia].
    unfold File_Seek. destruct (Z.ltb_spec t 0); [lia|].
    destruct (pullEvent_push (mkFile (content f) t) e rest) as [f1 Hpull];
      [by rewrite <- Hc in Hdrop|done|].
    pose proof (pullEvent_content (mkFile (content f) t)) as Hc1.
    rewrite Hpull in *. cbn [snd content] in Hc1.
    destruct (sc st e) as [st1 b] eqn:Hsc.
    destruct (IH fuel f1 St sc st1 ltac:(congruence) ltac:(simpl in Hfuel; lia))
      as (f' & -> & Hc').
    exists f'. unfold deliver. cbn [foldl]. by rewrite Hsc.
Qed.

Lemma Forall2_filter_stores index : forall evs ws,
  Forall2 stores evs ws ->
  Forall2 stores (filter (carries index) evs) (filter (fun w => index ∈ w.2) ws).
Proof.
  induction 1 as [|e w evs ws [Hd Hcar] _ IH]; [constructor|].
  destruct (decide (index ∈ w.2)) as [Hin|Hnin].
  - rewrite filter_cons_True by (by apply Hcar). rewrite (filter_cons_True _ w) by done.
    by constructor.
  - rewrite filter_cons_False by (by rewrite <- Hcar in Hnin).
    by rewrite (filter_cons_False _ w) by done.
Qed.

(** X15: after [New] with a header that is not empty and any sequence
    of successful writes, [ScanIndex] for an index label with as many
    rounds of fuel as writes returns without error, having given the
    scanner exactly the events of the writes that supplied the label,
    newest first: each event holds the data of its write and carries
    exactly the labels of that write. *)
Theorem ScanIndex_visits_the_writes_of_the_index hdr s0 ws s index St (sc : Scanner St) st fuel :
  hdr <> [] ->
  New hdr = inl s0 ->
  write_all s0 ws = Some s ->
  (List.length ws <= fuel)%nat ->
  exists evs s',
    ScanIndex fuel s index sc st = Ret (None, deliver sc st evs, s')
    /\ Forall2 (fun e w => Data e = w.1
                  /\ forall index, is_Some (offsets e !! index) <-> index ∈ w.2)
               evs (carrying index ws).
Proof.
  intros Hhdr HN HW Hfuel. destruct (New_write_all_hist _ _ _ _ HN HW) as [evs Hh].
  pose proof (hist_chain _ _ _ _ index Hhdr Hh) as Hch.
  pose proof (hist_stores _ _ _ _ Hh) as Hst.
  pose proof (Forall2_length _ _ _ Hst) as Hlen.
  destruct (ScanIndex_loop_chain_of _ _ _ _ Hch fuel (stream s) St sc st eq_refl)
    as (f' & Hloop & _).
  { rewrite length_reverse. pose proof (length_filter (carries index) evs). lia. }
  exists (reverse (filter (carries index) evs)), (with_stream s f').
  unfold ScanIndex. rewrite Hloop. cbn [mbind res_bind]. split; [done|].
  unfold carrying. apply Forall2_reverse. by apply Forall2_filter_stores.
Qed.

Lemma ScanIndex_visits_the_writes_of_the_index_witness :
  exists evs s',
    ScanIndex 2 example_stream2 "t:x" (recording stop_now) (tt, []) =
      Ret (None, deliver (recording stop_now) (tt, []) evs, s')
    /\ Forall2 (fun e w => Data e = w.1
                  /\ forall index, is_Some (offsets e !! index) <-> index ∈ w.2)
               evs
               (carrying "t:x"
                  [(["a"]%byte, ["u:1"%string]); (["b"]%byte, ["u:1"%string; "t:x"%string])]).
Proof.
  apply (ScanIndex_visits_the_writes_of_the_index example_header example_stream0
           [(["a"]%byte, ["u:1"%string]); (["b"]%byte, ["u:1"%string; "t:x"%string])]
           example_stream2 "t:x" _ (recording stop_now) (tt, []) 2%nat).
  - discriminate.
  - vm_compute. reflexivity.
  - vm_compute. reflexivity.
  - simpl. lia.
Defined.

(** *** Reopening: newOpenStream and scan *)

Lemma bytes_eqb_eq a : forall b, bytes_eqb a b = true <-> a = b.
Proof.
  induction a as [|x a IH]; intros [|y b]; cbn [bytes_eqb]; try done.
  rewrite andb_true_iff, IH. split.
  - intros [->%Byte.byte_dec_bl ->]. done.
  - intros [= -> ->]. split; [by apply Byte.byte_dec_lb|done].
Qed.

(** What [scan] computes from the events of a file: the tails and the
    offset behind the last event. *)
Fixpoint replay (tl : gmap string Z) (off : Z) (evs : list Event) : gmap string Z * Z :=
  match evs with
  | [] => (tl, off)
  | e :: evs' =>
      replay (((fun _ => off) <$> offsets e) ∪ tl) (off + Z.of_nat (List.length (push e))) evs'
  end.

Lemma replay_app evs1 : forall tl off evs2,
  replay tl off (evs1 ++ evs2) = replay (replay tl off evs1).1 (replay tl off evs1).2 evs2.
Proof. induction evs1 as [|e evs1 IH]; intros tl off evs2; [done|]. apply IH. Qed.

Lemma replay_offset_le evs : forall tl off, off <= (replay tl off evs).2.
Proof.
  induction evs as [|e evs IH]; intros tl off; [simpl; lia|].
  cbn [replay]. etransitivity; [|apply IH]. lia.
Qed.

Lemma hist_replay hdr s evs ws :
  hist hdr s evs ws -> replay ∅ (Z.of_nat (List.length hdr)) evs = (tails s, offset s).
Proof.
  induction 1 as [s HN|s evs ws data indexes written s' Hh IH HW].
  - apply New_content in HN as (_ & -> & -> & _). done.
  - apply Write_step in HW as (_ & _ & _ & -> & -> & _);
      [|by eapply built_inv, hist_built].
    rewrite replay_app, IH. cbn [replay fst snd]. f_equal.
    apply map_eq. intros index.
    rewrite lookup_union, lookup_fmap, (lookup_foldl_insert (fun _ => offset s)).
    unfold event_of. cbn [offsets newEvent snd].
    rewrite (lookup_foldl_insert (tail_of s)). case_decide.
    + cbn. by destruct (tails s !! index).
    + rewrite lookup_empty. cbn. by destruct (tails s !! index).
Qed.

(** No record starts with these bytes: decoding them ends the scan. *)
Definition no_event (tail : list byte) : Prop :=
  forall f, File_rest f = tail ->
    exists err, pullEvent f = (inr err, f) /\ (err = EOF \/ err = CORRUPTED_EVENT).

Lemma no_event_nil : no_event [].
Proof. intros f Hf. exists EOF. rewrite pullEvent_end by done. by split; [|left]. Qed.

Lemma scan_loop_replays : forall evs fuel f tl off len tail,
  File_rest f = concat (map push evs) ++ tail ->
  Forall encodable evs -> no_event tail ->
  (List.length evs < fuel)%nat ->
  0 <= off -> (replay tl off evs).2 <= MaxInt64 ->
  0 <= len -> len + Z.of_nat (List.length evs) <= MaxInt64 ->
  exists err f',
    scan_loop fuel f tl off len
    = Ret ((replay tl off evs).1, (replay tl off evs).2,
           len + Z.of_nat (List.length evs), err, f')
    /\ (err = EOF \/ err = CORRUPTED_EVENT)
    /\ content f' = content f.
Proof.
  induction evs as [|e evs IH];
    intros fuel f tl off len tail Hrest Henc Htail Hfuel Hoff Hmax Hlen Hlmax.
  - destruct fuel as [|fuel]; [lia|]. cbn [scan_loop].
    destruct (Htail f Hrest) as (err & -> & Herr).
    exists err, f. cbn [replay fst snd List.length]. by rewrite Z.add_0_r.
  - destruct fuel as [|fuel]; [simpl in Hfuel; lia|]. cbn [scan_loop].
    apply Forall_cons in Henc as [He Henc].
    cbn [map concat] in Hrest. rewrite <- app_assoc in Hrest.
    destruct (pullEvent_push_rest f e _ Hrest He) as (f1 & -> & Hc1 & Hrest1).
    cbn [replay List.length] in *.
    pose proof (replay_offset_le evs (((fun _ => off) <$> offsets e) ∪ tl)
                  (off + Z.of_nat (List.length (push e)))) as Hle.
    unfold Event_length.
    rewrite !to_int64_id by (unfold MaxInt64 in *; lia).
    destruct (IH fuel f1 (((fun _ => off) <$> offsets e) ∪ tl)
                (off + Z.of_nat (List.length (push e))) (len + 1) tail
                Hrest1 Henc Htail ltac:(lia) ltac:(lia) Hmax ltac:(lia) ltac:(lia))
      as (err & f' & -> & Herr & Hc').
    exists err, f'. split; [|split; [done|congruence]].
    do 4 f_equal. lia.
Qed.

Lemma File_rest_0 c : File_rest (mkFile c 0) = c.
Proof. done. Qed.

(** Reopening the file of a stream, whatever undecodable bytes follow
    its last record. *)
Lemma newOpenStream_hist hdr s evs ws tail p :
  hist hdr s evs ws -> no_event tail ->
  exists s',
    newOpenStream hdr (mkFile (content (stream s) ++ tail) p) = Ret (Some s', None)
    /\ tails s' = tails s /\ offset s' = offset s /\ length s' = length s
    /\ closed s' = false /\ content (stream s') = content (stream s) ++ tail.
Proof.
  intros Hh Htail.
  pose proof (hist_content _ _ _ _ Hh) as (Hc & Henc & Hlen).
  pose proof (hist_replay _ _ _ _ Hh) as Hrep.
  pose proof (built_inv _ _ (hist_built _ _ _ _ Hh)) as (_ & Hoff & Hofm & Hl & _).
  unfold newOpenStream, File_Seek. destruct (Z.ltb_spec 0 0); [lia|].
  cbn [content]. unfold scan, ReadBytes. cbn [content pos].
  rewrite Hc, <- app_assoc, !File_rest_0, Nat2Z.id, !take_app_length.
  assert (bytes_eqb hdr hdr = true) as -> by (by apply bytes_eqb_eq).
  cbn [negb].
  assert (Z.of_nat (List.length hdr) <= offset s) as Hhl.
  { rewrite Hoff, Hc, length_app. lia. }
  rewrite to_int64_id by (unfold MaxInt64 in *; lia). rewrite Z.add_0_l.
  destruct (scan_loop_replays evs
              (S (List.length (hdr ++ concat (map push evs) ++ tail)))
              (mkFile (hdr ++ concat (map push evs) ++ tail)
                      (Z.of_nat (List.length hdr)))
              ∅ (Z.of_nat (List.length hdr)) 0 tail)
    as (err & f' & -> & Herr & Hc'); try done; try lia.
  - unfold File_rest. cbn [content pos].
    replace (Z.to_nat _) with (List.length hdr) by lia. by rewrite drop_app_length.
  - rewrite !length_app. pose proof (length_concat_push evs). lia.
  - rewrite Hrep. done.
  - rewrite Hrep. cbn [mbind res_bind fst snd].
    eexists. split.
    + destruct Herr as [-> | ->]; reflexivity.
    + cbn [tails offset length closed stream]. rewrite Hc'. cbn [content].
      repeat split; try done; lia.
Qed.

(** X16: the file of a stream built by [New] and any sequence of
    successful writes, opened again with [newOpenStream], gives without
    error an open stream with the same tails, offset and length. *)
Theorem newOpenStream_rebuilds_the_stream hdr s0 ws s p :
  New hdr = inl s0 ->
  write_all s0 ws = Some s ->
  exists s',
    newOpenStream hdr (mkFile (content (stream s)) p) = Ret (Some s', None)
    /\ tails s' = tails s /\ offset s' = offset s /\ length s' = length s
    /\ closed s' = false /\ content (stream s') = content (stream s).
Proof.
  intros HN HW. destruct (New_write_all_hist _ _ _ _ HN HW) as [evs Hh].
  destruct (newOpenStream_hist hdr s evs ws [] p Hh no_event_nil) as (s' & H).
  rewrite app_nil_r in H. by exists s'.
Qed.

Lemma newOpenStream_rebuilds_the_stream_witness :
  exists s',
    newOpenStream example_header (mkFile (content (stream example_stream2)) 0)
      = Ret (Some s', None)
    /\ tails s' = tails example_stream2 /\ offset s' = offset example_stream2
    /\ length s' = length example_stream2
    /\ closed s' = false /\ content (stream s') = content (stream example_stream2).
Proof.
  apply (newOpenStream_rebuilds_the_stream example_header example_stream0
           [(["a"]%byte, ["u:1"%string]); (["b"]%byte, ["u:1"%string; "t:x"%string])]
           example_stream2 0).
  - vm_compute. reflexivity.
  - vm_compute. reflexivity.
Defined.

(** A varint cut short does not decode. *)
Lemma read_uvarint_loop_torn n : forall x k,
  (k < List.length (uvarint_loop n x))%nat ->
  read_uvarint_loop n (take k (uvarint_loop n x)) = None.
Proof.
  induction n as [|n IH]; intros x k Hk; [done|].
  cbn [uvarint_loop] in *. destruct (Z.ltb_spec x 128) as [Hlt|Hge].
  - simpl in Hk. assert (k = 0%nat) as -> by lia. done.
  - destruct k as [|k]; [done|]. cbn [take read_uvarint_loop].
    pose proof (Z.mod_pos_bound x 128 ltac:(lia)).
    rewrite Z_of_byte_of_Z_small by lia.
    destruct (Z.ltb_spec (x mod 128 + 128) 128); [lia|].
    rewrite IH; [done|]. simpl in Hk. lia.
Qed.

(** A record cut short is not an event. *)
Lemma no_event_torn e k :
  encodable e -> (k < List.length (push e))%nat -> no_event (take k (push e)).
Proof.
  intros [Hlen _] Hk f Hrest. unfold pullEvent. rewrite Hrest.
  destruct (take k (push e)) as [|b l] eqn:E; [exists EOF; by split; [|left]|].
  rewrite <- E in *. clear E b l. unfold push in *.
  set (u := uvarint (Z.of_nat (List.length (push_body e)))) in *.
  destruct (Nat.lt_ge_cases k (List.length u)) as [Hlt|Hge].
  - rewrite take_app_le by lia. unfold read_uvarint. subst u. unfold uvarint in *.
    rewrite read_uvarint_loop_torn by done.
    exists CORRUPTED_EVENT. by split; [|right].
  - rewrite take_app_ge by done. subst u.
    rewrite read_uvarint_uvarint by (unfold MaxInt64 in *; lia).
    destruct (_ =? 0); [exists EOF; by split; [|left]|].
    rewrite length_app in Hk.
    match goal with |- context [?a <? ?b] => destruct (Z.ltb_spec a b) as [_|Hc] end.
    + exists CORRUPTED_EVENT. by split; [|right].
    + rewrite length_take in Hc. lia.
Qed.

(** X17: when the file of a stream is cut anywhere inside the record of
    its last write, [newOpenStream] gives without error the stream as it
    was before that write: the same tails, offset and length. *)
Theorem newOpenStream_drops_a_torn_last_record hdr s0 ws s1 data indexes written s2 k p :
  New hdr = inl s0 ->
  write_all s0 ws = Some s1 ->
  Write s1 data indexes = (written, None, s2) ->
  0 <= k < written ->
  exists s',
    newOpenStream hdr (mkFile (take (Z.to_nat (offset s1 + k)) (content (stream s2))) p)
      = Ret (Some s', None)
    /\ tails s' = tails s1 /\ offset s' = offset s1 /\ length s' = length s1
    /\ closed s' = false.
Proof.
  intros HN HW HW2 Hk. destruct (New_write_all_hist _ _ _ _ HN HW) as [evs Hh].
  pose proof (built_inv _ _ (hist_built _ _ _ _ Hh)) as Hinv.
  pose proof Hinv as (_ & Hoff & _).
  apply Write_step in HW2 as (He & -> & -> & _); [|done].
  destruct (newOpenStream_hist hdr s1 evs ws
              (take (Z.to_nat k) (push (event_of s1 (data, indexes)))) p Hh)
    as (s' & Hopen & Ht & Ho & Hl & Hcl & _).
  { apply no_event_torn; [done|lia]. }
  exists s'. rewrite take_app_ge by lia.
  replace (Z.to_nat (offset s1 + k) - List.length (content (stream s1)))%nat
    with (Z.to_nat k) by lia.
  by rewrite Hopen.
Qed.

Lemma newOpenStream_drops_a_torn_last_record_witness :
  exists s',
    newOpenStream example_header
      (mkFile (take (Z.to_nat (offset example_stream1 + 6)) (content (stream example_stream2))) 0)
      = Ret (Some s', None)
    /\ tails s' = tails example_stream1 /\ offset s' = offset example_stream1
    /\ length s' = length example_stream1
    /\ closed s' = false.
Proof.
  apply (newOpenStream_drops_a_torn_last_record example_header example_stream0
           [(["a"]%byte, ["u:1"%string])] example_stream1
           ["b"]%byte ["u:1"%string; "t:x"%string] 13 example_stream2 6 0).
  - vm_compute. reflexivity.
  - vm_compute. reflexivity.
  - vm_compute. reflexivity.
  - lia.
Defined.

Lemma pullEvent_error f err f1 :
  pullEvent f = (inr err, f1) -> (err = EOF \/ err = CORRUPTED_EVENT) /\ f1 = f.
Proof.
  unfold pullEvent. repeat case_match; intros [= <- <-]; auto.
Qed.

Lemma scan_loop_total : forall fuel f tl off len,
  (List.length (File_rest f) < fuel)%nat ->
  exists tl' off' len' err f',
    scan_loop fuel f tl off len = Ret (tl', off', len', err, f')
    /\ (err = EOF \/ err = CORRUPTED_EVENT) /\ content f' = content f.
Proof.
  induction fuel as [|fuel IH]; intros f tl off len Hfuel; [lia|].
  cbn [scan_loop]. destruct (pullEvent f) as [[e|err] f1] eqn:E.
  - apply pullEvent_progress in E as [Hc Hlt].
    destruct (IH f1 (((fun _ => off) <$> offsets e) ∪ tl)
                (to_int64 (off + Event_length e)) (to_int64 (len + 1)) ltac:(lia))
      as (tl' & off' & len' & err & f' & -> & Herr & Hc').
    exists tl', off', len', err, f'. split; [done|]. split; [done|congruence].
  - apply pullEvent_error in E as [Herr ->]. by exists tl, off, len, err, f.
Qed.

(** X18: [newOpenStream] returns an open stream on every file. When the
    file does not start with the header, the error is [CORRUPTED_HEADER]
    and the stream has no tails, offset 0 and length 0. When it does,
    no error is reported, whatever bytes follow the header: a record
    that does not decode ends the scan silently. The file's bytes are
    left as they are. *)
Theorem newOpenStream_returns_on_any_file hdr f :
  exists s err,
    newOpenStream hdr f = Ret (Some s, err)
    /\ closed s = false
    /\ content (stream s) = content f
    /\ (take (List.length hdr) (content f) = hdr /\ err = None
        \/ take (List.length hdr) (content f) <> hdr /\ err = Some CORRUPTED_HEADER
           /\ tails s = ∅ /\ offset s = 0 /\ length s = 0).
Proof.
  unfold newOpenStream, File_Seek. destruct (Z.ltb_spec 0 0); [lia|].
  unfold scan, ReadBytes. cbn [content pos]. rewrite !File_rest_0, Nat2Z.id.
  destruct (bytes_eqb (take (List.length hdr) (content f)) hdr) eqn:E; cbn [negb].
  - apply bytes_eqb_eq in E.
    destruct (scan_loop_total (S (List.length (content f)))
                (mkFile (content f)
                   (0 + Z.of_nat (List.length (take (List.length hdr) (content f)))))
                ∅ (to_int64 (0 + Z.of_nat (List.length (take (List.length hdr) (content f))))) 0)
      as (tl' & off' & len' & err & f' & -> & Herr & Hc').
    { unfold File_rest. cbn [content pos]. rewrite length_drop. lia. }
    cbn [mbind res_bind]. eexists _, _. split; [reflexivity|].
    cbn [closed stream]. split; [done|]. split; [done|]. left. split; [done|].
    by destruct Herr as [-> | ->].
  - cbn [mbind res_bind]. eexists _, _. split; [reflexivity|].
    cbn [closed stream content tails offset length].
    split; [done|]. split; [done|]. right. split; [|done].
    intros Heq. apply bytes_eqb_eq in Heq. congruence.
Qed.

End StreamTheory.

(** ** The stream manager *)

Module ClusterTheory.
Import Cluster.

(** *** Write *)

(** C9: a [Write] whose commit is not above [current] returns nil and
    leaves the DB as it was: nothing is appended, and [current],
    [closed], [MostRecent] and the open stream are untouched. *)
Theorem Write_old_commit_is_dropped db commit body indexes timestamp :
  (commit <= current db)%N ->
  Write db commit body indexes timestamp = Ret (None, db).
Proof.
  intros H. unfold Write. by destruct (N.leb_spec commit (current db)); [|lia].
Qed.

Lemma Write_old_commit_is_dropped_witness :
  exists db,
    NewDb ∅ ∅ ∅ ∅ = Ret db
    /\ (1 <= current db)%N
    /\ Write db 1 ["a"]%byte (index1 "u" "1") 100 = Ret (None, db).
Proof.
  eexists. split; [vm_compute; reflexivity|].
  split; [vm_compute; discriminate|].
  apply Write_old_commit_is_dropped. vm_compute. discriminate.
Defined.

(** *** Rotate *)

Lemma addClosed_elem db commit : commit ∈ closed (addClosed db commit).
Proof.
  unfold addClosed. destruct (existsb _ _) eqn:E.
  - apply existsb_exists in E as (c & Hin & ->%N.eqb_eq).
    by apply list_elem_of_In.
  - cbn [set_closed closed]. apply elem_of_app. right. by left.
Qed.

Lemma addClosed_id db commit : commit ∈ closed db -> addClosed db commit = db.
Proof.
  intros Hin. unfold addClosed.
  destruct (existsb _ _) eqn:E; [done|].
  assert (existsb (N.eqb commit) (closed db) = true) as E'; [|congruence].
  apply existsb_exists. exists commit. split; [by apply list_elem_of_In|].
  apply N.eqb_refl.
Qed.

(** [retrieveStream] yields a closed stream that is not the DB's own. *)
Lemma retrieveStream_closed_cached db commit fetch h db' :
  stream_is_open db ->
  retrieveStream db commit fetch = Ret (Some h, None, db') ->
  handle_Closed db' h = Ret true ->
  cached db' commit = Some h
  /\ closed db' = closed db /\ current db' = current db
  /\ stream db' = stream db.
Proof.
  intros Hopen. unfold retrieveStream.
  destruct (_ && _) eqn:Hcur.
  - intros [= Hs <-] Hc. exfalso.
    unfold handle_Closed, deref in Hc.
    destruct (inodes db !! h) as [s|] eqn:Hi; cbn [mbind res_bind] in Hc; [|done].
    injection Hc as Hc. unfold Stream.Closed in Hc.
    by rewrite (Hopen h s Hs Hi) in Hc.
  - destruct (cached db commit) as [h0|] eqn:Hcache.
    + by intros [= <- <-] _.
    + destruct (stream_Open db commit) as [h0|e].
      * destruct (handle_Closed db h0) as [[|]| | |]; cbn [mbind res_bind]; try done.
        -- intros [= <- <-] _. unfold cached. cbn [set_streams streams closed current stream].
           by rewrite lookup_insert_eq.
        -- destruct fetch; cbn [andb].
           ++ destruct (RecoverStream db commit) as [[h1|e1] db1] eqn:HR; [|done].
              intros [= <- <-] _. unfold cached.
              cbn [set_streams streams closed current stream].
              rewrite lookup_insert_eq. split; [done|].
              unfold RecoverStream in HR. destruct (peers db !! commit); [|done].
              by injection HR as <- <-.
           ++ intros [= Hn]. revert Hn. unfold cached. cbn [set_streams streams].
              by rewrite lookup_insert_eq.
      * cbn [mbind res_bind]. destruct e; try done.
        destruct fetch; cbn [andb]; [|done].
        destruct (RecoverStream db commit) as [[h1|e1] db1] eqn:HR; [|done].
        intros [= <- <-] _. unfold cached.
        cbn [set_streams streams closed current stream].
        rewrite lookup_insert_eq. split; [done|].
        unfold RecoverStream in HR. destruct (peers db !! commit); [|done].
        by injection HR as <- <-.
Qed.

Lemma addClosed_fields db commit :
  current (addClosed db commit) = current db
  /\ stream (addClosed db commit) = stream db
  /\ streams (addClosed db commit) = streams db
  /\ inodes (addClosed db commit) = inodes db
  /\ files (addClosed db commit) = files db
  /\ tmpfiles (addClosed db commit) = tmpfiles db.
Proof. unfold addClosed. by destruct (existsb _ _). Qed.

(** C5, as amended: on the replay path, where [retrieveStream] finds a
    closed stream for [commit], a second [Rotate(commit, term)] leaves
    the DB exactly as the first left it. *)
Theorem Rotate_replay_is_idempotent db commit term h db' :
  stream_is_open db ->
  retrieveStream db commit false = Ret (Some h, None, db') ->
  handle_Closed db' h = Ret true ->
  exists db1,
    Rotate db commit term = Ret (None, db1)
    /\ Rotate db1 commit term = Ret (None, db1).
Proof.
  intros Hopen Hr Hc.
  destruct (retrieveStream_closed_cached _ _ _ _ _ Hopen Hr Hc) as (Hcache & _).
  eexists. split.
  - unfold Rotate. rewrite Hr. cbn [mbind res_bind]. rewrite Hc.
    cbn [mbind res_bind]. reflexivity.
  - set (db1 := set_current _ _).
    destruct (addClosed_fields db' commit) as (_ & _ & Hstreams & Hinodes & _).
    assert (Hr1 : retrieveStream db1 commit false = Ret (Some h, None, db1)).
    { unfold retrieveStream. subst db1. cbn [set_current current stream set_mockoffset set_stream].
      rewrite N.eqb_refl. cbn [andb bool_decide].
      rewrite bool_decide_eq_false_2 by (by intros [? ?]).
      unfold cached in *.
      cbn [set_current set_mockoffset set_stream streams].
      by rewrite Hstreams, Hcache. }
    assert (Hc1 : handle_Closed db1 h = Ret true).
    { unfold handle_Closed, deref in *. subst db1.
      cbn [set_current set_mockoffset set_stream inodes]. by rewrite Hinodes. }
    unfold Rotate. rewrite Hr1. cbn [mbind res_bind]. rewrite Hc1.
    cbn [mbind res_bind]. do 2 f_equal.
    rewrite addClosed_id.
    + subst db1. reflexivity.
    + subst db1. cbn [set_current set_mockoffset set_stream closed].
      apply addClosed_elem.
Qed.

Lemma NewDb_fresh : NewDb ∅ ∅ ∅ ∅ = Ret db_fresh.
Proof. vm_compute. reflexivity. Qed.

Lemma Rotate_replay_is_idempotent_witness :
  stream_is_open db_rotated
  /\ exists db1,
       Rotate db_rotated 1 0 = Ret (None, db1)
       /\ Rotate db1 1 0 = Ret (None, db1).
Proof.
  assert (Ho : stream_is_open db_rotated).
  { assert (Hs : stream db_rotated = Some 1%nat) by (vm_compute; reflexivity).
    assert (Hi : exists s, inodes db_rotated !! 1%nat = Some s
                           /\ Stream.closed s = false)
      by (eexists; split; vm_compute; reflexivity).
    destruct Hi as (s0 & Hi & Hcl).
    intros h s. rewrite Hs. intros [= <-] Hl.
    pose proof (eq_trans (eq_sym Hi) Hl) as [= <-]. exact Hcl. }
  split; [exact Ho|].
  assert (Hr : exists h db', retrieveStream db_rotated 1 false = Ret (Some h, None, db')
                             /\ handle_Closed db' h = Ret true).
  { eexists _, _. split; vm_compute; reflexivity. }
  destruct Hr as (h & db' & Hr & Hc).
  exact (Rotate_replay_is_idempotent db_rotated 1 0 h db' Ho Hr Hc).
Defined.

(** C5, as stated, fails: after [NewDb], [Rotate(2, 0)] once leaves
    closed = [1]; applied twice it closes the stream of commit 2 itself
    and leaves closed = [1; 2]. *)
Lemma Rotate_twice_differs :
  exists db1 db2,
    Rotate db_fresh 2 0 = Ret (None, db1)
    /\ Rotate db1 2 0 = Ret (None, db2)
    /\ closed db1 = [1%N] /\ closed db2 = [1%N; 2%N]
    /\ db2 <> db1.
Proof.
  eexists _, _. split; [vm_compute; reflexivity|].
  split; [vm_compute; reflexivity|].
  split; [reflexivity|]. split; [reflexivity|].
  intros H. apply (f_equal closed) in H. vm_compute in H. discriminate.
Qed.

(** C4, as stated, fails: after [NewDb] and [Rotate(2, 0)] the file of
    commit 1 is closed; [Rotate(1, 0)] then takes the replay path, which
    adds 1 to [closed] and makes it [current]. *)
Lemma Rotate_replay_puts_current_in_closed :
  exists db1 db2,
    Rotate db_fresh 2 0 = Ret (None, db1)
    /\ Rotate db1 1 0 = Ret (None, db2)
    /\ current db2 ∈ closed db2.
Proof.
  eexists _, _. split; [vm_compute; reflexivity|].
  split; [vm_compute; reflexivity|].
  vm_compute. by left.
Qed.

(** *** Scan *)

(** Every cursor [Scan] returns is empty or has the offset 0. *)
Lemma Scan_cursor_offset_zero {St} fuel db name value continuation
    (scanner : Stream.Scanner St) st cursor err st' db' :
  Scan fuel db name value continuation scanner st = Ret (cursor, err, st', db') ->
  cursor = ""%string \/ exists commit, cursor = buildContinuation commit 0.
Proof.
  unfold Scan. destruct (parseContinuation _ _ _) as [commit offset].
  destruct (Scan_loop _ _ _ _ _ _ _ _ _) as [[[[[[e stopped] c] o] s] d]| | |];
    cbn [mbind res_bind]; try done.
  destruct e; intros [= <- _ _ _]; eauto.
Qed.

(** C1 fails on the code: with the events "a", "b", "c" under u=1 in the
    stream of commit 1, a scan that stops after the first event delivers
    "c" and should return the cursor 1:<offset of "b">; [Scan] returns
    "1:0". Resuming from it starts at the tail again and delivers "c",
    "b", "a": the two calls together deliver "c" twice, where the single
    call delivers "c", "b", "a". *)
Theorem Scan_cursor_drops_offset :
  exists db1 db2 db3,
    Scan 3 db_three "u" "1" "" (collect_until 1) []
      = Ret ("1:0"%string, None, [["c"]]%byte, db1)
    /\ Scan 3 db1 "u" "1" "1:0" collect []
      = Ret (""%string, None, [["c"]; ["b"]; ["a"]]%byte, db2)
    /\ Scan 3 db_three "u" "1" "" collect []
      = Ret (""%string, None, [["c"]; ["b"]; ["a"]]%byte, db3).
Proof.
  eexists _, _, _.
  split; [vm_compute; reflexivity|].
  split; vm_compute; reflexivity.
Qed.

(** *** Iterate *)

Lemma Stream_Iterate_loop_total {St} (scanner : Stream.Scanner St) :
  never_stops scanner ->
  forall fuel f st,
    (length (Stream.File_rest f) < fuel)%nat ->
    exists err st' f',
      Stream_Iterate_loop fuel f (Iterate_callback scanner) (false, st)
      = Ret (0, err, (false, st'), f')
      /\ Stream.content f' = Stream.content f.
Proof.
  intros Hns. induction fuel as [|fuel IH]; intros f st Hfuel; [lia|].
  cbn [Stream_Iterate_loop].
  destruct (Stream.pullEvent f) as [[event|e] f1] eqn:Hpull.
  - apply StreamTheory.pullEvent_progress in Hpull as [Hc Hlt].
    unfold Iterate_callback at 1.
    pose proof (Hns st event) as Hcont.
    destruct (scanner st event) as [st1 continue]. cbn [snd] in Hcont. subst continue.
    cbn [negb].
    destruct (IH f1 st1 ltac:(lia)) as (err & st' & f' & -> & Hc').
    exists err, st', f'. split; [done|congruence].
  - pose proof (StreamTheory.pullEvent_content f) as Hc. rewrite Hpull in Hc.
    cbn [snd] in Hc.
    destruct e; eauto.
Qed.

Lemma Stream_Iterate_total {St} (scanner : Stream.Scanner St) s offset st :
  never_stops scanner ->
  exists err st' s',
    Stream_Iterate s offset (Iterate_callback scanner) (false, st)
    = Ret (0, err, (false, st'), s').
Proof.
  intros Hns. unfold Stream_Iterate.
  destruct (Stream.File_Seek _ _) as [[? ?] f].
  destruct (Stream_Iterate_loop_total scanner Hns
              (S (length (Stream.content f))) f st) as (err & st' & f' & -> & _).
  { unfold Stream.File_rest. rewrite length_drop. lia. }
  cbn [mbind res_bind]. eauto.
Qed.

(** The commits ahead of [commit]. *)
Definition ahead (db : DB) (commit : N) : nat :=
  length (filter (fun c => (commit < c)%N) (current db :: closed db)).

Lemma next_spec db commit :
  next db commit = 0%N
  \/ (commit < next db commit)%N /\ next db commit ∈ current db :: closed db.
Proof.
  unfold next.
  set (M := Z.to_N MaxUint64).
  set (step := fun result c => if (commit <? c)%N && (c <? result)%N then c else result).
  assert (Hfold : forall l r,
            (r = M \/ (commit < r)%N /\ r ∈ current db :: closed db) ->
            (forall c, c ∈ l -> c ∈ closed db) ->
            foldl step r l = M
            \/ (commit < foldl step r l)%N /\ foldl step r l ∈ current db :: closed db).
  { induction l as [|c l IH]; intros r Hr Hl; [done|].
    cbn [foldl]. apply IH; [|intros c' Hc'; apply Hl; by right].
    unfold step. destruct (N.ltb_spec commit c); cbn [andb]; [|done].
    destruct (N.ltb_spec c r); [|done].
    right. split; [done|]. right. apply Hl. by left. }
  specialize (Hfold (closed db) M (or_introl eq_refl) (fun c H => H)).
  set (r1 := foldl step M (closed db)) in *.
  destruct (N.ltb_spec commit (current db)); cbn [andb].
  - destruct (N.ltb_spec (current db) r1).
    + destruct (N.eqb_spec (current db) M); [by left|].
      right. split; [done|by left].
    + destruct (N.eqb_spec r1 M); [by left|]. right. by destruct Hfold.
  - destruct (N.eqb_spec r1 M); [by left|]. right. by destruct Hfold.
Qed.

Lemma filter_above_le (l : list N) a b :
  (a < b)%N ->
  (length (filter (fun c => (b < c)%N) l) <= length (filter (fun c => (a < c)%N) l))%nat.
Proof.
  intros Hab. induction l as [|x l IH]; [done|].
  rewrite !filter_cons. repeat case_decide; simpl; lia.
Qed.

Lemma filter_above_lt (l : list N) a b :
  (a < b)%N -> b ∈ l ->
  (length (filter (fun c => (b < c)%N) l) < length (filter (fun c => (a < c)%N) l))%nat.
Proof.
  intros Hab. induction 1 as [b l|b x l _ IH].
  - rewrite !filter_cons. pose proof (filter_above_le l a b Hab).
    rewrite decide_False by lia. rewrite decide_True by done. simpl. lia.
  - specialize (IH Hab). rewrite !filter_cons. repeat case_decide; simpl; lia.
Qed.

Lemma ahead_next db commit :
  next db commit <> 0%N -> (ahead db (next db commit) < ahead db commit)%nat.
Proof.
  intros Hn. destruct (next_spec db commit) as [|[Hlt Hin]]; [done|].
  by apply filter_above_lt.
Qed.

Lemma ahead_bound db commit : (ahead db commit <= length (closed db) + 1)%nat.
Proof.
  unfold ahead. etrans; [apply length_filter|]. simpl. lia.
Qed.

Lemma handles_valid_insert db h s :
  handles_valid db -> handles_valid (store db h s).
Proof.
  intros (H1 & H2 & H3). unfold handles_valid, store. cbn [set_inodes stream streams files inodes].
  repeat split; intros; apply lookup_insert_is_Some'; right; eauto.
Qed.

Lemma RecoverStream_valid db commit r db' :
  handles_valid db -> RecoverStream db commit = (r, db') ->
  handles_valid db' /\ closed db' = closed db /\ current db' = current db
  /\ streams db' = streams db
  /\ (forall h, r = inl h -> is_Some (inodes db' !! h)).
Proof.
  intros Hv. unfold RecoverStream. destruct (peers db !! commit) as [s|].
  - intros [= <- <-]. split; [|split; [done|split; [done|split; [done|]]]].
    + destruct (handles_valid_insert db (new_handle db) s Hv) as (H1 & H2 & H3).
      repeat split; try done. intros c h.
      cbn [set_files files inodes store set_inodes].
      destruct (decide (c = commit)) as [->|Hne].
      * rewrite lookup_insert_eq. intros [= <-]. rewrite lookup_insert_eq. eauto.
      * rewrite lookup_insert_ne by done. apply H3.
    + intros h [= <-]. cbn [set_files inodes store set_inodes].
      rewrite lookup_insert_eq. eauto.
  - intros [= <- <-]. repeat split; try done; apply Hv.
Qed.

(** With [fetchMissing] set, [retrieveStream] returns a stream or an
    error. *)
Lemma retrieveStream_valid db commit :
  handles_valid db ->
  exists s err db',
    retrieveStream db commit true = Ret (s, err, db')
    /\ handles_valid db' /\ closed db' = closed db /\ current db' = current db
    /\ (err = None -> exists h, s = Some h /\ is_Some (inodes db' !! h)).
Proof.
  intros Hv. pose proof Hv as (Hv1 & Hv2 & Hv3). unfold retrieveStream.
  destruct (_ && _) eqn:Hcur.
  { apply andb_prop in Hcur as [_ Hs%bool_decide_eq_true]. destruct Hs as [h Hs].
    eexists _, _, _. split; [done|]. repeat split; try done.
    intros _. exists h. split; [done|]. by apply Hv1. }
  destruct (cached db commit) as [h|] eqn:Hcache.
  { eexists _, _, _. split; [done|]. repeat split; try done.
    intros _. exists h. split; [done|]. apply (Hv2 commit).
    unfold cached in Hcache. by destruct (streams db !! commit) as [[?|]|]; simplify_eq/=. }
  assert (Hrecover :
    exists s err db',
      (let '(s, err, db) :=
         match RecoverStream db commit with
         | (inl h, db) => (Some h, None, db)
         | (inr e, db) => (None, Some e, db)
         end in
       match err with
       | None =>
           let db := set_streams db (<[commit := s]> (streams db)) in
           Ret (cached db commit, None, db)
       | Some e => Ret (None, Some e, db)
       end) = Ret (s, err, db')
      /\ handles_valid db' /\ closed db' = closed db /\ current db' = current db
      /\ (err = None -> exists h, s = Some h /\ is_Some (inodes db' !! h))).
  { destruct (RecoverStream db commit) as [[h|e] db1] eqn:HR;
      destruct (RecoverStream_valid _ _ _ _ Hv HR) as (Hv' & Hc & Hcu & Hst & Hh).
    - eexists _, _, _. split; [done|].
      unfold cached. cbn [set_streams streams closed current inodes].
      rewrite lookup_insert_eq. cbn [default].
      split; [|split; [done|split; [done|]]].
      + destruct Hv' as (H1 & H2 & H3). repeat split; try done.
        intros c h'. cbn [set_streams streams inodes].
        destruct (decide (c = commit)) as [->|Hne].
        * rewrite lookup_insert_eq. intros [= <-]. by apply Hh.
        * rewrite lookup_insert_ne by done. apply H2.
      + intros _. exists h. split; [done|]. by apply Hh.
    - eexists _, _, _. split; [done|]. by split; [|split; [|split]]. }
  unfold stream_Open. destruct (files db !! commit) as [h0|] eqn:Hfile.
  - destruct (Hv3 _ _ Hfile) as [s0 Hs0].
    unfold handle_Closed, deref. rewrite Hs0. cbn [mbind res_bind].
    destruct (Stream.Closed s0); cbn [mbind res_bind andb].
    + eexists _, _, _. split; [done|].
      unfold cached. cbn [set_streams streams closed current inodes].
      rewrite lookup_insert_eq. cbn [default].
      split; [|split; [done|split; [done|]]].
      * repeat split; try done. intros c h'. cbn [set_streams streams inodes].
        destruct (decide (c = commit)) as [->|Hne].
        -- rewrite lookup_insert_eq. intros [= <-]. eauto.
        -- rewrite lookup_insert_ne by done. apply Hv2.
      * intros _. exists h0. split; [done|]. eauto.
    + exact Hrecover.
  - cbn [mbind res_bind andb]. exact Hrecover.
Qed.

Lemma store_fields db h s :
  closed (store db h s) = closed db /\ current (store db h s) = current db.
Proof. done. Qed.

Lemma next_store db h s commit : next (store db h s) commit = next db commit.
Proof. done. Qed.

Lemma ahead_eq db db' commit :
  closed db' = closed db -> current db' = current db -> ahead db' commit = ahead db commit.
Proof. unfold ahead. by intros -> ->. Qed.

Lemma next_eq db db' commit :
  closed db' = closed db -> current db' = current db -> next db' commit = next db commit.
Proof. unfold next. by intros -> ->. Qed.

(** The loop of [Iterate] under a scanner that never stops: it returns,
    and when it returns without error the commit has run to 0. *)
Lemma Iterate_loop_total {St} (scanner : Stream.Scanner St) :
  never_stops scanner ->
  forall fuel db commit offset st,
    handles_valid db ->
    (ahead db commit < fuel)%nat ->
    exists err c o st' db',
      Iterate_loop fuel db scanner st false commit offset
      = Ret (err, false, c, o, st', db')
      /\ (err = None -> c = 0%N)
      /\ closed db' = closed db /\ current db' = current db.
Proof.
  intros Hns. induction fuel as [|fuel IH]; intros db commit offset st Hv Hfuel; [lia|].
  cbn [Iterate_loop negb andb].
  destruct (N.ltb_spec 0 commit) as [Hpos|Hzero].
  2:{ eexists _, _, _, _, _. split; [done|]. split; [intros _; lia|done]. }
  destruct (retrieveStream_valid db commit Hv)
    as (s & err & db1 & -> & Hv1 & Hc1 & Hcu1 & Hs).
  cbn [mbind res_bind].
  destruct err as [e|].
  { eexists _, _, _, _, _. split; [done|]. by split. }
  destruct (Hs eq_refl) as (h & -> & [s0 Hs0]).
  unfold deref. rewrite Hs0. cbn [mbind res_bind].
  destruct (Stream_Iterate_total scanner s0 offset st Hns) as (err & st' & s1 & ->).
  cbn [mbind res_bind].
  destruct err as [e|].
  { eexists _, _, _, _, _. split; [done|]. by split. }
  cbn [negb].
  pose proof (handles_valid_insert db1 h s1 Hv1) as Hv2.
  rewrite (next_eq db (store db1 h s1)) by done.
  destruct (N.eq_dec (next db commit) 0%N) as [Hn|Hn].
  - rewrite Hn. destruct fuel; cbn [Iterate_loop negb andb];
      (destruct (N.ltb_spec 0 0); [lia|]);
      eexists _, _, _, _, _; (split; [done|]); by split.
  - destruct (IH (store db1 h s1) (next db commit) 0 st' Hv2)
      as (err & c & o & st'' & db' & -> & Hzero & Hc & Hcu).
    { rewrite (ahead_eq db) by done. pose proof (ahead_next db commit Hn). lia. }
    eexists _, _, _, _, _. split; [done|]. split; [done|].
    split; [rewrite Hc; exact Hc1|rewrite Hcu; exact Hcu1].
Qed.

(** C2, as amended: when the scanner never stops, [Iterate] runs until no
    next commit exists, where the loop sets [commit] to 0, and returns
    the empty cursor; a later [Iterate] with that cursor starts again at
    the first closed commit, or at [current] when none is closed, with
    offset 0. *)
Theorem Iterate_exhausted_cursor_is_empty {St} (scanner : Stream.Scanner St)
    fuel db continuation st :
  never_stops scanner ->
  handles_valid db ->
  (length (closed db) + 1 < fuel)%nat ->
  exists err st' db',
    Iterate fuel db continuation scanner st = Ret (""%string, err, st', db')
    /\ parseContinuation db' "" false = (hd (current db) (closed db), 0).
Proof.
  intros Hns Hv Hfuel. unfold Iterate.
  destruct (parseContinuation db continuation false) as [commit offset].
  destruct (Iterate_loop_total scanner Hns fuel db commit offset st Hv)
    as (err & c & o & st' & db' & -> & Hzero & Hc & Hcu).
  { pose proof (ahead_bound db commit). lia. }
  cbn [mbind res_bind].
  assert (Hp : parseContinuation db' "" false = (hd (current db) (closed db), 0)).
  { unfold parseContinuation. rewrite Hc, Hcu. by destruct (closed db). }
  destruct err as [e|]; [by eexists _, _, _|].
  rewrite (Hzero eq_refl). by eexists _, _, _.
Qed.

Lemma collect_never_stops : never_stops collect.
Proof. by intros st e. Qed.

Lemma db_three_valid : handles_valid db_three.
Proof.
  assert (Hs : stream db_three = Some 0%nat) by (vm_compute; reflexivity).
  assert (Hc : streams db_three = ∅) by (vm_compute; reflexivity).
  assert (Hf : files db_three = {[1%N := 0%nat]}) by (vm_compute; reflexivity).
  assert (Hi : is_Some (inodes db_three !! 0%nat)) by (vm_compute; eauto).
  unfold handles_valid. rewrite Hs, Hc, Hf. split; [|split].
  - by intros h [= <-].
  - intros c h H. rewrite lookup_empty in H. discriminate H.
  - intros c h [_ <-]%lookup_singleton_Some. exact Hi.
Qed.

Lemma Iterate_exhausted_cursor_is_empty_witness :
  never_stops collect /\ handles_valid db_three
  /\ (length (closed db_three) + 1 < 4)%nat
  /\ exists err st' db',
       Iterate 4 db_three "" collect [] = Ret (""%string, err, st', db')
       /\ parseContinuation db' "" false
          = (hd (current db_three) (closed db_three), 0).
Proof.
  assert (Hf : (length (closed db_three) + 1 < 4)%nat) by (vm_compute; lia).
  split; [exact collect_never_stops|]. split; [exact db_three_valid|].
  split; [exact Hf|].
  exact (Iterate_exhausted_cursor_is_empty collect 4 db_three "" []
           collect_never_stops db_three_valid Hf).
Defined.

(** C2, as stated, fails: [Iterate] over the live stream of commit 1,
    with no next commit and a scanner that never stops, returns the empty
    cursor and not a cursor of commit 1; a later [Iterate] with that
    cursor delivers all three events again. *)
Lemma Iterate_exhausted_returns_empty_cursor :
  exists db1 db2,
    current db_three = 1%N /\ next db_three 1 = 0%N
    /\ Iterate 4 db_three "" collect []
       = Ret (""%string, None, [["a"]; ["b"]; ["c"]]%byte, db1)
    /\ (forall offset, buildContinuation 1 offset <> ""%string)
    /\ Iterate 4 db1 "" collect []
       = Ret (""%string, None, [["a"]; ["b"]; ["c"]]%byte, db2).
Proof.
  eexists _, _. split; [reflexivity|]. split; [reflexivity|].
  split; [vm_compute; reflexivity|]. split; [|vm_compute; reflexivity].
  intros offset. unfold buildContinuation. cbn. discriminate.
Qed.

(** *** The order of [current] and [closed] *)

(** What holds of every state reached in commit order: the closed
    commits precede [current], nothing of a later commit is in the
    directory or in the cache, and no compressed file waits. *)
Definition ordered (db : DB) : Prop :=
  (forall c, c ∈ closed db -> (c < current db)%N)
  /\ (forall c, (current db < c)%N -> files db !! c = None /\ cached db c = None)
  /\ tmpfiles db = ∅.

Lemma addClosed_closed db commit c :
  c ∈ closed (addClosed db commit) -> c ∈ closed db \/ c = commit.
Proof.
  unfold addClosed. destruct (existsb _ _); [by left|].
  cbn [set_closed closed]. intros [?|?%list_elem_of_singleton]%elem_of_app; auto.
Qed.

Lemma setCurrent_fields db commit db' :
  setCurrent db commit = Ret db' ->
  current db' = commit /\ closed db' = closed db
  /\ streams db' = streams db /\ tmpfiles db' = tmpfiles db
  /\ exists h, files db' = <[commit := h]> (delete commit (files db)).
Proof.
  unfold setCurrent, stream_New, Remove.
  cbn [set_files set_current set_mockoffset files].
  rewrite lookup_delete_eq.
  destruct (Stream.New MAGIC_HEADER) as [s|e]; [|done].
  intros [= <-]. cbn. eauto 10.
Qed.

Lemma ordered_setCurrent db db1 commit db' :
  ordered db ->
  (forall c, c ∈ closed db1 -> c ∈ closed db \/ (c < commit)%N) ->
  (current db <= commit)%N ->
  streams db1 = streams db -> files db1 = files db -> tmpfiles db1 = tmpfiles db ->
  setCurrent db1 commit = Ret db' ->
  ordered db'.
Proof.
  intros (Hcl & Hfiles & Htmp) Hsub Hle Hst Hfi Htm
         (Hcur & Hc & Hs & Ht & h & Hf)%setCurrent_fields.
  unfold ordered, cached. rewrite Hcur, Hc, Hs, Ht, Hf, Hst, Hfi, Htm.
  split; [|split; [|done]].
  - intros c [Hin|Hlt]%Hsub; [|done]. specialize (Hcl c Hin). lia.
  - intros c Hlt. rewrite lookup_insert_ne, lookup_delete_ne by lia.
    apply Hfiles. lia.
Qed.

Lemma retrieveStream_missing db commit :
  (current db < commit)%N ->
  files db !! commit = None -> cached db commit = None ->
  retrieveStream db commit false = Ret (None, Some NoSuchFile, db).
Proof.
  intros Hlt Hf Hc. unfold retrieveStream, stream_Open.
  destruct (N.eqb_spec (current db) commit); [lia|]. cbn [andb].
  by rewrite Hc, Hf.
Qed.

Lemma ordered_Rotate db commit term err db' :
  ordered db -> (current db < commit)%N ->
  Rotate db commit term = Ret (err, db') -> ordered db'.
Proof.
  intros Ho Hlt. pose proof Ho as (Hcl & Hfiles & Htmp).
  destruct (Hfiles commit Hlt) as [Hf Hc].
  unfold Rotate. rewrite retrieveStream_missing by done.
  cbn [mbind res_bind].
  destruct (stream db) as [h|].
  - unfold deref. destruct (inodes db !! h) as [s0|]; [|done].
    cbn [mbind res_bind]. destruct (Stream_Close s0) as [[e|] s1]; [done|].
    cbn [mbind res_bind].
    destruct (setCurrent _ commit) as [db3| | |] eqn:Hset; try done.
    cbn [mbind res_bind]. intros [= _ <-].
    eapply (ordered_setCurrent db); [exact Ho| | | | | |exact Hset].
    + intros c. unfold snapshot. cbn [set_snapshots closed].
      intros [Hin| ->]%addClosed_closed; [by left|]. right. cbn. lia.
    + lia.
    + unfold snapshot. cbn [set_snapshots streams].
      by destruct (addClosed_fields (store db h s1) (current (store db h s1)))
        as (_ & _ & -> & _).
    + unfold snapshot. cbn [set_snapshots files].
      by destruct (addClosed_fields (store db h s1) (current (store db h s1)))
        as (_ & _ & _ & _ & -> & _).
    + unfold snapshot. cbn [set_snapshots tmpfiles].
      by destruct (addClosed_fields (store db h s1) (current (store db h s1)))
        as (_ & _ & _ & _ & _ & ->).
  - cbn [mbind res_bind].
    destruct (setCurrent db commit) as [db3| | |] eqn:Hset; try done.
    cbn [mbind res_bind]. intros [= _ <-].
    eapply (ordered_setCurrent db); [exact Ho| | | | | |exact Hset]; auto. lia.
Qed.

Lemma ordered_Write db commit body indexes timestamp err db' :
  ordered db ->
  Write db commit body indexes timestamp = Ret (err, db') -> ordered db'.
Proof.
  intros Ho. unfold Write.
  destruct (commit <=? current db)%N; [by intros [= _ <-]|].
  destruct (stream db) as [h|]; [|by intros [= _ <-]].
  unfold deref. destruct (inodes db !! h) as [s0|]; [|done].
  cbn [mbind res_bind].
  destruct (Stream_Write s0 body indexes) as [[? [e|]] s1]; [done|].
  destruct (_ <? timestamp); by intros [= _ <-].
Qed.

Lemma forget_fold_fields (keep : N -> bool) (l : list N) : forall db,
  let db' := foldl (fun db c => if keep c then db else forgetStream db c) db l in
  closed db' = closed db /\ current db' = current db
  /\ files db' = files db /\ tmpfiles db' = tmpfiles db
  /\ (forall c, cached db c = None -> cached db' c = None).
Proof.
  induction l as [|x l IH]; intros db; [done|].
  cbn [foldl]. cbn zeta in *.
  destruct (IH (if keep x then db else forgetStream db x))
    as (H1 & H2 & H3 & H4 & H5).
  rewrite H1, H2, H3, H4.
  destruct (keep x); [done|].
  repeat split; try done. intros c Hc. apply H5.
  unfold cached, forgetStream in *. cbn [set_streams streams].
  destruct (decide (c = x)) as [->|Hne].
  - by rewrite lookup_delete_eq.
  - by rewrite lookup_delete_ne.
Qed.

Lemma ordered_Compress db start stop : ordered db -> ordered (Compress db start stop).
Proof.
  intros (Hcl & Hfiles & Htmp). unfold Compress.
  set (keep := fun c => (c <=? start)%N || (stop <? c)%N).
  destruct (forget_fold_fields keep (closed db) db) as (H1 & H2 & H3 & H4 & H5).
  set (db1 := foldl _ db (closed db)) in *.
  cbn [forgetStream set_streams tmpfiles]. rewrite H4, Htmp, lookup_empty.
  unfold ordered, cached.
  cbn [set_closed set_streams closed current files streams tmpfiles].
  unfold forgetStream. cbn [set_streams current files streams tmpfiles].
  rewrite H2, H3, H4, Htmp. split; [|split; [|done]].
  - intros c [_ Hin]%list_elem_of_filter. by apply Hcl.
  - intros c Hlt. destruct (Hfiles c Hlt) as [Hf Hc]. split; [done|].
    specialize (H5 c Hc). unfold cached in H5.
    destruct (decide (c = start)) as [->|Hne].
    + by rewrite lookup_delete_eq.
    + by rewrite lookup_delete_ne.
Qed.

Lemma to_uint64_to_int64 x : to_uint64 (to_int64 x) = to_uint64 x.
Proof.
  unfold to_uint64, to_int64.
  rewrite Zminus_mod, Z.mod_mod by lia.
  rewrite <- Zminus_mod. f_equal. lia.
Qed.

Lemma uint64_round_trip c :
  (c <= Z.to_N MaxUint64)%N ->
  Z.to_N (to_uint64 (to_int64 (to_uint64 (Z.of_N c)))) = c.
Proof.
  intros Hc. rewrite to_uint64_to_int64. unfold to_uint64.
  rewrite Z.mod_mod by lia. rewrite Z.mod_small; [lia|].
  unfold MaxUint64 in Hc. lia.
Qed.

Lemma ReadInt64_WriteInt64 x rest :
  ReadInt64 (WriteInt64 x ++ rest) = (to_int64 (to_uint64 x), rest).
Proof.
  unfold ReadInt64, WriteInt64.
  pose proof (length_le_encode 8 (to_uint64 x)) as Hl.
  rewrite length_app, Hl.
  destruct (Nat.ltb_spec (8 + length rest) 8); [lia|].
  rewrite take_app_length', drop_app_length' by done.
  rewrite le_decode_encode; [done|].
  unfold to_uint64. change (256 ^ Z.of_nat 8) with (2 ^ 64).
  apply Z.mod_pos_bound. lia.
Qed.

Lemma Recovery_loop_closed (cl : list N) : forall db rest,
  Forall (fun c => (c <= Z.to_N MaxUint64)%N) cl ->
  Recovery_loop (length cl) db
    (concat (map (fun commit => WriteInt64 (Z.of_N commit)) cl) ++ rest)
  = foldl addClosed db cl.
Proof.
  induction cl as [|c cl IH]; intros db rest Hcl; [done|].
  apply Forall_cons in Hcl as [Hc Hcl].
  cbn [length map concat Recovery_loop foldl].
  rewrite <- app_assoc, ReadInt64_WriteInt64, uint64_round_trip by done.
  by apply IH.
Qed.

Lemma foldl_addClosed_fields (cl : list N) : forall db,
  let db' := foldl addClosed db cl in
  (forall c, c ∈ closed db' -> c ∈ closed db \/ c ∈ cl)
  /\ current db' = current db /\ streams db' = streams db
  /\ files db' = files db /\ tmpfiles db' = tmpfiles db.
Proof.
  induction cl as [|x cl IH]; intros db; cbn [foldl]; cbn zeta.
  - repeat split; auto.
  - destruct (IH (addClosed db x)) as (H1 & H2 & H3 & H4 & H5).
    destruct (addClosed_fields db x) as (F1 & _ & F3 & _ & F5 & F6).
    rewrite H2, H3, H4, H5. repeat split; try done.
    intros c [[Hin| ->]%addClosed_closed|Hin]%H1.
    + by left.
    + right. by left.
    + right. by right.
Qed.

Lemma ordered_Recovery db snap err db' :
  ordered db -> snapshot_in_order snap ->
  (current db <= current snap)%N ->
  Recovery db (Save snap) = Ret (err, db') -> ordered db'.
Proof.
  intros Ho (Hcur & Hcl & Hlen) Hle. unfold Recovery, Save.
  rewrite ReadInt64_WriteInt64, uint64_round_trip by done.
  destruct (setCurrent db (current snap)) as [db1| | |] eqn:Hset; try done.
  cbn [mbind res_bind]. rewrite ReadInt64_WriteInt64.
  unfold ReadUvarint.
  rewrite StreamTheory.read_uvarint_uvarint by (unfold MaxInt64 in *; lia).
  rewrite to_int64_id by (unfold MaxInt64 in *; lia).
  rewrite Nat2Z.id.
  rewrite <- (app_nil_r (concat _)), Recovery_loop_closed.
  2:{ apply Forall_forall. intros c Hin. specialize (Hcl c Hin). lia. }
  intros [= _ <-].
  assert (Ho1 : ordered db1)
    by (eapply (ordered_setCurrent db db); eauto).
  destruct Ho1 as (Hcl1 & Hfiles1 & Htmp1).
  apply setCurrent_fields in Hset as (Hc1 & _).
  destruct (foldl_addClosed_fields (closed snap)
              (set_MostRecent db1 (to_int64 (to_uint64 (MostRecent snap)))))
    as (H1 & H2 & H3 & H4 & H5).
  cbn zeta in *.
  unfold ordered, cached. rewrite H2, H3, H4, H5.
  cbn [set_MostRecent current streams files tmpfiles closed] in *.
  split; [|split; [|done]].
  - intros c [Hin|Hin]%H1; [by apply Hcl1|]. rewrite Hc1. by apply Hcl.
  - exact Hfiles1.
Qed.

Lemma ordered_NewDb peers db : NewDb ∅ ∅ ∅ peers = Ret db -> ordered db.
Proof.
  unfold NewDb.
  destruct (Rotate _ 1 0) as [[err db1]| | |] eqn:HR; try done.
  cbn [mbind res_bind]. intros [= <-].
  eapply ordered_Rotate; [| |exact HR].
  - unfold ordered, cached. cbn [closed current files streams tmpfiles].
    split; [|split; [|done]].
    + intros c Hin. by apply elem_of_nil in Hin.
    + intros c _. by rewrite !lookup_empty.
  - cbn. lia.
Qed.

Lemma in_order_ordered db : in_order db -> ordered db.
Proof.
  induction 1;
    eauto using ordered_NewDb, ordered_Write, ordered_Rotate, ordered_Compress,
                ordered_Recovery.
Qed.

(** C4, as amended: in every state reached from [NewDb] on an empty
    directory by writes, compressions, rotations to a commit above
    [current] and recoveries of a snapshot that is not behind [current],
    the commit in [current] is not a member of [closed]. *)
Theorem current_not_closed_in_order db :
  in_order db -> current db ∉ closed db.
Proof.
  intros (Hcl & _)%in_order_ordered Hin. specialize (Hcl _ Hin). lia.
Qed.

Lemma in_order_db_rotated : in_order db_rotated.
Proof.
  apply (in_order_Rotate db_fresh 2 0 None).
  - apply (in_order_NewDb ∅). exact NewDb_fresh.
  - vm_compute. reflexivity.
  - vm_compute. reflexivity.
Qed.

Lemma current_not_closed_in_order_witness :
  in_order db_rotated /\ current db_rotated ∉ closed db_rotated.
Proof.
  split; [exact in_order_db_rotated|].
  exact (current_not_closed_in_order db_rotated in_order_db_rotated).
Defined.

(** *** prev and next *)

Lemma prev_fold commit (l : list N) : forall r,
  let p := foldl (fun result c =>
                    if (c <? commit)%N && (result <? c)%N then c else result) r l in
  (r <= p)%N
  /\ (forall c, c ∈ l -> (c < commit)%N -> (c <= p)%N)
  /\ (p = r \/ p ∈ l /\ (p < commit)%N).
Proof.
  induction l as [|x l IH]; intros r; cbn [foldl]; cbn zeta.
  - split; [lia|]. split; [|by left]. intros c Hc. by apply elem_of_nil in Hc.
  - set (r1 := if (x <? commit)%N && (r <? x)%N then x else r).
    destruct (IH r1) as (H1 & H2 & H3). cbn zeta in *.
    set (p := foldl _ r1 l) in *.
    assert (Hr1 : (r <= r1)%N /\ ((x < commit)%N -> (x <= r1)%N)
                  /\ (r1 = r \/ r1 = x /\ (x < commit)%N)).
    { subst r1. destruct (N.ltb_spec x commit), (N.ltb_spec r x); cbn [andb];
        repeat split; try lia; auto. }
    destruct Hr1 as (Ha & Hb & Hc).
    split; [lia|]. split.
    + intros c [->|Hin]%elem_of_cons Hlt; [specialize (Hb Hlt); lia|by apply H2].
    + destruct H3 as [->|[Hin Hlt]].
      * destruct Hc as [->|[-> Hlt]]; [by left|]. right. split; [by left|done].
      * right. split; [by right|done].
Qed.

(** X1: [prev] is the largest closed commit below [commit], and 0 when
    no closed commit lies below. *)
Theorem prev_is_largest_closed_below db commit :
  (forall c, c ∈ closed db -> (c < commit)%N -> (c <= prev db commit)%N)
  /\ (prev db commit = 0%N
      \/ prev db commit ∈ closed db /\ (prev db commit < commit)%N).
Proof.
  destruct (prev_fold commit (closed db) 0%N) as (_ & H2 & H3). split; [exact H2|].
  destruct H3 as [H3|H3]; [by left|by right].
Qed.

Lemma next_fold commit (l : list N) : forall r,
  let p := foldl (fun result c =>
                    if (commit <? c)%N && (c <? result)%N then c else result) r l in
  (p <= r)%N
  /\ (forall c, c ∈ l -> (commit < c)%N -> (p <= c)%N)
  /\ (p = r \/ p ∈ l /\ (commit < p)%N).
Proof.
  induction l as [|x l IH]; intros r; cbn [foldl]; cbn zeta.
  - split; [lia|]. split; [|by left]. intros c Hc. by apply elem_of_nil in Hc.
  - set (r1 := if (commit <? x)%N && (x <? r)%N then x else r).
    destruct (IH r1) as (H1 & H2 & H3). cbn zeta in *.
    set (p := foldl _ r1 l) in *.
    assert (Hr1 : (r1 <= r)%N /\ ((commit < x)%N -> (r1 <= x)%N)
                  /\ (r1 = r \/ r1 = x /\ (commit < x)%N)).
    { subst r1. destruct (N.ltb_spec commit x), (N.ltb_spec x r); cbn [andb];
        repeat split; try lia; auto. }
    destruct Hr1 as (Ha & Hb & Hc).
    split; [lia|]. split.
    + intros c [->|Hin]%elem_of_cons Hlt; [specialize (Hb Hlt); lia|by apply H2].
    + destruct H3 as [->|[Hin Hlt]].
      * destruct Hc as [->|[-> Hlt]]; [by left|]. right. split; [by left|done].
      * right. split; [by right|done].
Qed.

(** X2: [next] is the smallest commit above [commit] among the closed
    commits and [current], and 0 when there is none; the largest
    [uint64] serves as "none" and is never returned. *)
Theorem next_is_smallest_commit_above db commit :
  (forall c, c ∈ current db :: closed db -> (commit < c)%N ->
             (c < Z.to_N MaxUint64)%N ->
             next db commit <> 0%N /\ (next db commit <= c)%N)
  /\ (next db commit = 0%N
      \/ next db commit ∈ current db :: closed db
         /\ (commit < next db commit)%N
         /\ (next db commit < Z.to_N MaxUint64)%N).
Proof.
  unfold next. set (M := Z.to_N MaxUint64).
  destruct (next_fold commit (closed db) M) as (H1 & H2 & H3). cbn zeta in *.
  set (r1 := foldl _ M (closed db)) in *.
  set (r2 := if (commit <? current db)%N && (current db <? r1)%N
             then current db else r1).
  assert (Hr2 : (r2 <= M)%N
                /\ (forall c, c ∈ current db :: closed db -> (commit < c)%N -> (r2 <= c)%N)
                /\ (r2 = M \/ r2 ∈ current db :: closed db /\ (commit < r2)%N)).
  { subst r2.
    destruct (N.ltb_spec commit (current db)), (N.ltb_spec (current db) r1);
      cbn [andb].
    - split; [lia|]. split; [|right; split; [by left|done]].
      intros c [->|Hin]%elem_of_cons Hlt; [lia|]. specialize (H2 c Hin Hlt). lia.
    - split; [done|]. split.
      + intros c [->|Hin]%elem_of_cons Hlt; [lia|by apply H2].
      + destruct H3 as [?|[? ?]]; [by left|]. right. split; [by right|done].
    - split; [done|]. split.
      + intros c [->|Hin]%elem_of_cons Hlt; [lia|by apply H2].
      + destruct H3 as [?|[? ?]]; [by left|]. right. split; [by right|done].
    - split; [done|]. split.
      + intros c [->|Hin]%elem_of_cons Hlt; [lia|by apply H2].
      + destruct H3 as [?|[? ?]]; [by left|]. right. split; [by right|done]. }
  destruct Hr2 as (Ha & Hb & Hc). split.
  - intros c Hin Hlt HM. specialize (Hb c Hin Hlt).
    destruct (N.eqb_spec r2 M); [lia|]. split; [lia|done].
  - destruct (N.eqb_spec r2 M); [by left|]. right.
    destruct Hc as [?|[? ?]]; [done|]. repeat split; try done. lia.
Qed.

(** *** The closed list *)

Lemma NoDup_addClosed db commit :
  NoDup (closed db) -> NoDup (closed (addClosed db commit)).
Proof.
  intros Hnd. unfold addClosed. destruct (existsb _ _) eqn:E; [done|].
  cbn [set_closed closed]. apply NoDup_app. split; [done|]. split.
  - intros c Hin ->%list_elem_of_singleton.
    assert (existsb (N.eqb commit) (closed db) = true) as E'; [|congruence].
    apply existsb_exists. exists commit. split; [by apply list_elem_of_In|].
    apply N.eqb_refl.
  - apply NoDup_singleton.
Qed.

Lemma setCurrent_closed db commit db' :
  setCurrent db commit = Ret db' -> closed db' = closed db.
Proof. by intros (_ & ? & _)%setCurrent_fields. Qed.

Lemma retrieveStream_closed db commit fetch s err db' :
  retrieveStream db commit fetch = Ret (s, err, db') -> closed db' = closed db.
Proof.
  unfold retrieveStream. destruct (_ && _); [by intros [= _ _ <-]|].
  destruct (cached db commit); [by intros [= _ _ <-]|].
  destruct (stream_Open db commit) as [h|e].
  - destruct (handle_Closed db h) as [[|]| | |]; cbn [mbind res_bind]; try done.
    + by intros [= _ _ <-].
    + destruct fetch; cbn [andb]; [|by intros [= _ _ <-]].
      unfold RecoverStream. destruct (peers db !! commit); by intros [= _ _ <-].
  - cbn [mbind res_bind].
    destruct (match e with NoSuchFile => true | _ => false end && fetch).
    + unfold RecoverStream. destruct (peers db !! commit); by intros [= _ _ <-].
    + by intros [= _ _ <-].
Qed.

Lemma Rotate_NoDup db commit term err db' :
  NoDup (closed db) -> Rotate db commit term = Ret (err, db') -> NoDup (closed db').
Proof.
  intros Hnd. unfold Rotate.
  destruct (retrieveStream db commit false) as [[[s e] db1]| | |] eqn:Hr; try done.
  apply retrieveStream_closed in Hr. cbn [mbind res_bind].
  assert (Hnd1 : NoDup (closed db1)) by (by rewrite Hr).
  assert (Hbody :
    (is_closed ←
        (match s with
         | Some h => handle_Closed db1 h
         | None => Ret false
         end : res bool);
      if (is_closed : bool) then
        let db := addClosed db1 commit in
        let db := set_stream db None in
        let db := set_mockoffset db 10 in
        Ret (None, set_current db commit)
      else
        db ←
          (match stream db1 with
           | Some h =>
               s0 ← deref db1 h;
               let '(err, s1) := Stream_Close s0 in
               match err with
               | Some _ => Fatal
               | None =>
                   let db := store db1 h s1 in
                   let db := addClosed db (current db) in
                   Ret (snapshot db commit term)
               end
           | None => Ret db1
           end : res DB);
        db ← setCurrent db commit;
        Ret (None, db)) = Ret (err, db') -> NoDup (closed db')).
  { destruct (match s with Some h => handle_Closed db1 h | None => Ret false end)
      as [[|]| | |]; cbn [mbind res_bind]; try done.
    - intros [= _ <-]. cbn. by apply NoDup_addClosed.
    - destruct (stream db1) as [h|].
      + destruct (deref db1 h) as [s0| | |]; cbn [mbind res_bind]; try done.
        destruct (Stream_Close s0) as [[e0|] s1]; [done|]. cbn [mbind res_bind].
        destruct (setCurrent _ commit) as [db3| | |] eqn:Hset; try done.
        cbn [mbind res_bind]. intros [= _ <-].
        rewrite (setCurrent_closed _ _ _ Hset). unfold snapshot.
        cbn [set_snapshots closed]. by apply NoDup_addClosed.
      + cbn [mbind res_bind].
        destruct (setCurrent db1 commit) as [db3| | |] eqn:Hset; try done.
        cbn [mbind res_bind]. intros [= _ <-].
        by rewrite (setCurrent_closed _ _ _ Hset). }
  destruct e as [[]|]; try done.
Qed.

Lemma Recovery_loop_NoDup count : forall db buf,
  NoDup (closed db) -> NoDup (closed (Recovery_loop count db buf)).
Proof.
  induction count as [|count IH]; intros db buf Hnd; [done|].
  cbn [Recovery_loop]. destruct (ReadInt64 buf) as [commit buf1].
  by apply IH, NoDup_addClosed.
Qed.

Lemma Recovery_NoDup db b err db' :
  NoDup (closed db) -> Recovery db b = Ret (err, db') -> NoDup (closed db').
Proof.
  intros Hnd. unfold Recovery. destruct (ReadInt64 b) as [commit buf].
  destruct (setCurrent db _) as [db1| | |] eqn:Hset; try done.
  cbn [mbind res_bind]. destruct (ReadInt64 buf) as [recent buf1].
  destruct (ReadUvarint buf1) as [count buf2]. intros [= _ <-].
  apply Recovery_loop_NoDup. cbn [set_MostRecent closed].
  by rewrite (setCurrent_closed _ _ _ Hset).
Qed.

Lemma Write_fields db commit body indexes timestamp err db' :
  Write db commit body indexes timestamp = Ret (err, db') ->
  err = None /\ closed db' = closed db /\ current db' = current db
  /\ stream db' = stream db /\ streams db' = streams db
  /\ files db' = files db /\ tmpfiles db' = tmpfiles db.
Proof.
  unfold Write.
  destruct (commit <=? current db)%N; [by intros [= <- <-]|].
  destruct (stream db) as [h|] eqn:Hs; [|by intros [= <- <-]].
  unfold deref. destruct (inodes db !! h) as [s0|]; [|done].
  cbn [mbind res_bind].
  destruct (Stream_Write s0 body indexes) as [[? [e|]] s1]; [done|].
  destruct (_ <? timestamp); by intros [= <- <-].
Qed.

(** X3: [closed] never lists a commit twice: [addClosed] skips a commit
    that is already there, so [Write], [Rotate], [Compress] and
    [Recovery] (of any bytes) keep the list free of duplicates. *)
Theorem closed_stays_duplicate_free db :
  NoDup (closed db) ->
  (forall commit, NoDup (closed (addClosed db commit)))
  /\ (forall commit body indexes timestamp err db',
        Write db commit body indexes timestamp = Ret (err, db') ->
        NoDup (closed db'))
  /\ (forall commit term err db',
        Rotate db commit term = Ret (err, db') -> NoDup (closed db'))
  /\ (forall start stop, NoDup (closed (Compress db start stop)))
  /\ (forall b err db', Recovery db b = Ret (err, db') -> NoDup (closed db')).
Proof.
  intros Hnd. split; [|split; [|split; [|split]]].
  - intros commit. by apply NoDup_addClosed.
  - intros commit body indexes timestamp err db' (_ & -> & _)%Write_fields. done.
  - intros commit term err db'. by apply Rotate_NoDup.
  - intros start stop. unfold Compress. cbn [set_closed closed].
    by apply NoDup_filter.
  - intros b err db'. by apply Recovery_NoDup.
Qed.

Lemma closed_stays_duplicate_free_witness :
  NoDup (closed db_rotated)
  /\ (forall commit term err db',
        Rotate db_rotated commit term = Ret (err, db') -> NoDup (closed db')).
Proof.
  assert (Hnd : NoDup (closed db_rotated)).
  { change (closed db_rotated) with [1%N]. apply NoDup_singleton. }
  split; [exact Hnd|].
  exact (proj1 (proj2 (proj2 (closed_stays_duplicate_free db_rotated Hnd)))).
Defined.

(** *** Write *)

(** X4: a [Write] never fails and never rotates: it leaves [current],
    [closed], the cache and the directory as they were, [MostRecent]
    never decreases, and a write that reaches the open stream leaves
    [MostRecent] at the larger of its old value and the timestamp. *)
Theorem Write_keeps_index_and_raises_MostRecent
    db commit body indexes timestamp err db' :
  Write db commit body indexes timestamp = Ret (err, db') ->
  err = None
  /\ current db' = current db /\ closed db' = closed db
  /\ stream db' = stream db /\ streams db' = streams db
  /\ files db' = files db /\ tmpfiles db' = tmpfiles db
  /\ MostRecent db <= MostRecent db'
  /\ ((current db < commit)%N -> is_Some (stream db) ->
      MostRecent db' = Z.max (MostRecent db) timestamp).
Proof.
  intros HW. pose proof (Write_fields _ _ _ _ _ _ _ HW) as (-> & ? & ? & ? & ? & ? & ?).
  repeat (split; [done|]).
  revert HW. unfold Write.
  destruct (N.leb_spec commit (current db)).
  { intros [= <-]. split; [lia|]. intros; lia. }
  destruct (stream db) as [h|] eqn:Hs.
  2:{ intros [= <-]. split; [cbn; lia|]. by intros _ [? ?]. }
  unfold deref. destruct (inodes db !! h) as [s0|]; [|done].
  cbn [mbind res_bind].
  destruct (Stream_Write s0 body indexes) as [[? [e|]] s1]; [done|].
  cbn [store set_inodes MostRecent].
  destruct (Z.ltb_spec (MostRecent db) timestamp); intros [= <-]; cbn; split; lia.
Qed.

Lemma Write_keeps_index_and_raises_MostRecent_witness :
  exists db',
    Write db_fresh 2 ["a"]%byte (index1 "u" "1") 100 = Ret (None, db')
    /\ current db' = current db_fresh
    /\ MostRecent db' = Z.max (MostRecent db_fresh) 100.
Proof.
  assert (HW : exists db', Write db_fresh 2 ["a"]%byte (index1 "u" "1") 100
                           = Ret (None, db'))
    by (eexists; vm_compute; reflexivity).
  destruct HW as [db' HW]. exists db'. split; [exact HW|].
  pose proof (Write_keeps_index_and_raises_MostRecent _ _ _ _ _ _ _ HW)
    as (_ & Hc & _ & _ & _ & _ & _ & _ & Hm).
  split; [exact Hc|]. apply Hm.
  - vm_compute. reflexivity.
  - assert (Hs : stream db_fresh = Some 0%nat) by (vm_compute; reflexivity).
    rewrite Hs. eauto.
Defined.

(** *** The stream cache *)

(** X5: a closed stream that [retrieveStream] returns is cached: the
    next retrieval of that commit, with or without [fetchMissing],
    returns the same handle and leaves the DB unchanged. *)
Theorem retrieveStream_hits_cache db commit fetch h db' :
  stream_is_open db ->
  retrieveStream db commit fetch = Ret (Some h, None, db') ->
  handle_Closed db' h = Ret true ->
  forall fetch', retrieveStream db' commit fetch' = Ret (Some h, None, db').
Proof.
  intros Hopen Hr Hc.
  destruct (retrieveStream_closed_cached _ _ _ _ _ Hopen Hr Hc)
    as (Hcache & _ & Hcur & Hst).
  intros fetch'. unfold retrieveStream at 1.
  destruct (_ && _) eqn:E; [|by rewrite Hcache].
  exfalso. rewrite Hcur, Hst in E.
  revert Hr. unfold retrieveStream. rewrite E. intros [= Hs <-].
  unfold handle_Closed, deref in Hc.
  destruct (inodes db !! h) as [s|] eqn:Hi; cbn [mbind res_bind] in Hc; [|done].
  injection Hc as Hc. unfold Stream.Closed in Hc.
  by rewrite (Hopen h s Hs Hi) in Hc.
Qed.

Lemma db_rotated_stream_is_open : stream_is_open db_rotated.
Proof.
  assert (Hs : stream db_rotated = Some 1%nat) by (vm_compute; reflexivity).
  assert (Hi : exists s, inodes db_rotated !! 1%nat = Some s
                         /\ Stream.closed s = false)
    by (eexists; split; vm_compute; reflexivity).
  destruct Hi as (s0 & Hi & Hcl).
  intros h s. rewrite Hs. intros [= <-] Hl.
  pose proof (eq_trans (eq_sym Hi) Hl) as [= <-]. exact Hcl.
Qed.

Lemma retrieveStream_hits_cache_witness :
  exists h db',
    stream_is_open db_rotated
    /\ retrieveStream db_rotated 1 false = Ret (Some h, None, db')
    /\ handle_Closed db' h = Ret true
    /\ retrieveStream db' 1 true = Ret (Some h, None, db').
Proof.
  assert (Hr : exists h db', retrieveStream db_rotated 1 false = Ret (Some h, None, db')
                             /\ handle_Closed db' h = Ret true).
  { eexists _, _. split; vm_compute; reflexivity. }
  destruct Hr as (h & db' & Hr & Hc). exists h, db'.
  split; [exact db_rotated_stream_is_open|]. split; [exact Hr|]. split; [exact Hc|].
  exact (retrieveStream_hits_cache db_rotated 1 false h db'
           db_rotated_stream_is_open Hr Hc true).
Defined.

(** *** Compress *)

Lemma forget_fold_cache (keep : N -> bool) (l : list N) : forall db c,
  cached (foldl (fun db c => if keep c then db else forgetStream db c) db l) c
  = if bool_decide (c ∈ l /\ keep c = false) then None else cached db c.
Proof.
  induction l as [|x l IH]; intros db c; cbn [foldl].
  - rewrite bool_decide_eq_false_2; [done|]. intros [H _]. by apply elem_of_nil in H.
  - rewrite IH. destruct (keep x) eqn:Hk.
    + destruct (decide (c ∈ l /\ keep c = false)) as [[Hin Hkc]|Hn].
      * rewrite !bool_decide_eq_true_2; [done| |done]. split; [by right|done].
      * rewrite !bool_decide_eq_false_2; [done| |done].
        intros [[->|Hin]%elem_of_cons Hkc]; [congruence|]. by apply Hn.
    + destruct (decide (c ∈ l /\ keep c = false)) as [[Hin Hkc]|Hn].
      * rewrite !bool_decide_eq_true_2; [done| |done]. split; [by right|done].
      * rewrite (bool_decide_eq_false_2 _ Hn).
        unfold cached, forgetStream. cbn [set_streams streams].
        destruct (decide (c = x)) as [->|Hne].
        -- rewrite lookup_delete_eq. rewrite bool_decide_eq_true_2; [done|].
           split; [by left|done].
        -- rewrite lookup_delete_ne by done.
           rewrite bool_decide_eq_false_2; [done|].
           intros [[->|Hin]%elem_of_cons Hkc]; [done|]. by apply Hn.
Qed.

(** X6: [Compress(start, stop)] drops from [closed] exactly the commits
    in (start, stop], in place, forgets the cached streams of the
    dropped commits and of [start] and of no other commit, moves a
    waiting events.<start>.tmpstream over events.<start>.stream, and
    leaves [current] and the open stream alone. *)
Theorem Compress_drops_the_range db start stop :
  closed (Compress db start stop)
  = filter (fun c => (c <= start)%N \/ (stop < c)%N) (closed db)
  /\ (forall c, cached (Compress db start stop) c =
                if bool_decide (c = start
                                \/ c ∈ closed db /\ (start < c)%N /\ (c <= stop)%N)
                then None else cached db c)
  /\ files (Compress db start stop)
     = match tmpfiles db !! start with
       | Some h => <[start := h]> (files db)
       | None => files db
       end
  /\ tmpfiles (Compress db start stop) = delete start (tmpfiles db)
  /\ current (Compress db start stop) = current db
  /\ stream (Compress db start stop) = stream db
  /\ inodes (Compress db start stop) = inodes db.
Proof.
  unfold Compress.
  set (keep := fun c => (c <=? start)%N || (stop <? c)%N).
  destruct (forget_fold_fields keep (closed db) db) as (H1 & H2 & H3 & H4 & _).
  pose proof (forget_fold_cache keep (closed db) db) as Hcache.
  set (db1 := foldl _ db (closed db)) in *.
  assert (Hrest : stream db1 = stream db /\ inodes db1 = inodes db).
  { subst db1. clear. generalize (closed db). intros l. revert db.
    induction l as [|x l IH]; intros db; [done|]. cbn [foldl].
    destruct (IH (if keep x then db else forgetStream db x)) as [-> ->].
    by destruct (keep x). }
  destruct Hrest as [Hs Hi].
  cbn [forgetStream set_streams tmpfiles files]. rewrite H3, H4.
  split; [|split; [|split; [|split; [|split; [|split]]]]].
  - destruct (tmpfiles db !! start); cbn [set_closed closed];
      apply list_filter_iff; intros c; subst keep; cbn beta;
      rewrite orb_true_iff, N.leb_le, N.ltb_lt; done.
  - intros c.
    assert (Hc1 : cached (forgetStream db1 start) c
                  = if bool_decide (c = start
                                    \/ c ∈ closed db /\ (start < c)%N /\ (c <= stop)%N)
                    then None else cached db c).
    { unfold cached at 1, forgetStream. cbn [set_streams streams].
      destruct (decide (c = start)) as [->|Hne].
      - rewrite lookup_delete_eq. rewrite bool_decide_eq_true_2; [done|by left].
      - rewrite lookup_delete_ne by done. fold (cached db1 c). rewrite Hcache.
        apply (f_equal (fun b : bool => if b then None else cached db c)).
        apply bool_decide_ext. subst keep. cbn beta.
        rewrite orb_false_iff, N.leb_gt, N.ltb_ge. split.
        + intros [Hin [? ?]]. right. done.
        + intros [?|[Hin [? ?]]]; [done|]. done. }
    rewrite <- Hc1. unfold cached, forgetStream.
    by destruct (tmpfiles db !! start).
  - by destruct (tmpfiles db !! start).
  - destruct (tmpfiles db !! start) eqn:Ht; cbn; [done|].
    by rewrite delete_id.
  - by destruct (tmpfiles db !! start).
  - by destruct (tmpfiles db !! start).
  - by destruct (tmpfiles db !! start).
Qed.

(** *** Save and Recovery *)

Lemma setCurrent_total db commit : exists db', setCurrent db commit = Ret db'.
Proof.
  unfold setCurrent, stream_New, Remove.
  cbn [set_files set_current set_mockoffset files]. rewrite lookup_delete_eq.
  assert (HN : exists s, Stream.New MAGIC_HEADER = inl s)
    by (eexists; vm_compute; reflexivity).
  destruct HN as [s ->]. eauto.
Qed.

Lemma to_int64_to_uint64 x :
  - 2 ^ 63 <= x <= MaxInt64 -> to_int64 (to_uint64 x) = x.
Proof.
  intros Hx. unfold to_int64, to_uint64, MaxInt64 in *.
  rewrite Zplus_mod_idemp_l. rewrite Z.mod_small by lia. lia.
Qed.

Lemma foldl_addClosed_closed (l : list N) : forall db,
  NoDup l -> (forall c, c ∈ l -> c ∉ closed db) ->
  closed (foldl addClosed db l) = closed db ++ l.
Proof.
  induction l as [|x l IH]; intros db Hnd Hfresh; cbn [foldl].
  - by rewrite app_nil_r.
  - apply NoDup_cons in Hnd as [Hx Hnd].
    assert (Hc : closed (addClosed db x) = closed db ++ [x]).
    { unfold addClosed. destruct (existsb _ _) eqn:E; [|done].
      apply existsb_exists in E as (c & Hin & ->%N.eqb_eq).
      exfalso. apply (Hfresh c); [by left|by apply list_elem_of_In]. }
    rewrite IH, Hc; [by rewrite <- app_assoc|done|].
    intros c Hin. rewrite Hc. intros [Hc'|Hc']%elem_of_app.
    + apply (Hfresh c); [by right|done].
    + apply list_elem_of_singleton in Hc'. by subst c.
Qed.

(** X7: [Recovery] of the bytes [Save] wrote restores [current] and
    [MostRecent], starts a new stream, and appends to [closed], in
    order, the saved closed commits; a DB with nothing closed ends with
    the saved list. The commits are [uint64] values, [MostRecent] an
    [int64], and the saved list has no duplicates and none of the
    commits the DB has closed already. *)
Theorem Recovery_restores_what_Save_wrote db snap :
  (current snap <= Z.to_N MaxUint64)%N ->
  Forall (fun c => (c <= Z.to_N MaxUint64)%N) (closed snap) ->
  - 2 ^ 63 <= MostRecent snap <= MaxInt64 ->
  Z.of_nat (length (closed snap)) <= MaxInt64 ->
  NoDup (closed snap) ->
  (forall c, c ∈ closed snap -> c ∉ closed db) ->
  exists db',
    Recovery db (Save snap) = Ret (None, db')
    /\ current db' = current snap
    /\ MostRecent db' = MostRecent snap
    /\ closed db' = closed db ++ closed snap
    /\ is_Some (stream db').
Proof.
  intros Hcur Hcl Hmr Hlen Hnd Hfresh. unfold Recovery, Save.
  rewrite ReadInt64_WriteInt64, uint64_round_trip by done.
  destruct (setCurrent_total db (current snap)) as [db1 Hset]. rewrite Hset.
  cbn [mbind res_bind]. rewrite ReadInt64_WriteInt64.
  unfold ReadUvarint.
  rewrite StreamTheory.read_uvarint_uvarint by (unfold MaxInt64 in *; lia).
  rewrite to_int64_id by (unfold MaxInt64 in *; lia).
  rewrite Nat2Z.id.
  rewrite <- (app_nil_r (concat _)), Recovery_loop_closed by done.
  eexists. split; [reflexivity|].
  pose proof (setCurrent_fields _ _ _ Hset) as (Hc1 & Hcl1 & _).
  set (db2 := set_MostRecent db1 _).
  destruct (foldl_addClosed_fields (closed snap) db2) as (_ & H2 & _).
  cbn zeta in H2. rewrite H2.
  assert (Hstream : is_Some (stream db1)).
  { revert Hset. unfold setCurrent.
    destruct (stream_New _ _) as [[h|?] ?]; [|done]. intros [= <-]. cbn. eauto. }
  split; [exact Hc1|]. split; [|split].
  - assert (Hm : forall (l : list N) d, MostRecent (foldl addClosed d l) = MostRecent d).
    { induction l as [|x l IH]; intros d; cbn [foldl]; [done|].
      rewrite IH. unfold addClosed. by destruct (existsb _ _). }
    rewrite Hm. subst db2. cbn [set_MostRecent MostRecent].
    by apply to_int64_to_uint64.
  - rewrite foldl_addClosed_closed; [|done|].
    + subst db2. cbn [set_MostRecent closed]. by rewrite Hcl1.
    + subst db2. cbn [set_MostRecent closed]. by rewrite Hcl1.
  - assert (Hs : forall (l : list N) d, stream (foldl addClosed d l) = stream d).
    { induction l as [|x l IH]; intros d; cbn [foldl]; [done|].
      rewrite IH. unfold addClosed. by destruct (existsb _ _). }
    by rewrite Hs.
Qed.

Lemma Recovery_restores_what_Save_wrote_witness :
  exists db',
    Recovery db_zero (Save db_rotated) = Ret (None, db')
    /\ current db' = current db_rotated
    /\ MostRecent db' = MostRecent db_rotated
    /\ closed db' = closed db_zero ++ closed db_rotated
    /\ is_Some (stream db').
Proof.
  assert (Hc : closed db_rotated = [1%N]) by (vm_compute; reflexivity).
  apply (Recovery_restores_what_Save_wrote db_zero db_rotated).
  - vm_compute. discriminate.
  - rewrite Hc. repeat constructor. vm_compute. discriminate.
  - vm_compute. split; discriminate.
  - rewrite Hc. vm_compute. discriminate.
  - rewrite Hc. apply NoDup_singleton.
  - intros c _ Hin. by apply elem_of_nil in Hin.
Defined.

(** *** Cursors *)

Lemma Pos_to_uint_nonnil p : Pos.to_uint p <> Decimal.Nil.
Proof.
  intros H. pose proof (DecimalPos.Unsigned.of_to p) as Hp.
  rewrite H in Hp. discriminate Hp.
Qed.

Lemma split_colon_digits d rest :
  split_colon (NilEmpty.string_of_uint d +:+ String ":" rest)
  = Some (NilEmpty.string_of_uint d, rest).
Proof.
  induction d; simpl; [done|..]; simpl in IHd; rewrite IHd; done.
Qed.

Lemma parse_digits_uint d :
  d <> Decimal.Nil ->
  parse_digits (NilEmpty.string_of_uint d) = Some (Z.of_N (N.of_uint d)).
Proof.
  intros Hd. unfold parse_digits.
  destruct (NilEmpty.string_of_uint d) eqn:E; [by destruct d|].
  rewrite <- E, NilEmpty.usu. done.
Qed.

Lemma ParseUint_Sprint n :
  (n <= Z.to_N MaxUint64)%N -> ParseUint (Sprint_uint64 n) = n.
Proof.
  intros Hn. unfold ParseUint, Sprint_uint64.
  assert (Hd : N.to_uint n <> Decimal.Nil).
  { destruct n; [done|]. apply Pos_to_uint_nonnil. }
  assert (Hs : NilZero.string_of_uint (N.to_uint n)
               = NilEmpty.string_of_uint (N.to_uint n))
    by (by destruct (N.to_uint n)).
  rewrite Hs. destruct (NilEmpty.string_of_uint (N.to_uint n)) eqn:E;
    [by destruct (N.to_uint n)|].
  rewrite <- E, NilEmpty.usu, DecimalN.Unsigned.of_to.
  destruct (N.ltb_spec (Z.to_N MaxUint64) n); [lia|done].
Qed.

Lemma ParseInt_digits d :
  d <> Decimal.Nil ->
  ParseInt (NilEmpty.string_of_uint d)
  = let n := Z.of_N (N.of_uint d) in if MaxInt64 <? n then MaxInt64 else n.
Proof.
  intros Hd. pose proof (parse_digits_uint d Hd) as Hp.
  unfold ParseInt. destruct d; try done;
    cbn [NilEmpty.string_of_uint] in *; cbn [Ascii.eqb Bool.eqb];
    by rewrite Hp.
Qed.

Lemma ParseInt_Sprint z :
  - 2 ^ 63 <= z <= MaxInt64 -> ParseInt (Sprint_int64 z) = z.
Proof.
  intros Hz. unfold Sprint_int64, Z.to_int.
  destruct z as [|p|p].
  - done.
  - cbn [NilZero.string_of_int].
    pose proof (Pos_to_uint_nonnil p) as Hd.
    replace (NilZero.string_of_uint (Pos.to_uint p))
      with (NilEmpty.string_of_uint (Pos.to_uint p))
      by (by destruct (Pos.to_uint p)).
    rewrite ParseInt_digits by done. cbn zeta.
    rewrite DecimalPos.Unsigned.of_to.
    destruct (Z.ltb_spec MaxInt64 (Z.of_N (N.pos p))); lia.
  - cbn [NilZero.string_of_int].
    pose proof (Pos_to_uint_nonnil p) as Hd.
    replace (NilZero.string_of_uint (Pos.to_uint p))
      with (NilEmpty.string_of_uint (Pos.to_uint p))
      by (by destruct (Pos.to_uint p)).
    unfold ParseInt. cbn [Ascii.eqb Bool.eqb].
    rewrite parse_digits_uint by done.
    rewrite DecimalPos.Unsigned.of_to.
    destruct (Z.ltb_spec (2 ^ 63) (Z.of_N (N.pos p))); lia.
Qed.

(** X8: a cursor that [buildContinuation] built for a commit above 0
    reads back: [parseContinuation] returns the commit and the offset,
    whatever the DB and the direction. The commit is a [uint64] value,
    the offset an [int64]. *)
Theorem parseContinuation_reads_buildContinuation db commit offset reverse :
  (0 < commit <= Z.to_N MaxUint64)%N ->
  - 2 ^ 63 <= offset <= MaxInt64 ->
  parseContinuation db (buildContinuation commit offset) reverse = (commit, offset).
Proof.
  intros Hc Ho. unfold buildContinuation.
  destruct (N.ltb_spec 0 commit); [|lia].
  unfold parseContinuation, Sprint_uint64.
  assert (Hd : N.to_uint commit <> Decimal.Nil).
  { destruct commit; [done|]. apply Pos_to_uint_nonnil. }
  assert (Hs : NilZero.string_of_uint (N.to_uint commit)
               = NilEmpty.string_of_uint (N.to_uint commit))
    by (by destruct (N.to_uint commit)).
  rewrite Hs.
  change (":" +:+ Sprint_int64 offset) with (String ":" (Sprint_int64 offset)).
  rewrite split_colon_digits.
  destruct (NilEmpty.string_of_uint (N.to_uint commit) +:+ _) eqn:E.
  { destruct (N.to_uint commit); try done. }
  rewrite <- Hs. fold (Sprint_uint64 commit).
  rewrite ParseUint_Sprint by lia. by rewrite ParseInt_Sprint.
Qed.

Lemma parseContinuation_reads_buildContinuation_witness :
  parseContinuation db_fresh (buildContinuation 10 27) true = (10%N, 27).
Proof.
  apply (parseContinuation_reads_buildContinuation db_fresh 10 27 true).
  - vm_compute. split; [reflexivity|discriminate].
  - vm_compute. split; discriminate.
Defined.

(** *** A cursor into a stream that cannot be had *)

Lemma retrieveStream_nowhere db commit :
  (current db =? commit)%N && bool_decide (is_Some (stream db)) = false ->
  cached db commit = None ->
  files db !! commit = None ->
  peers db !! commit = None ->
  retrieveStream db commit true = Ret (None, Some RecoveryFailed, db)
  /\ retrieveStream db commit false = Ret (None, Some NoSuchFile, db).
Proof.
  intros Hcur Hcache Hfile Hpeer. unfold retrieveStream, stream_Open, RecoverStream.
  by rewrite Hcur, Hcache, Hfile, Hpeer.
Qed.

(** X19: a cursor that names a commit above 0 whose stream is not the
    current one, is not cached, has no file in the directory and cannot
    be fetched from a peer makes [Iterate] and [Scan] return the empty
    cursor with the error of the recovery; the scanner is not called and
    the DB is as before. *)
Theorem cursor_to_a_missing_stream_fails db continuation commit offset
    name value St (sc : Stream.Scanner St) st fuel :
  (0 < commit)%N ->
  current db <> commit \/ stream db = None ->
  cached db commit = None ->
  files db !! commit = None ->
  peers db !! commit = None ->
  (parseContinuation db continuation false = (commit, offset) ->
   Iterate (S fuel) db continuation sc st = Ret (""%string, Some RecoveryFailed, st, db))
  /\ (parseContinuation db continuation true = (commit, offset) ->
      Scan (S fuel) db name value continuation sc st
      = Ret (""%string, Some RecoveryFailed, st, db)).
Proof.
  intros Hpos Hcur Hcache Hfile Hpeer.
  assert ((current db =? commit)%N && bool_decide (is_Some (stream db)) = false) as Hc.
  { destruct Hcur as [Hne | Hs].
    - by apply N.eqb_neq in Hne as ->.
    - rewrite Hs. rewrite andb_false_r. done. }
  destruct (retrieveStream_nowhere db commit Hc Hcache Hfile Hpeer) as [Hr _].
  apply N.ltb_lt in Hpos.
  split; intros Hp.
  - unfold Iterate. rewrite Hp. cbn [Iterate_loop negb andb]. rewrite Hpos, Hr. done.
  - unfold Scan. rewrite Hp. cbn [Scan_loop negb andb]. rewrite Hpos, Hr. done.
Qed.

Lemma cursor_to_a_missing_stream_fails_witness :
  (parseContinuation db_fresh "7:3" false = (7%N, 3) ->
   Iterate 1 db_fresh "7:3" collect [] = Ret (""%string, Some RecoveryFailed, [], db_fresh))
  /\ (parseContinuation db_fresh "7:3" true = (7%N, 3) ->
      Scan 1 db_fresh "u" "1" "7:3" collect []
      = Ret (""%string, Some RecoveryFailed, [], db_fresh)).
Proof.
  apply (cursor_to_a_missing_stream_fails db_fresh "7:3" 7%N 3 "u" "1" _ collect [] 0).
  - lia.
  - left. vm_compute. discriminate.
  - vm_compute. reflexivity.
  - vm_compute. reflexivity.
  - vm_compute. reflexivity.
Defined.

(** *** Rotate to a commit that has no file *)






End ClusterTheory.
